(** * Kernel bring-up of os64: [kernel/core/init.cc]

    A shallow embedding of the firmware memory-map reader
    ([IterateMemoryDescriptors]), the descriptor listing
    ([SerialPrintDescriptors]), the image-header check ([ImageNtHeaders])
    and the bring-up sequence ([OsInitialize]) with its image-hardening
    loop, followed by the properties established about them.

    Conventions.
    - Every integer of the program is a [Z]; 64-bit pointer and address
      arithmetic wraps through [wrap64].
    - Virtual memory is a finite map from addresses to bytes, absent
      addresses reading as zero; a load through a null pointer is a load
      from low memory like any other.  Page-table nodes live in a
      separate arena indexed by the physical address of each entry.
    - Code that can halt the machine or loop runs in the monad [M]: a
      computation receives the machine state and ends [Done], [Fatal] or
      [OutOfFuel], always handing back the state reached, so that the
      trace of what happened before a halt stays observable. *)

From Stdlib Require Import ZArith Lia Bool List.
From Stdlib.Strings Require Import Byte.
From stdpp Require Import base option list gmap.

Local Open Scope Z_scope.

(** ** Machine integers *)

Definition wrap64 (z : Z) : Z := z mod 2 ^ 64.

(** Modelled from the spec: [page_size] is declared in a header that is
    not among the sources; pages are 4096 bytes (section 8). *)
Definition page_size : Z := 4096.

(** Modelled from the spec: [SizeToPages] of the memory-manager header,
    which is not among the sources; the number of pages covering [size]
    bytes, "rounds page count up" (section 8). *)
Definition SizeToPages (size : Z) : Z := (size + page_size - 1) / page_size.

(** ** Byte-addressed virtual memory *)

Definition read_u8 (m : gmap Z byte) (a : Z) : Z :=
  Z.of_N (Byte.to_N (default x00 (m !! a))).

(** Little-endian load of [n] bytes starting at [a]. *)
Fixpoint read_le (n : nat) (m : gmap Z byte) (a : Z) : Z :=
  match n with
  | O => 0
  | S n' => read_u8 m a + 256 * read_le n' m (wrap64 (a + 1))
  end.

Definition read_u16 := read_le 2.
Definition read_u32 := read_le 4.
Definition read_u64 := read_le 8.

(** A signed 32-bit load (the type LONG of the image headers). *)
Definition read_i32 (m : gmap Z byte) (a : Z) : Z :=
  let u := read_u32 m a in if u <? 2 ^ 31 then u else u - 2 ^ 32.

(** The [n] consecutive byte addresses starting at [a]. *)
Fixpoint span (n : nat) (a : Z) : list Z :=
  match n with
  | O => []
  | S n' => a :: span n' (wrap64 (a + 1))
  end.

(** Modelled from the spec: [memzero(p, n)] of the kernel's C library
    ([libc/str.h], not among the sources), which "zero-fills" [n] bytes
    from [p] (section 4.4); a byte loop storing zero. *)
Fixpoint memzero (n : nat) (p : Z) (m : gmap Z byte) : gmap Z byte :=
  match n with
  | O => m
  | S n' => memzero n' (wrap64 (p + 1)) (<[p := x00]> m)
  end.

(** ** Page tables

    The memory-manager header ([common/mm.h]) and the architecture header
    ([hw/cpu/x64.h]) are not among the sources.  What the bring-up code
    needs from them is taken from the specification (sections 3 and 4.3):
    a four-level hierarchy rooted at [root], walked from the top, whose
    lookups fail as soon as a level is absent. *)

(** Modelled from the spec: [mm::PagePool], "a contiguous physical page
    range of known [base, count); mutable cursor [next_free_page];
    exclusive owner of a [root]" (section 3), built by the source from a
    virtual base, a physical base and a page count. *)
Record PagePool := mkPagePool {
  virt_base : Z;
  phys_base : Z;
  page_count : Z;
  next_free_page : Z;
  root : Z
}.

(** Modelled from the spec: the entry type of the architecture header,
    of which the source uses the bit-field [writable].  Entries are the
    64-bit words of the four-level paging scheme the spec names: bit 0 is
    [present], bit 1 is [writable], bits 12 to 51 hold the physical
    address of the frame or of the next table. *)
Definition frame_mask : Z := Z.shiftl (Z.ones 40) 12.

Definition pte_present (e : Z) : bool := Z.testbit e 0.
Definition pte_writable (e : Z) : bool := Z.testbit e 1.
Definition pte_frame (e : Z) : Z := Z.land e frame_mask.

(** A node that was never written is a zeroed page. *)
Definition entry_at (t : gmap Z Z) (a : Z) : Z := default 0 (t !! a).

(** Index of [va] in the table of the given level (0 is the leaf level). *)
Definition pt_index (va level : Z) : Z :=
  Z.land (Z.shiftr va (12 + 9 * level)) 511.

Definition walk_next (t : gmap Z Z) (table va level : Z) : option Z :=
  let e := entry_at t (table + 8 * pt_index va level) in
  if pte_present e then Some (pte_frame e) else None.

(** Modelled from the spec: [mm::GetPresentPte] is missing from the
    sources.  "Walks the hierarchy and returns the leaf entry for an
    already-mapped address ... fails if any level along the walk is
    absent."  The result is the arena address of the leaf entry. *)
Definition GetPresentPte (pool : PagePool) (t : gmap Z Z) (va : Z) : option Z :=
  pdpt ← walk_next t (root pool) va 3;
  pd ← walk_next t pdpt va 2;
  pt ← walk_next t pd va 1;
  let pte := pt + 8 * pt_index va 0 in
  if pte_present (entry_at t pte) then Some pte else None.

(** The store [pte->writable = false]. *)
Definition clear_writable (t : gmap Z Z) (pte : Z) : gmap Z Z :=
  <[pte := Z.clearbit (entry_at t pte) 1]> t.

(** ** Observable events *)

Record Region := mkRegion { base : Z; PageCount : Z }.

Inductive event : Type :=
| EvGfxInitialize (frame_buffer frame_buffer_size : Z)
| EvSerialInitialize
| EvParseMadt (madt_header : Z)
| EvAllocatePhysical (page : Z)
| EvMapPages (va pa pages : Z)
| EvMapPagesInRegion (region : Region) (pa pages : Z)
| EvWriteCr3 (new_root : Z)
| EvSetFrameBufferAddress (frame_buffer : Z)
| EvSetUsingApic (on : bool)
| EvX64Initialize
| EvTimerInitialize (hpet : Z)
| EvPs2Initialize
| EvPrintNoPs2
| EvPrintZeroing (start size : Z)
| EvPrintWriteProtecting (start stop : Z)
| EvMemzero (start size : Z)
| EvGetPresentPte (page : Z)
| EvClearWritable (page pte : Z)
| EvTlbFlushAddress (page : Z)
| EvDescriptor (desc : Z)
| EvUnmaskInterrupts
| EvIdle.

(** ** Machine state and the monad of the bring-up code *)

Record machine := mkMachine {
  mem : gmap Z byte;
  tables : gmap Z Z;
  pool : PagePool;
  trace : list event
}.

Definition set_mem (f : gmap Z byte → gmap Z byte) (st : machine) : machine :=
  mkMachine (f (mem st)) (tables st) (pool st) (trace st).
Definition set_tables (f : gmap Z Z → gmap Z Z) (st : machine) : machine :=
  mkMachine (mem st) (f (tables st)) (pool st) (trace st).
Definition set_pool (p : PagePool) (st : machine) : machine :=
  mkMachine (mem st) (tables st) p (trace st).
Definition emit (evs : list event) (st : machine) : machine :=
  mkMachine (mem st) (tables st) (pool st) (trace st ++ evs).

Inductive result (A : Type) : Type :=
| Done (a : A) (st : machine)
| Fatal (st : machine)
| OutOfFuel (st : machine).
Arguments Done {A} a st.
Arguments Fatal {A} st.
Arguments OutOfFuel {A} st.

Definition M (A : Type) : Type := machine → result A.

Definition ret {A} (a : A) : M A := fun st => Done a st.

Definition bind {A B} (m : M A) (k : A → M B) : M B :=
  fun st =>
    match m st with
    | Done a st' => k a st'
    | Fatal st' => Fatal st'
    | OutOfFuel st' => OutOfFuel st'
    end.

Notation "'do' x <- m ;; k" := (bind m (fun x => k))
  (at level 100, x name, m at next level, right associativity).
Notation "m ;; k" := (bind m (fun _ => k))
  (at level 100, right associativity).

Definition log (e : event) : M unit := fun st => Done tt (emit [e] st).

Definition final_state {A} (r : result A) : machine :=
  match r with
  | Done _ st => st
  | Fatal st => st
  | OutOfFuel st => st
  end.

Definition is_done {A} (r : result A) : bool :=
  match r with Done _ _ => true | _ => false end.

(** Sequential execution of [f] over a list, first element first. *)
Fixpoint for_each {X} (f : X → M unit) (l : list X) : M unit :=
  match l with
  | [] => ret tt
  | x :: l' => f x ;; for_each f l'
  end.

(** ** The firmware memory map *)

(** The loader's handle on the map, declared in the boot header (not
    among the sources): the fields [m.map], [m.size] and
    [m.descriptor_size] that the source reads. *)
Record MemoryMap := mkMemoryMap {
  m_map : Z;
  m_size : Z;
  m_descriptor_size : Z
}.

(** Modelled from the spec: [uefi::memory_descriptor], declared outside
    the sources: "type, physical start address, virtual start address,
    page count, attribute bitset" (section 3), in the firmware's layout:
    a 32-bit type padded to 8 bytes, then four 64-bit fields; 40 bytes in
    all, the minimum valid descriptor size. *)
Record memory_descriptor := mkDescriptor {
  type_ : Z;
  physical_start : Z;
  virtual_start : Z;
  number_of_pages : Z;
  attribute : Z
}.

Definition sizeof_memory_descriptor : Z := 40.

Definition read_memory_descriptor (m : gmap Z byte) (desc : Z) : memory_descriptor :=
  {| type_ := read_u32 m desc;
     physical_start := read_u64 m (wrap64 (desc + 8));
     virtual_start := read_u64 m (wrap64 (desc + 16));
     number_of_pages := read_u64 m (wrap64 (desc + 24));
     attribute := read_u64 m (wrap64 (desc + 32)) |}.

(** Modelled from the spec: [uefi::memory_runtime], the attribute the
    firmware sets on regions "needed post-handoff" (section 4.3); bit 63
    of the attribute word. *)
Definition memory_runtime : Z := 0x8000000000000000.

(** Modelled from the spec: the macro
    [uefi_next_memory_descriptor(ptr, size)], defined outside the
    sources; the descriptor [size] bytes after [ptr], which is how the
    reader "advances by the declared stride" (section 4.1). *)
Definition uefi_next_memory_descriptor (ptr size : Z) : Z := wrap64 (ptr + size).

(** The [for] loop of [IterateMemoryDescriptors], entered with the cursor
    at [desc].  Each turn of the loop costs one unit of fuel. *)
Fixpoint IterateFrom (fuel : nat) (m : MemoryMap) (callback : Z → M unit)
    (desc : Z) : M unit :=
  fun st =>
    if desc <? uefi_next_memory_descriptor (m_map m) (m_size m) then
      match fuel with
      | O => OutOfFuel st
      | S fuel' =>
          (callback desc ;;
           IterateFrom fuel' m callback
             (uefi_next_memory_descriptor desc (m_descriptor_size m))) st
      end
    else Done tt st.

Definition IterateMemoryDescriptors (fuel : nat) (m : MemoryMap)
    (callback : Z → M unit) : M unit :=
  IterateFrom fuel m callback (m_map m).

(** ** The descriptor listing ([SerialPrintDescriptors])

    [IterateMemoryDescriptors] is a template over its callback
    ([auto&& callback]).  [IterateFrom] is its instance at the callbacks
    that act on the machine.  The callback of the listing is a closure
    over the counter [i] that talks to the serial port, and takes the
    instance at callbacks acting on a state of their own: the same loop,
    with [None] when the fuel runs out. *)

Fixpoint IterateFromWith {St : Type} (fuel : nat) (m : MemoryMap)
    (callback : Z → St → St) (desc : Z) (s : St) : option St :=
  if desc <? uefi_next_memory_descriptor (m_map m) (m_size m) then
    match fuel with
    | O => None
    | S fuel' =>
        IterateFromWith fuel' m callback
          (uefi_next_memory_descriptor desc (m_descriptor_size m))
          (callback desc s)
    end
  else Some s.








(** ** The loaded kernel image

    Modelled from the spec: the image-format header is not among the
    sources; offsets and magic values are those of the
    portable-executable layout the spec refers to (section 6): a DOS
    header whose [e_magic] is at offset 0 and whose [e_lfanew] is at
    offset 60; an NT header made of a 4-byte [Signature] and a 20-byte
    file header ([NumberOfSections] at offset 6, [SizeOfOptionalHeader]
    at offset 20) followed by the optional header; then the table of
    40-byte section headers, each with [VirtualSize] at offset 8,
    [VirtualAddress] at offset 12 and [Characteristics] at offset 36. *)

Definition IMAGE_DOS_SIGNATURE : Z := 0x5A4D.
Definition IMAGE_NT_SIGNATURE : Z := 0x00004550.
Definition IMAGE_SCN_MEM_DISCARDABLE : Z := 0x02000000.
Definition IMAGE_SCN_MEM_WRITE : Z := 0x80000000.
Definition sizeof_section_header : Z := 40.

Definition ImageNtHeaders (m : gmap Z byte) (image_base : Z) : Z :=
  let dos_header := image_base in
  if (dos_header =? 0) || negb (read_u16 m dos_header =? IMAGE_DOS_SIGNATURE)
  then 0
  else
    let nt_headers :=
      wrap64 (image_base + read_i32 m (wrap64 (dos_header + 60))) in
    if (nt_headers =? 0) || negb (read_u32 m nt_headers =? IMAGE_NT_SIGNATURE)
    then 0
    else nt_headers.

(** [kernel_nt->FileHeader.NumberOfSections]. *)
Definition NumberOfSections (m : gmap Z byte) (nt : Z) : Z :=
  read_u16 m (wrap64 (nt + 6)).

(** Modelled from the spec: the macro [IMAGE_FIRST_SECTION], defined
    outside the sources: the section table starts right after the
    optional header, whose size the file header declares. *)
Definition IMAGE_FIRST_SECTION (m : gmap Z byte) (nt : Z) : Z :=
  wrap64 (nt + 24 + read_u16 m (wrap64 (nt + 20))).

(** The fields of a section header the hardening loop consults. *)
Record section_header := mkSection {
  VirtualSize : Z;
  VirtualAddress : Z;
  Characteristics : Z
}.

Definition read_section_header (m : gmap Z byte) (section : Z) : section_header :=
  {| VirtualSize := read_u32 m (wrap64 (section + 8));
     VirtualAddress := read_u32 m (wrap64 (section + 12));
     Characteristics := read_u32 m (wrap64 (section + 36)) |}.

Definition is_discardable (s : section_header) : bool :=
  negb (Z.land (Characteristics s) IMAGE_SCN_MEM_DISCARDABLE =? 0).

Definition is_writable (s : section_header) : bool :=
  negb (Z.land (Characteristics s) IMAGE_SCN_MEM_WRITE =? 0).

(** ** Parameters of the kernel build

    The virtual layout ([kva::...]), the interrupt-controller addresses
    found by the ACPI parser and the page-table builder of the memory
    manager are declared outside the sources at hand.  The bring-up code
    is modelled over any choice of them. *)

Class Layout := {
  kva_kernel : Region;
  kva_kernel_pt : Region;
  kva_frame_buffer : Region;
  kva_devices : Region;
  apic_io : Z;
  apic_local : Z
}.

(** Each operation receives the pool and the table arena and either
    returns them updated or halts the machine ([None]). *)
Class MemoryManager := {
  mm_AllocatePhysical : PagePool → gmap Z Z → option (PagePool * gmap Z Z * Z);
  mm_MapPages : PagePool → gmap Z Z → Z → Z → Z → option (PagePool * gmap Z Z);
  mm_MapPagesInRegion :
    PagePool → gmap Z Z → Region → Z → Z → option (PagePool * gmap Z Z * Z)
}.

(** ** Image hardening (the section loop of [OsInitialize]) *)

Definition memzero_at (start size : Z) : M unit :=
  fun st =>
    Done tt (emit [EvMemzero start size]
               (set_mem (memzero (Z.to_nat size) start) st)).

(** One turn of the write-protect loop:
    [pte = GetPresentPte(pool, page); pte->writable = false;
     TlbFlushAddress(page)].  A failed lookup is fatal. *)
Definition ProtectPage (page : Z) : M unit :=
  fun st =>
    match GetPresentPte (pool st) (tables st) page with
    | None => Fatal (emit [EvGetPresentPte page] st)
    | Some pte =>
        Done tt
          (emit [EvGetPresentPte page; EvClearWritable page pte;
                 EvTlbFlushAddress page]
             (set_tables (fun t => clear_writable t pte) st))
    end.

(** [for (auto page = start; page < end; page += page_size)]. *)
Fixpoint WriteProtectLoop (fuel : nat) (page stop : Z) : M unit :=
  fun st =>
    if page <? stop then
      match fuel with
      | O => OutOfFuel st
      | S fuel' =>
          (ProtectPage page ;;
           WriteProtectLoop fuel' (wrap64 (page + page_size)) stop) st
      end
    else Done tt st.

Definition section_start `{L : Layout} (s : section_header) : Z :=
  wrap64 (base kva_kernel + VirtualAddress s).

Definition section_end `{L : Layout} (s : section_header) : Z :=
  wrap64 (section_start s + VirtualSize s).

(** The body of the section loop.  The copy of the section name only
    feeds the console messages and is left out of the events. *)
Definition HardenSection `{L : Layout} (fuel : nat) (s : section_header) : M unit :=
  if is_discardable s then
    let start := section_start s in
    let size := VirtualSize s in
    log (EvPrintZeroing start size) ;;
    memzero_at start size
  else if negb (is_writable s) then
    let start := section_start s in
    let stop := section_end s in
    log (EvPrintWriteProtecting start stop) ;;
    WriteProtectLoop fuel start stop
  else ret tt.

(** The number of values a 16-bit loop counter runs through before it
    would wrap. *)
Definition u16_values : nat := Z.to_nat 65535.

(** [for (u16 i = 0; i < kernel_nt->FileHeader.NumberOfSections; i++)]:
    the bound is read from memory at every turn, the header at [section]
    at the start of the turn.  [k] counts the values the 16-bit counter
    can still take. *)
Fixpoint SectionLoop `{L : Layout} (fuel : nat) (k : nat) (kernel_nt i section : Z)
    : M unit :=
  fun st =>
    if i <? NumberOfSections (mem st) kernel_nt then
      match k with
      | O => OutOfFuel st
      | S k' =>
          (HardenSection fuel (read_section_header (mem st) section) ;;
           SectionLoop fuel k' kernel_nt (i + 1)
             (wrap64 (section + sizeof_section_header))) st
      end
    else Done tt st.

Definition HardenImage `{L : Layout} (fuel : nat) : M unit :=
  fun st =>
    let kernel_nt := ImageNtHeaders (mem st) (base kva_kernel) in
    let section := IMAGE_FIRST_SECTION (mem st) kernel_nt in
    SectionLoop fuel u16_values kernel_nt 0 section st.

(** ** Address-space construction and the bring-up sequence *)

(** The boot-handoff record, declared in the boot header (not among the
    sources), with the fields the source reads from it. *)
Record DisplayInfo := mkDisplay { frame_buffer : Z; frame_buffer_size : Z }.
Record KernelData := mkKernel { physical_base : Z; size_ : Z }.

Record LoaderBlock := mkLoaderBlock {
  display : DisplayInfo;
  madt_header : Z;
  memory_map : MemoryMap;
  kernel : KernelData;
  hpet : Z;
  i8042 : bool;
  page_tables_pool : Z;
  page_tables_pool_count : Z
}.

Definition with_root (p : PagePool) (r : Z) : PagePool :=
  mkPagePool (virt_base p) (phys_base p) (page_count p) (next_free_page p) r.

(** [mm::AllocatePhysical(pool, &pool.root)]. *)
Definition AllocateRoot `{MMgr : MemoryManager} : M unit :=
  fun st =>
    match mm_AllocatePhysical (pool st) (tables st) with
    | None => Fatal st
    | Some (p, t, page) =>
        Done tt (mkMachine (mem st) t (with_root p page)
                   (trace st ++ [EvAllocatePhysical page]))
    end.

(** [mm::MapPages(pool, va, pa, pages)]; the event is recorded once the
    call has returned. *)
Definition MapPages `{MMgr : MemoryManager} (va pa pages : Z) : M unit :=
  fun st =>
    match mm_MapPages (pool st) (tables st) va pa pages with
    | None => Fatal st
    | Some (p, t) =>
        Done tt (mkMachine (mem st) t p (trace st ++ [EvMapPages va pa pages]))
    end.

(** [mm::MapPagesInRegion(pool, region, &address, pages)]; yields the
    value left in [address]. *)
Definition MapPagesInRegion `{MMgr : MemoryManager} (region : Region) (pa pages : Z)
    : M Z :=
  fun st =>
    match mm_MapPagesInRegion (pool st) (tables st) region pa pages with
    | None => Fatal st
    | Some (p, t, a) =>
        Done a (mkMachine (mem st) t p
                  (trace st ++ [EvMapPagesInRegion region pa pages]))
    end.

Definition has_runtime_attribute (d : memory_descriptor) : bool :=
  negb (Z.land (attribute d) memory_runtime =? 0).

(** The callback handed to [IterateMemoryDescriptors] by [OsInitialize]. *)
Definition MapRuntimeDescriptor `{MMgr : MemoryManager} (desc : Z) : M unit :=
  fun st =>
    let d := read_memory_descriptor (mem st) desc in
    if has_runtime_attribute d
    then MapPages (virtual_start d) (physical_start d) (number_of_pages d) st
    else Done tt st.

Definition MapRuntimeRegions `{MMgr : MemoryManager} (fuel : nat) (m : MemoryMap) : M unit :=
  IterateMemoryDescriptors fuel m MapRuntimeDescriptor.

Definition WriteCr3 : M unit :=
  fun st => Done tt (emit [EvWriteCr3 (root (pool st))] st).

(** Page-table construction, up to the point where the new root is
    loaded. *)
Definition BuildAddressSpace `{L : Layout} `{MMgr : MemoryManager} (fuel : nat)
    (loader_block : LoaderBlock) : M (Z * Z) :=
  let memory_map := memory_map loader_block in
  let display := display loader_block in
  let kernel := kernel loader_block in
  let hpet := hpet loader_block in
  let pt_physical := page_tables_pool loader_block in
  let pt_pages := page_tables_pool_count loader_block in
  (fun st =>
     Done tt (set_pool (mkPagePool (base kva_kernel_pt) pt_physical pt_pages 0 0) st)) ;;
  AllocateRoot ;;
  let kernel_pages := SizeToPages (size_ kernel) in
  MapPages (base kva_kernel) (physical_base kernel) kernel_pages ;;
  MapPages (base kva_kernel_pt) pt_physical pt_pages ;;
  do fb <- MapPagesInRegion kva_frame_buffer (frame_buffer display)
          (PageCount kva_frame_buffer) ;;
  do hpet' <- MapPagesInRegion kva_devices hpet 1 ;;
  do _ <- MapPagesInRegion kva_devices apic_io 1 ;;
  do _ <- MapPagesInRegion kva_devices apic_local 1 ;;
  MapRuntimeRegions fuel memory_map ;;
  ret (fb, hpet').

(** The steps between the activation of the root and image hardening. *)
Definition InitializeHardware (loader_block : LoaderBlock) (fb hpet' : Z) : M unit :=
  log (EvSetFrameBufferAddress fb) ;;
  log (EvSetUsingApic false) ;;
  log EvX64Initialize ;;
  log (EvTimerInitialize hpet') ;;
  (if i8042 loader_block then log EvPs2Initialize else log EvPrintNoPs2).

Definition OsInitialize `{L : Layout} `{MMgr : MemoryManager} (fuel : nat)
    (loader_block : LoaderBlock) : M unit :=
  log (EvGfxInitialize (frame_buffer (display loader_block))
         (frame_buffer_size (display loader_block))) ;;
  log EvSerialInitialize ;;
  log (EvParseMadt (madt_header loader_block)) ;;
  do addrs <- BuildAddressSpace fuel loader_block ;;
  WriteCr3 ;;
  InitializeHardware loader_block (fst addrs) (snd addrs) ;;
  HardenImage fuel ;;
  log EvUnmaskInterrupts ;;
  log EvIdle.

(** ** Descriptions used in the statements

    These follow the wording of the specification rather than the code;
    the theorems relate them to the loops above. *)

(** The cursors of a map holding [n] descriptors [stride] bytes apart. *)
Definition descriptor_cursors (start stride : Z) (n : nat) : list Z :=
  map (fun k => start + Z.of_nat k * stride) (seq 0 n).

(** The number of strides needed to cover [size] bytes. *)
Definition strides_covering (size stride : Z) : nat :=
  Z.to_nat ((size + stride - 1) / stride).

(** A callback that only records the descriptor it is given. *)
Definition RecordDescriptor (desc : Z) : M unit := log (EvDescriptor desc).

(** Successive values of the [section] pointer. *)
Fixpoint section_ptrs (n : nat) (section : Z) : list Z :=
  match n with
  | O => []
  | S n' => section :: section_ptrs n' (wrap64 (section + sizeof_section_header))
  end.

(** The section table as it stands in memory [m], in table order. *)
Definition section_table `{L : Layout} (m : gmap Z byte) : list section_header :=
  let nt := ImageNtHeaders m (base kva_kernel) in
  map (read_section_header m)
    (section_ptrs (Z.to_nat (NumberOfSections m nt)) (IMAGE_FIRST_SECTION m nt)).

(** Bytes of a section header read by the loop. *)
Definition section_fields (section : Z) : list Z :=
  span 4 (wrap64 (section + 8)) ++ span 4 (wrap64 (section + 12))
  ++ span 4 (wrap64 (section + 36)).

(** Every byte of memory the hardening pass reads to find its way
    through the image. *)
Definition header_footprint `{L : Layout} (m : gmap Z byte) : list Z :=
  let image_base := base kva_kernel in
  let nt := ImageNtHeaders m image_base in
  span 2 image_base
  ++ span 4 (wrap64 (image_base + 60))
  ++ span 4 (wrap64 (image_base + read_i32 m (wrap64 (image_base + 60))))
  ++ span 2 (wrap64 (nt + 6))
  ++ span 2 (wrap64 (nt + 20))
  ++ flat_map section_fields
       (section_ptrs (Z.to_nat (NumberOfSections m nt)) (IMAGE_FIRST_SECTION m nt)).

(** The bytes of a section's virtual extent. *)
Definition extent `{L : Layout} (s : section_header) : list Z :=
  span (Z.to_nat (VirtualSize s)) (section_start s).

(** The page addresses the write-protect loop steps through. *)
Definition page_steps (start stop : Z) : list Z :=
  descriptor_cursors start page_size (strides_covering (stop - start) page_size).

Definition is_protected (s : section_header) : bool :=
  negb (is_discardable s) && negb (is_writable s).

Definition in_list (a : Z) (l : list Z) : bool := existsb (Z.eqb a) l.

(** No discardable section lies over the headers of the image. *)
Definition headers_kept `{L : Layout} (m : gmap Z byte) : bool :=
  let footprint := header_footprint m in
  forallb
    (fun s =>
       negb (is_discardable s)
       || forallb (fun a => negb (in_list a footprint)) (extent s))
    (section_table m).

Definition is_mapped (p : PagePool) (t : gmap Z Z) (page : Z) : bool :=
  match GetPresentPte p t page with Some _ => true | None => false end.

(** A section to write-protect lies inside the address space, its pages
    are mapped, and the fuel covers its pages. *)
Definition section_ready `{L : Layout} (fuel : nat) (p : PagePool) (t : gmap Z Z)
    (s : section_header) : bool :=
  negb (is_protected s)
  || ((base kva_kernel + VirtualAddress s + VirtualSize s + page_size <=? 2 ^ 64)
      && (Z.of_nat (length (page_steps (section_start s) (section_end s)))
          <=? Z.of_nat fuel)
      && forallb (is_mapped p t) (page_steps (section_start s) (section_end s))).

Definition image_ready `{L : Layout} (fuel : nat) (st : machine) : bool :=
  (0 <=? base kva_kernel)
  && headers_kept (mem st)
  && forallb (section_ready fuel (pool st) (tables st)) (section_table (mem st)).

(** Every edit of a leaf entry is directly followed by the flush of the
    same page. *)
Fixpoint flushed_after_edit (evs : list event) : bool :=
  match evs with
  | [] => true
  | EvClearWritable page _ :: rest =>
      match rest with
      | EvTlbFlushAddress page' :: _ => (page =? page') && flushed_after_edit rest
      | _ => false
      end
  | _ :: rest => flushed_after_edit rest
  end.

Definition is_hardening_event (e : event) : bool :=
  match e with
  | EvPrintZeroing _ _ | EvPrintWriteProtecting _ _ | EvMemzero _ _
  | EvGetPresentPte _ | EvClearWritable _ _ | EvTlbFlushAddress _ => true
  | _ => false
  end.

(** The request each runtime descriptor gives rise to. *)
Definition runtime_mapping (d : memory_descriptor) : event :=
  EvMapPages (virtual_start d) (physical_start d) (number_of_pages d).

(** ** Concrete inputs on which the model is run *)

Definition byte_of_Z (z : Z) : byte :=
  default x00 (Byte.of_N (Z.to_N (z mod 256))).

(** Little-endian store of the [n] low bytes of [v]. *)
Fixpoint write_le (n : nat) (a v : Z) (m : gmap Z byte) : gmap Z byte :=
  match n with
  | O => m
  | S n' => write_le n' (wrap64 (a + 1)) (v / 256) (<[a := byte_of_Z v]> m)
  end.

Fixpoint fill (n : nat) (a : Z) (b : byte) (m : gmap Z byte) : gmap Z byte :=
  match n with
  | O => m
  | S n' => fill n' (wrap64 (a + 1)) b (<[a := b]> m)
  end.

Definition write_section (section size va characteristics : Z)
    (m : gmap Z byte) : gmap Z byte :=
  write_le 4 (section + 36) characteristics
    (write_le 4 (section + 12) va (write_le 4 (section + 8) size m)).

Definition write_descriptor (desc : Z) (d : memory_descriptor)
    (m : gmap Z byte) : gmap Z byte :=
  write_le 8 (desc + 32) (attribute d)
    (write_le 8 (desc + 24) (number_of_pages d)
       (write_le 8 (desc + 16) (virtual_start d)
          (write_le 8 (desc + 8) (physical_start d)
             (write_le 4 desc (type_ d) m)))).

(** A layout with the kernel in the top 2 GiB. *)
Definition example_layout : Layout :=
  {| kva_kernel := mkRegion 0xFFFFFFFF80000000 0x80000;
     kva_kernel_pt := mkRegion 0xFFFFFFFF00000000 0x200;
     kva_frame_buffer := mkRegion 0xFFFFFFFE00000000 0x4000;
     kva_devices := mkRegion 0xFFFFFFFD00000000 0x10;
     apic_io := 0xFEC00000;
     apic_local := 0xFEE00000 |}.

(** A memory manager that grants every request and leaves the tables as
    they are; the tables of the examples are laid out beforehand. *)
Definition accepting_manager : MemoryManager :=
  {| mm_AllocatePhysical := fun p t => Some (p, t, phys_base p);
     mm_MapPages := fun p t _ _ _ => Some (p, t);
     mm_MapPagesInRegion := fun p t _ pa _ => Some (p, t, pa) |}.

Definition example_kernel_base : Z := 0xFFFFFFFF80000000.

(** Three descriptors 48 bytes apart: conventional memory, runtime
    services code, and a memory-mapped device needed at run time. *)
Definition example_map_memory : gmap Z byte :=
  write_descriptor 0x8060 (mkDescriptor 11 0xFED00000 0xFED00000 1 0x8000000000000001)
    (write_descriptor 0x8030 (mkDescriptor 5 0x7F000000 0x7F000000 0x10 0x800000000000000F)
       (write_descriptor 0x8000 (mkDescriptor 7 0x100000 0 0x100 0xF) ∅)).

Definition example_memory_map : MemoryMap := mkMemoryMap 0x8000 144 48.

(** An image of three sections: a discardable one of 64 bytes filled
    with 0xFF, read-only code of one page, and writable data. *)
Definition example_image (m : gmap Z byte) : gmap Z byte :=
  let kb := example_kernel_base in
  write_section (kb + 0x1D8) 0x1000 0x4000 0xC0000040
    (write_section (kb + 0x1B0) 0x1000 0x3000 0x60000020
       (write_section (kb + 0x188) 0x40 0x1000 0x42000040
          (write_le 2 (kb + 0x94) 0xF0
             (write_le 2 (kb + 0x86) 3
                (write_le 4 (kb + 0x80) 0x4550
                   (write_le 4 (kb + 60) 0x80
                      (write_le 2 kb 0x5A4D
                         (fill (Z.to_nat 0x40) (kb + 0x1000) xff m)))))))).

Definition example_mem : gmap Z byte := example_image example_map_memory.

(** Tables mapping the five pages of the example image. *)
Definition example_tables : gmap Z Z :=
  <[0x13020 := 0x8000000000204003]>
    (<[0x13018 := 0x203023]>
       (<[0x13010 := 0x8000000000202003]>
          (<[0x13008 := 0x8000000000201003]>
             (<[0x13000 := 0x200001]>
                (<[0x12000 := 0x13003]>
                   (<[0x11FF0 := 0x12003]>
                      (<[0x10FF8 := 0x11003]> ∅))))))).

Definition example_pool : PagePool :=
  mkPagePool 0xFFFFFFFF00000000 0x10000 16 4 0x10000.

Definition example_machine : machine :=
  mkMachine example_mem example_tables example_pool [].

Definition example_loader_block : LoaderBlock :=
  {| display := mkDisplay 0xC0000000 0x300000;
     madt_header := 0x7FE0000;
     memory_map := example_memory_map;
     kernel := mkKernel 0x200000 0x5000;
     hpet := 0xFED00000;
     i8042 := true;
     page_tables_pool := 0x10000;
     page_tables_pool_count := 16 |}.

(** A map whose size is not a multiple of its stride. *)
Definition ragged_memory_map : MemoryMap := mkMemoryMap 0x8000 100 48.

(** A map whose stride is smaller than a descriptor. *)
Definition narrow_memory_map : MemoryMap := mkMemoryMap 0x8000 16 8.

(** The example image with a wrong DOS signature. *)
Definition unsigned_mem : gmap Z byte :=
  write_le 2 example_kernel_base 0x4D5A example_mem.

(** The same, in an address space where low memory happens to hold bytes
    that read as one discardable section. *)
Definition corrupt_mem : gmap Z byte :=
  write_section 24 16 0x1000 0x02000000 (write_le 2 6 1 unsigned_mem).

(** A machine with empty memory and no tables. *)
Definition blank_machine : machine := mkMachine ∅ ∅ example_pool [].

(** A machine holding the example memory map only. *)
Definition map_machine : machine :=
  mkMachine example_map_memory ∅ example_pool [].

(** The example loader block with the narrow map in place of its own. *)
Definition narrow_loader_block : LoaderBlock :=
  {| display := display example_loader_block;
     madt_header := madt_header example_loader_block;
     memory_map := narrow_memory_map;
     kernel := kernel example_loader_block;
     hpet := hpet example_loader_block;
     i8042 := i8042 example_loader_block;
     page_tables_pool := page_tables_pool example_loader_block;
     page_tables_pool_count := page_tables_pool_count example_loader_block |}.

(** ** Relations kept by a computation

    [keeps R c]: whatever its outcome, [c] takes a state to one related
    to it by [R].  For a pre-order [R] this passes through sequencing and
    through the loops of the bring-up code. *)
Definition keeps {A} (R : machine → machine → Prop) (c : M A) : Prop :=
  ∀ st, R st (final_state (c st)).

(** The trace grew by events that together satisfy [Q]. *)
Definition extends (Q : list event → Prop) (st st' : machine) : Prop :=
  ∃ evs, trace st' = trace st ++ evs ∧ Q evs.

(** [emits P c]: [c] only adds events satisfying [P] to the trace. *)
Definition emits {A} (P : event → Prop) (c : M A) : Prop :=
  keeps (extends (Forall P)) c.

(** Properties of event lists that hold of the empty list and pass to
    concatenations. *)
Class Compositional (Q : list event → Prop) : Prop := {
  comp_nil : Q [];
  comp_app : ∀ l1 l2, Q l1 → Q l2 → Q (l1 ++ l2)
}.

Definition hardening_event (e : event) : Prop := is_hardening_event e = true.

(** The steps the hardening loop is made of, each keeping [R]. *)
Record HardeningSteps (R : machine → machine → Prop) : Prop := {
  step_print_zeroing : ∀ start size, keeps R (log (EvPrintZeroing start size));
  step_print_protecting :
    ∀ start stop, keeps R (log (EvPrintWriteProtecting start stop));
  step_memzero : ∀ start size, keeps R (memzero_at start size);
  step_protect : ∀ page, keeps R (ProtectPage page)
}.

Definition is_construction_event (e : event) : bool :=
  match e with
  | EvAllocatePhysical _ | EvMapPages _ _ _ | EvMapPagesInRegion _ _ _ => true
  | _ => false
  end.

Definition is_activation (e : event) : bool :=
  match e with EvWriteCr3 _ => true | _ => false end.

Definition is_unmask (e : event) : bool :=
  match e with EvUnmaskInterrupts => true | _ => false end.

(** Events that neither load the root nor unmask interrupts. *)
Definition quiet_event (e : event) : Prop :=
  is_activation e = false ∧ is_unmask e = false.

Definition construction_event (e : event) : Prop := is_construction_event e = true.

(** Two arenas that the walk cannot tell apart: every entry has the same
    present bit and the same frame in both. *)
Definition same_walk (t t' : gmap Z Z) : Prop :=
  ∀ a, pte_present (entry_at t' a) = pte_present (entry_at t a)
       ∧ pte_frame (entry_at t' a) = pte_frame (entry_at t a).

(** What the hardening loop may do to a state: the pool is left alone,
    a byte of memory is kept or zeroed, and an entry of the arena is kept
    or, if it is present, has its writable bit cleared. *)
Definition hardens (st st' : machine) : Prop :=
  pool st' = pool st
  ∧ (∀ a, mem st' !! a = mem st !! a ∨ mem st' !! a = Some x00)
  ∧ (∀ a, tables st' !! a = tables st !! a
          ∨ (pte_present (entry_at (tables st) a) = true
             ∧ tables st' !! a = Some (Z.clearbit (entry_at (tables st) a) 1))).

(** The entry stored at [pte] has its writable bit clear. *)
Definition write_protected (t : gmap Z Z) (pte : Z) : Prop :=
  ∃ e, t !! pte = Some e ∧ pte_writable e = false.

(** The effect of the loop body on section [s], read against the pool
    and tables [p0], [t0] the pass started from. *)
Definition hardened_section `{L : Layout} (p0 : PagePool) (t0 : gmap Z Z)
    (s : section_header) (st' : machine) : Prop :=
  (is_discardable s = true → ∀ a, a ∈ extent s → mem st' !! a = Some x00)
  ∧ (is_protected s = true →
     ∀ page, page ∈ page_steps (section_start s) (section_end s) →
       ∃ pte, GetPresentPte p0 t0 page = Some pte
              ∧ write_protected (tables st') pte).

(** The events of one turn of the write-protect loop. *)
Definition protect_events (p : PagePool) (t : gmap Z Z) (page : Z) : list event :=
  match GetPresentPte p t page with
  | Some pte => [EvGetPresentPte page; EvClearWritable page pte; EvTlbFlushAddress page]
  | None => [EvGetPresentPte page]
  end.

(** The events of the loop body on section [s], from tables [t]. *)
Definition section_events `{L : Layout} (p : PagePool) (t : gmap Z Z)
    (s : section_header) : list event :=
  if is_discardable s then
    [EvPrintZeroing (section_start s) (VirtualSize s);
     EvMemzero (section_start s) (VirtualSize s)]
  else if is_protected s then
    EvPrintWriteProtecting (section_start s) (section_end s)
    :: flat_map (protect_events p t) (page_steps (section_start s) (section_end s))
  else [].

Definition is_edit (e : event) : bool :=
  match e with EvClearWritable _ _ => true | _ => false end.

Definition is_flush (e : event) : bool :=
  match e with EvTlbFlushAddress _ => true | _ => false end.

(** Edits and flushes go in pairs: each edit is directly followed by the
    flush of its page, and there are no other flushes. *)
Definition flush_discipline (evs : list event) : Prop :=
  flushed_after_edit evs = true
  ∧ length (List.filter is_flush evs) = length (List.filter is_edit evs).

Definition unsigned_machine : machine :=
  mkMachine unsigned_mem example_tables example_pool [].

Definition corrupt_machine : machine :=
  mkMachine corrupt_mem example_tables example_pool [].

(** ** More inputs for the memory-map reader *)

(** A map of no descriptors, with a stride of zero. *)
Definition empty_memory_map : MemoryMap := mkMemoryMap 0x8000 0 0.

(** The first two descriptors of the example map, and the rest of it. *)
Definition example_map_head : MemoryMap := mkMemoryMap 0x8000 96 48.
Definition example_map_tail : MemoryMap := mkMemoryMap 0x8060 48 48.

(** ** More inputs for the image-header check and the section loop *)

(** The bytes of memory [ImageNtHeaders] loads for the image at
    [image_base] in memory [m]. *)
Definition signature_footprint (m : gmap Z byte) (image_base : Z) : list Z :=
  span 2 image_base
  ++ span 4 (wrap64 (image_base + 60))
  ++ span 4 (wrap64 (image_base + read_i32 m (wrap64 (image_base + 60)))).

(** The example image with another machine type, no sections and a
    different byte in every section header. *)
Definition rewritten_mem : gmap Z byte :=
  let kb := example_kernel_base in
  write_le 2 (kb + 0x84) 0xAA64
    (write_le 2 (kb + 0x86) 0
       (fill 120 (kb + 0x188) xff example_mem)).

(** A section of the size and place of the code section of the example
    image, with every flag set but the discardable and the writable
    ones. *)
Definition flagged_section : section_header :=
  mkSection 0x1000 0x3000 0x7DFFFFFF.

(** The example image with its first section, still discardable, moved
    over the NT headers. *)
Definition overlapping_mem : gmap Z byte :=
  write_section (example_kernel_base + 0x188) 0x40 0x80 0x42000040 example_mem.

Definition overlapping_machine : machine :=
  mkMachine overlapping_mem example_tables example_pool [].

(** A layout with the kernel in the last four pages of the address
    space, and a section that is neither discardable nor writable and
    fills the last of them. *)
Definition top_layout : Layout :=
  {| kva_kernel := mkRegion 0xFFFFFFFFFFFFC000 4;
     kva_kernel_pt := mkRegion 0xFFFFFFFF00000000 0x200;
     kva_frame_buffer := mkRegion 0xFFFFFFFE00000000 0x4000;
     kva_devices := mkRegion 0xFFFFFFFD00000000 0x10;
     apic_io := 0xFEC00000;
     apic_local := 0xFEE00000 |}.

Definition top_section : section_header := mkSection 0x1000 0x3000 0x60000020.

(** ** More descriptions of the hardening pass *)

(** The pages the write-protect loop steps on over the sections [secs]. *)
Definition stepped_pages `{L : Layout} (secs : list section_header) : list Z :=
  flat_map
    (λ s, if is_protected s then page_steps (section_start s) (section_end s) else [])
    secs.

(** Their leaf entries, found from pool [p] and tables [t]. *)
Definition stepped_leaves `{L : Layout} (p : PagePool) (t : gmap Z Z)
    (secs : list section_header) : list Z :=
  omap (GetPresentPte p t) (stepped_pages secs).

(** A section that is discardable and not writable at once. *)
Definition scratch_section : section_header := mkSection 0x40 0x1000 0x02000040.

(** A section of no bytes that is neither discardable nor writable. *)
Definition hollow_section : section_header := mkSection 0 0x3000 0x60000020.

(** ** More descriptions of the bring-up sequence *)

Definition is_map_request (e : event) : bool :=
  match e with EvMapPages _ _ _ => true | _ => false end.

Definition map_request (e : event) : Prop := is_map_request e = true.

(** The root of the pool is where it was. *)
Definition same_root (st st' : machine) : Prop := root (pool st') = root (pool st).

(** A memory manager whose mapping operations leave the root of the pool
    where the allocation of the root put it. *)
Definition keeps_root `{MMgr : MemoryManager} : Prop :=
  (∀ p t va pa n p' t', mm_MapPages p t va pa n = Some (p', t') → root p' = root p)
  ∧ (∀ p t region pa n p' t' a,
       mm_MapPagesInRegion p t region pa n = Some (p', t', a) → root p' = root p).

(** The requests of address-space construction that do not come from the
    memory map, in the order of the source. *)
Definition fixed_requests `{L : Layout} (lb : LoaderBlock) (root_page : Z) : list event :=
  [EvAllocatePhysical root_page;
   EvMapPages (base kva_kernel) (physical_base (kernel lb))
     (SizeToPages (size_ (kernel lb)));
   EvMapPages (base kva_kernel_pt) (page_tables_pool lb) (page_tables_pool_count lb);
   EvMapPagesInRegion kva_frame_buffer (frame_buffer (display lb))
     (PageCount kva_frame_buffer);
   EvMapPagesInRegion kva_devices (hpet lb) 1;
   EvMapPagesInRegion kva_devices apic_io 1;
   EvMapPagesInRegion kva_devices apic_local 1].

(** A memory manager that maps the region windows at their base. *)
Definition window_manager : MemoryManager :=
  {| mm_AllocatePhysical := fun p t => Some (p, t, phys_base p);
     mm_MapPages := fun p t _ _ _ => Some (p, t);
     mm_MapPagesInRegion := fun p t region _ _ => Some (p, t, base region) |}.

(** The loader block with the legacy-input flag set to [present]. *)
Definition with_i8042 (lb : LoaderBlock) (present : bool) : LoaderBlock :=
  {| display := display lb;
     madt_header := madt_header lb;
     memory_map := memory_map lb;
     kernel := kernel lb;
     hpet := hpet lb;
     i8042 := present;
     page_tables_pool := page_tables_pool lb;
     page_tables_pool_count := page_tables_pool_count lb |}.

(** The state [st] had the events [pre] come before its trace. *)
Definition shift (pre : list event) (st : machine) : machine :=
  mkMachine (mem st) (tables st) (pool st) (pre ++ trace st).

Definition map_state {A} (f : machine → machine) (r : result A) : result A :=
  match r with
  | Done a st => Done a (f st)
  | Fatal st => Fatal (f st)
  | OutOfFuel st => OutOfFuel (f st)
  end.

(** A computation that never looks at the trace: what came before in the
    trace comes before in the trace of its result, and changes nothing
    else. *)
Definition blind {A} (c : M A) : Prop :=
  ∀ pre st, c (shift pre st) = map_state (shift pre) (c st).

(** ** A map at the end of the address space *)

(** A map of 240 bytes with a stride of 128 that ends 16 bytes below the
    end of the address space: the second stride reaches past it. *)
Definition wrapping_memory_map : MemoryMap :=
  mkMemoryMap 0xFFFFFFFFFFFFFF00 0xF0 0x80.

(** ** The requests of the memory-map pass, as the manager sees them *)

(** The descriptors found at [cursors] that carry the runtime attribute,
    in map order. *)
Definition runtime_descriptors (m : gmap Z byte) (cursors : list Z)
    : list memory_descriptor :=
  List.filter has_runtime_attribute (map (read_memory_descriptor m) cursors).

(** The memory manager asked to map the regions of [ds], first to last,
    each request on the pool and tables the one before handed back:
    the pool and tables reached, the descriptors whose request was
    granted, and whether all were. *)
Fixpoint grant_all `{MMgr : MemoryManager} (ds : list memory_descriptor)
    (p : PagePool) (t : gmap Z Z)
    : PagePool * gmap Z Z * list memory_descriptor * bool :=
  match ds with
  | [] => (p, t, [], true)
  | d :: rest =>
      match mm_MapPages p t (virtual_start d) (physical_start d) (number_of_pages d) with
      | Some (p', t') =>
          let '(p'', t'', granted, all) := grant_all rest p' t' in
          (p'', t'', d :: granted, all)
      | None => (p, t, [], false)
      end
  end.

(** ** A memory manager that builds tables *)

(** Modelled from the spec: the memory manager is missing from the
    sources at hand.  This one follows sections 4.2 and 4.3 of the
    specification and serves to run the model on tables that the
    construction itself lays out; no theorem on the bring-up code depends
    on it.  Pages are handed out from the pool in order, and a mapping
    walks the four levels from the root, takes a page from the pool for
    every table it misses, and writes a present, writable leaf entry. *)
Definition take_page (p : PagePool) : option (PagePool * Z) :=
  if next_free_page p <? page_count p then
    Some (mkPagePool (virt_base p) (phys_base p) (page_count p)
            (next_free_page p + 1) (root p),
          phys_base p + next_free_page p * page_size)
  else None.

Definition table_at (p : PagePool) (t : gmap Z Z) (table va level : Z)
    : option (PagePool * gmap Z Z * Z) :=
  let slot := table + 8 * pt_index va level in
  if pte_present (entry_at t slot) then Some (p, t, pte_frame (entry_at t slot))
  else
    '(p', page) ← take_page p;
    Some (p', <[slot := Z.lor page 3]> t, page).

Definition map_page (p : PagePool) (t : gmap Z Z) (va pa : Z)
    : option (PagePool * gmap Z Z) :=
  '(p1, t1, pdpt) ← table_at p t (root p) va 3;
  '(p2, t2, pd) ← table_at p1 t1 pdpt va 2;
  '(p3, t3, pt) ← table_at p2 t2 pd va 1;
  Some (p3, <[pt + 8 * pt_index va 0 := Z.lor pa 3]> t3).

Fixpoint map_pages (n : nat) (p : PagePool) (t : gmap Z Z) (va pa : Z)
    : option (PagePool * gmap Z Z) :=
  match n with
  | O => Some (p, t)
  | S n' =>
      '(p', t') ← map_page p t va pa;
      map_pages n' p' t' (wrap64 (va + page_size)) (pa + page_size)
  end.

Definition paging_manager : MemoryManager :=
  {| mm_AllocatePhysical :=
       fun p t => '(p', page) ← take_page p; Some (p', t, page);
     mm_MapPages := fun p t va pa n => map_pages (Z.to_nat n) p t va pa;
     mm_MapPagesInRegion :=
       fun p t region pa n =>
         '(p', t') ← map_pages (Z.to_nat n) p t (base region) pa;
         Some (p', t', base region) |}.

(** A pool of 32 pages at 0x10000 whose first page is the root, and a
    machine holding the example memory map and an empty root table. *)
Definition rooted_pool : PagePool := mkPagePool 0xFFFFFFFF00000000 0x10000 32 1 0x10000.

Definition rooted_machine : machine := mkMachine example_map_memory ∅ rooted_pool [].

(** What the manager above makes of the runtime regions of the example
    map, from an empty root table. *)
Definition paged_regions : PagePool * gmap Z Z * list memory_descriptor * bool :=
  grant_all (MMgr := paging_manager)
    (runtime_descriptors example_map_memory [0x8000; 0x8030; 0x8060]) rooted_pool ∅.

Definition paged_pool : PagePool := fst (fst (fst paged_regions)).

Definition paged_tables : gmap Z Z := snd (fst (fst paged_regions)).

(** ** The bring-up sequence, as the manager sees it *)

(** The first events of [OsInitialize]. *)
Definition prologue (lb : LoaderBlock) : list event :=
  [EvGfxInitialize (frame_buffer (display lb)) (frame_buffer_size (display lb));
   EvSerialInitialize;
   EvParseMadt (madt_header lb)].

(** The events from the load of the root to the start of hardening. *)
Definition hardware_events (lb : LoaderBlock) (new_root fb hp : Z) : list event :=
  [EvWriteCr3 new_root; EvSetFrameBufferAddress fb; EvSetUsingApic false;
   EvX64Initialize; EvTimerInitialize hp;
   if i8042 lb then EvPs2Initialize else EvPrintNoPs2].

(** The pool construction starts from: the page-table pages of the
    loader, none handed out, no root yet. *)
Definition fresh_pool `{L : Layout} (lb : LoaderBlock) : PagePool :=
  mkPagePool (base kva_kernel_pt) (page_tables_pool lb) (page_tables_pool_count lb) 0 0.

(** The requests of construction that do not come from the memory map,
    put to the memory manager in the order of the source, each on the
    pool and tables the one before handed back: the pool and tables
    reached, the page of the root, and the addresses the manager handed
    back for the frame-buffer window and for the timer page. *)
Definition fixed_construction `{L : Layout} `{MMgr : MemoryManager}
    (lb : LoaderBlock) (t : gmap Z Z) : option (PagePool * gmap Z Z * Z * Z * Z) :=
  '(p0, t0, page) ← mm_AllocatePhysical (fresh_pool lb) t;
  '(p1, t1) ← mm_MapPages (with_root p0 page) t0 (base kva_kernel)
                 (physical_base (kernel lb)) (SizeToPages (size_ (kernel lb)));
  '(p2, t2) ← mm_MapPages p1 t1 (base kva_kernel_pt) (page_tables_pool lb)
                 (page_tables_pool_count lb);
  '(p3, t3, fb) ← mm_MapPagesInRegion p2 t2 kva_frame_buffer
                     (frame_buffer (display lb)) (PageCount kva_frame_buffer);
  '(p4, t4, hp) ← mm_MapPagesInRegion p3 t3 kva_devices (hpet lb) 1;
  '(p5, t5, _) ← mm_MapPagesInRegion p4 t4 kva_devices apic_io 1;
  '(p6, t6, _) ← mm_MapPagesInRegion p5 t5 kva_devices apic_local 1;
  Some (p6, t6, page, fb, hp).

(** Pool and tables obtained from [p] and [t] by requests to the memory
    manager, and by nothing else. *)
Inductive built_from `{MMgr : MemoryManager} (p : PagePool) (t : gmap Z Z)
    : PagePool → gmap Z Z → Prop :=
| built_here : built_from p t p t
| built_map p1 t1 va pa n p2 t2 :
    built_from p t p1 t1 → mm_MapPages p1 t1 va pa n = Some (p2, t2) →
    built_from p t p2 t2
| built_region p1 t1 region pa n p2 t2 a :
    built_from p t p1 t1 → mm_MapPagesInRegion p1 t1 region pa n = Some (p2, t2, a) →
    built_from p t p2 t2.

(** The same, between two states. *)
Definition builds `{MMgr : MemoryManager} (st st' : machine) : Prop :=
  built_from (pool st) (tables st) (pool st') (tables st').

(** ** Sections that share a page

    The example image with two sections in place of its three: code of
    one page that starts in the middle of the fourth page of the image
    and ends in the middle of the fifth, then writable data in the first
    half of the fourth page. *)
Definition straddling_code : section_header := mkSection 0x1000 0x3800 0x60000020.

Definition straddling_data : section_header := mkSection 0x800 0x3000 0xC0000040.

Definition straddling_mem : gmap Z byte :=
  let kb := example_kernel_base in
  write_section (kb + 0x1B0) 0x800 0x3000 0xC0000040
    (write_section (kb + 0x188) 0x1000 0x3800 0x60000020
       (write_le 2 (kb + 0x86) 2 example_mem)).

Definition straddling_machine : machine :=
  mkMachine straddling_mem example_tables example_pool [].

(** * Properties *)

(** ** Machine integers and memory *)

Lemma wrap64_small z : 0 <= z < 2 ^ 64 → wrap64 z = z.
Proof. intros Hz. unfold wrap64. apply Z.mod_small. exact Hz. Qed.

Lemma wrap64_range z : 0 <= wrap64 z < 2 ^ 64.
Proof. unfold wrap64. apply Z.mod_pos_bound. lia. Qed.

Lemma read_u8_range m a : 0 <= read_u8 m a < 256.
Proof.
  unfold read_u8.
  pose proof (Byte.to_N_bounded (default x00 (m !! a))) as Hb.
  lia.
Qed.

Lemma read_le_range n m a : 0 <= read_le n m a < 256 ^ Z.of_nat n.
Proof.
  revert a. induction n as [|n IH]; intros a.
  - simpl. lia.
  - rewrite Nat2Z.inj_succ, Z.pow_succ_r by lia.
    cbn [read_le].
    pose proof (read_u8_range m a). pose proof (IH (wrap64 (a + 1))). lia.
Qed.

Lemma read_u16_range m a : 0 <= read_u16 m a < 65536.
Proof. apply (read_le_range 2). Qed.

Lemma read_u32_range m a : 0 <= read_u32 m a < 2 ^ 32.
Proof. apply (read_le_range 4). Qed.

(** ** The memory-map reader *)

Lemma descriptor_cursors_succ start stride n :
  descriptor_cursors start stride (S n)
  = start :: descriptor_cursors (start + stride) stride n.
Proof.
  unfold descriptor_cursors. cbn [seq map]. f_equal; [lia|].
  rewrite <- seq_shift, map_map. apply map_ext. intros k. lia.
Qed.

Lemma descriptor_cursors_length start stride n :
  length (descriptor_cursors start stride n) = n.
Proof. unfold descriptor_cursors. rewrite length_map, length_seq. reflexivity. Qed.

Lemma descriptor_cursors_elem start stride n d :
  d ∈ descriptor_cursors start stride n ↔
  ∃ k, 0 <= k < Z.of_nat n ∧ d = start + k * stride.
Proof.
  unfold descriptor_cursors. rewrite list_elem_of_fmap. split.
  - intros (k & -> & Hk). apply elem_of_seq in Hk. exists (Z.of_nat k). split; [lia|reflexivity].
  - intros (k & Hk & ->). exists (Z.to_nat k). split.
    + rewrite Z2Nat.id by lia. reflexivity.
    + apply elem_of_seq. lia.
Qed.

(** The loop of the reader unrolls into one call of the callback per
    cursor, as long as the last cursor stays inside the address space. *)
Lemma IterateFrom_unroll m callback n :
  ∀ fuel desc st,
    0 < m_descriptor_size m →
    0 <= desc →
    desc + Z.of_nat n * m_descriptor_size m < 2 ^ 64 →
    uefi_next_memory_descriptor (m_map m) (m_size m)
      <= desc + Z.of_nat n * m_descriptor_size m →
    (0 < Z.of_nat n →
     desc + (Z.of_nat n - 1) * m_descriptor_size m
       < uefi_next_memory_descriptor (m_map m) (m_size m)) →
    (n <= fuel)%nat →
    IterateFrom fuel m callback desc st
    = for_each callback (descriptor_cursors desc (m_descriptor_size m) n) st.
Proof.
  induction n as [|n IH]; intros fuel desc st Hs Hd Hfit Hend Hlast Hfuel.
  - assert ((desc <? uefi_next_memory_descriptor (m_map m) (m_size m)) = false)
      as Hlt by (apply Z.ltb_ge; lia).
    destruct fuel; cbn [IterateFrom]; rewrite Hlt; reflexivity.
  - destruct fuel as [|fuel]; [lia|].
    rewrite descriptor_cursors_succ. cbn [IterateFrom for_each].
    assert ((desc <? uefi_next_memory_descriptor (m_map m) (m_size m)) = true)
      as Hlt by (apply Z.ltb_lt; nia).
    rewrite Hlt.
    assert (uefi_next_memory_descriptor desc (m_descriptor_size m)
            = desc + m_descriptor_size m) as Hnext.
    { unfold uefi_next_memory_descriptor. apply wrap64_small. nia. }
    rewrite Hnext. unfold bind.
    destruct (callback desc st) as [[] st'| |]; [|reflexivity..].
    apply IH; try lia; try nia.
Qed.

Lemma strides_covering_spec size stride :
  0 <= size → 0 < stride →
  let n := Z.of_nat (strides_covering size stride) in
  size <= n * stride ∧ (0 < n → (n - 1) * stride < size).
Proof.
  intros Hsize Hstride. unfold strides_covering.
  pose proof (Z.div_mod (size + stride - 1) stride ltac:(lia)) as Hdm.
  pose proof (Z.mod_pos_bound (size + stride - 1) stride Hstride) as Hr.
  assert (0 <= (size + stride - 1) / stride) as Hq
    by (apply Z.div_pos; lia).
  cbn zeta. rewrite Z2Nat.id by exact Hq. nia.
Qed.

Lemma strides_covering_exact size stride :
  0 <= size → 0 < stride → size mod stride = 0 →
  Z.of_nat (strides_covering size stride) = size / stride.
Proof.
  intros Hsize Hstride Hmod.
  pose proof (strides_covering_spec size stride Hsize Hstride) as [H1 H2].
  pose proof (Z.div_mod size stride ltac:(lia)) as Hdm.
  cbn zeta in *. nia.
Qed.

Lemma IterateMemoryDescriptors_unroll m callback fuel st :
  0 <= m_map m → 0 <= m_size m → 0 < m_descriptor_size m →
  m_map m + m_size m < 2 ^ 64 →
  let n := strides_covering (m_size m) (m_descriptor_size m) in
  m_map m + Z.of_nat n * m_descriptor_size m < 2 ^ 64 →
  (n <= fuel)%nat →
  IterateMemoryDescriptors fuel m callback st
  = for_each callback (descriptor_cursors (m_map m) (m_descriptor_size m) n) st.
Proof.
  intros Hmap Hsize Hstride Hfit n Hlast Hfuel.
  pose proof (strides_covering_spec _ _ Hsize Hstride) as [H1 H2].
  fold n in H1, H2. cbn zeta in H1, H2.
  assert (uefi_next_memory_descriptor (m_map m) (m_size m) = m_map m + m_size m)
    as Hstop by (apply wrap64_small; lia).
  unfold IterateMemoryDescriptors.
  apply IterateFrom_unroll; rewrite ?Hstop; try lia.
Qed.

(** With a stride of zero the cursor never moves: a loop that is entered
    cannot finish. *)
Lemma IterateFrom_stuck m callback fuel desc st :
  m_descriptor_size m = 0 → 0 <= desc →
  desc < uefi_next_memory_descriptor (m_map m) (m_size m) →
  is_done (IterateFrom fuel m callback desc st) = false.
Proof.
  intros Hs Hd Hlt. revert st. induction fuel as [|fuel IH]; intros st.
  - cbn [IterateFrom]. apply Z.ltb_lt in Hlt. rewrite Hlt. reflexivity.
  - cbn [IterateFrom]. pose proof Hlt as Hlt'. apply Z.ltb_lt in Hlt'. rewrite Hlt'.
    assert (uefi_next_memory_descriptor desc (m_descriptor_size m) = desc) as ->.
    { unfold uefi_next_memory_descriptor. rewrite Hs, Z.add_0_r.
      apply wrap64_small. pose proof (wrap64_range (m_map m + m_size m)).
      unfold uefi_next_memory_descriptor in Hlt. lia. }
    unfold bind. destruct (callback desc st) as [[] st'| |]; try reflexivity.
    apply IH.
Qed.

Lemma for_each_done {X} (f : X → M unit) l :
  (∀ x st, is_done (f x st) = true) → ∀ st, is_done (for_each f l st) = true.
Proof.
  intros Hf. induction l as [|x l IH]; intros st.
  - reflexivity.
  - cbn [for_each]. unfold bind. specialize (Hf x st).
    destruct (f x st) as [[] st'| |]; try discriminate. apply IH.
Qed.

Lemma descriptor_cursors_lookup start stride n i d :
  descriptor_cursors start stride n !! i = Some d →
  d = start + Z.of_nat i * stride ∧ (i < n)%nat.
Proof.
  unfold descriptor_cursors. intros Hd.
  apply list_lookup_fmap_Some in Hd as (k & -> & Hk).
  apply lookup_seq in Hk as [-> Hlt]. split; [reflexivity|exact Hlt].
Qed.

(** C3 (amended): over a map that lies inside the address space, also
    when its size is rounded up to a whole number of strides, and whose
    stride is at least the size of a descriptor, the reader calls the
    callback once per cursor [map + k * stride], for the smallest number
    of strides that covers [size]; every descriptor visited starts inside
    the buffer.  When [size] is a whole multiple of the stride that
    number is [size / stride] and no descriptor visited reaches past the
    end of the buffer. *)
Theorem iteration_follows_declared_stride m callback fuel st :
  0 <= m_map m → 0 <= m_size m →
  sizeof_memory_descriptor <= m_descriptor_size m →
  m_map m + m_size m < 2 ^ 64 →
  let n := strides_covering (m_size m) (m_descriptor_size m) in
  let cursors := descriptor_cursors (m_map m) (m_descriptor_size m) n in
  m_map m + Z.of_nat n * m_descriptor_size m < 2 ^ 64 →
  (n <= fuel)%nat →
  IterateMemoryDescriptors fuel m callback st = for_each callback cursors st
  ∧ (∀ d, d ∈ cursors → m_map m <= d < m_map m + m_size m)
  ∧ (m_size m mod m_descriptor_size m = 0 →
     Z.of_nat (length cursors) = m_size m / m_descriptor_size m
     ∧ ∀ d, d ∈ cursors → d + sizeof_memory_descriptor <= m_map m + m_size m).
Proof.
  intros Hmap Hsize Hmin Hfit n cursors Hlast Hfuel.
  unfold sizeof_memory_descriptor in *.
  assert (0 < m_descriptor_size m) as Hstride by lia.
  pose proof (strides_covering_spec _ _ Hsize Hstride) as [Hcover Htight].
  fold n in Hcover, Htight. cbn zeta in Hcover, Htight.
  split; [|split].
  - apply IterateMemoryDescriptors_unroll; assumption.
  - intros d Hd. apply descriptor_cursors_elem in Hd as (k & Hk & ->). nia.
  - intros Hmod.
    pose proof (strides_covering_exact _ _ Hsize Hstride Hmod) as Hn. fold n in Hn.
    split.
    + unfold cursors. rewrite descriptor_cursors_length. exact Hn.
    + intros d Hd. apply descriptor_cursors_elem in Hd as (k & Hk & ->).
      pose proof (Z.div_mod (m_size m) (m_descriptor_size m) ltac:(lia)) as Hdm.
      rewrite Hmod, <- Hn in Hdm.
      assert ((k + 1) * m_descriptor_size m <= Z.of_nat n * m_descriptor_size m)
        by (apply Z.mul_le_mono_nonneg_r; lia).
      lia.
Qed.

Lemma iteration_follows_declared_stride_witness :
  IterateMemoryDescriptors 3 example_memory_map RecordDescriptor blank_machine
  = for_each RecordDescriptor [0x8000; 0x8030; 0x8060] blank_machine
  ∧ 144 / 48 = 3.
Proof.
  split; [|reflexivity].
  apply (iteration_follows_declared_stride example_memory_map RecordDescriptor
           3 blank_machine); simpl; unfold sizeof_memory_descriptor; try lia.
  - vm_compute. reflexivity.
  - vm_compute. lia.
Defined.

(** When the strides from the start of the map step over the end of the
    map and past the end of the address space, the cursor comes back to
    low addresses, which are all below the end of the map: a loop whose
    cursors all lie below the end never finishes. *)
Lemma IterateFrom_wraps m callback :
  let stride := m_descriptor_size m in
  let stop := uefi_next_memory_descriptor (m_map m) (m_size m) in
  0 < stride → (stride | 2 ^ 64) →
  2 ^ 64 - stride + m_map m mod stride < stop →
  ∀ fuel desc st,
    0 <= desc < 2 ^ 64 → desc mod stride = m_map m mod stride →
    is_done (IterateFrom fuel m callback desc st) = false.
Proof.
  intros stride stop Hstride Hdiv Hlast.
  induction fuel as [|fuel IH]; intros desc st Hdesc Hmod.
  - cbn [IterateFrom]. fold stop.
    replace (desc <? stop) with true; [reflexivity|].
    symmetry. apply Z.ltb_lt.
    destruct Hdiv as [k Hk].
    pose proof (Z.div_mod desc stride ltac:(lia)) as Hdm.
    pose proof (Z.mod_pos_bound desc stride Hstride) as Hr.
    assert (desc / stride < k) by nia. nia.
  - cbn [IterateFrom]. fold stop.
    assert (desc < stop) as Hlt.
    { destruct Hdiv as [k Hk].
      pose proof (Z.div_mod desc stride ltac:(lia)) as Hdm.
      pose proof (Z.mod_pos_bound desc stride Hstride) as Hr.
      assert (desc / stride < k) by nia. nia. }
    apply Z.ltb_lt in Hlt. rewrite Hlt. unfold bind.
    destruct (callback desc st) as [[] st1| |]; try reflexivity.
    apply IH.
    + apply wrap64_range.
    + unfold uefi_next_memory_descriptor, wrap64. fold stride.
      rewrite Z.mod_mod_divide by exact Hdiv.
      rewrite <- Z.add_mod_idemp_r, Z.mod_same, Z.add_0_r by lia. exact Hmod.
Qed.

(** C3, as stated, fails on a map of 100 bytes with a stride of 48: three
    descriptors are visited although 100 / 48 = 2, and the third one
    reaches past the end of the buffer.  The amended statement needs the
    buffer, with its size rounded up to whole strides, to end inside the
    address space: on a map of 240 bytes with a stride of 128 that ends
    16 bytes below the end of the address space two strides cover the
    size, but the second one steps past that end, the cursor comes back
    to address 0, and the reader goes on visiting descriptors outside the
    buffer, whatever the fuel. *)
Lemma ragged_map_counterexample :
  (sizeof_memory_descriptor <= m_descriptor_size ragged_memory_map
   ∧ IterateMemoryDescriptors 8 ragged_memory_map RecordDescriptor blank_machine
     = Done tt (emit [EvDescriptor 0x8000; EvDescriptor 0x8030; EvDescriptor 0x8060]
                  blank_machine)
   ∧ m_size ragged_memory_map / m_descriptor_size ragged_memory_map = 2
   ∧ m_map ragged_memory_map + m_size ragged_memory_map
     < 0x8060 + sizeof_memory_descriptor)
  ∧ (sizeof_memory_descriptor <= m_descriptor_size wrapping_memory_map
     ∧ 0 <= m_map wrapping_memory_map
     ∧ m_map wrapping_memory_map + m_size wrapping_memory_map < 2 ^ 64
     ∧ strides_covering (m_size wrapping_memory_map)
         (m_descriptor_size wrapping_memory_map) = 2%nat
     ∧ IterateMemoryDescriptors 3 wrapping_memory_map RecordDescriptor blank_machine
       = OutOfFuel (emit [EvDescriptor 0xFFFFFFFFFFFFFF00;
                          EvDescriptor 0xFFFFFFFFFFFFFF80;
                          EvDescriptor 0] blank_machine)
     ∧ ∀ fuel,
         is_done (IterateMemoryDescriptors fuel wrapping_memory_map RecordDescriptor
                    blank_machine) = false).
Proof.
  split.
  - split; [vm_compute; discriminate|].
    split; [vm_compute; reflexivity|].
    split; [reflexivity|vm_compute; reflexivity].
  - split; [vm_compute; discriminate|].
    split; [vm_compute; discriminate|].
    split; [reflexivity|].
    split; [vm_compute; reflexivity|].
    split; [vm_compute; reflexivity|].
    intros fuel. unfold IterateMemoryDescriptors.
    apply IterateFrom_wraps.
    + reflexivity.
    + exists (2 ^ 57). reflexivity.
    + vm_compute. reflexivity.
    + vm_compute. split; [discriminate|reflexivity].
    + reflexivity.
Qed.

(** C10 (amended): over a map that lies inside the address space, also
    when its size is rounded up to a whole number of strides, with a
    positive stride the loop ends after one call per cursor, the cursors
    growing by the stride and staying below the end of the map; with a
    stride of zero a loop that is entered (the map is not empty) never
    ends, whatever the fuel; so a stride under which the loop ends on
    every map inside the address space is positive. *)
Theorem iteration_terminates_iff_stride_positive m callback st :
  0 <= m_map m → 0 <= m_size m → 0 <= m_descriptor_size m →
  m_map m + m_size m < 2 ^ 64 →
  let n := strides_covering (m_size m) (m_descriptor_size m) in
  let cursors := descriptor_cursors (m_map m) (m_descriptor_size m) n in
  (0 < m_descriptor_size m →
   m_map m + Z.of_nat n * m_descriptor_size m < 2 ^ 64 →
   (∀ fuel, (n <= fuel)%nat →
      IterateMemoryDescriptors fuel m callback st = for_each callback cursors st
      ∧ ((∀ d st', is_done (callback d st') = true) →
         is_done (IterateMemoryDescriptors fuel m callback st) = true))
   ∧ (∀ i d d', cursors !! i = Some d → cursors !! S i = Some d' →
        d' = d + m_descriptor_size m ∧ d < d')
   ∧ (∀ d, d ∈ cursors → d < m_map m + m_size m))
  ∧ (m_descriptor_size m = 0 → 0 < m_size m →
     ∀ fuel, is_done (IterateMemoryDescriptors fuel m callback st) = false)
  ∧ ((∀ start size, 0 <= start → 0 <= size → start + size < 2 ^ 64 →
        ∃ fuel,
          is_done (IterateMemoryDescriptors fuel
                     (mkMemoryMap start size (m_descriptor_size m)) callback st)
          = true) →
     0 < m_descriptor_size m).
Proof.
  intros Hmap Hsize Hstride0 Hfit n cursors. split; [|split].
  - intros Hstride Hlast.
    pose proof (strides_covering_spec _ _ Hsize Hstride) as [Hcover Htight].
    fold n in Hcover, Htight. cbn zeta in Hcover, Htight.
    split; [|split].
    + intros fuel Hfuel.
      assert (IterateMemoryDescriptors fuel m callback st
              = for_each callback cursors st) as Heq
        by (apply IterateMemoryDescriptors_unroll; assumption).
      split; [exact Heq|].
      intros Hcb. rewrite Heq. apply for_each_done. exact Hcb.
    + intros i d d' Hd Hd'.
      apply descriptor_cursors_lookup in Hd as [-> _].
      apply descriptor_cursors_lookup in Hd' as [-> _]. lia.
    + intros d Hd. apply descriptor_cursors_elem in Hd as (k & Hk & ->). nia.
  - intros Hzero Hpos fuel. unfold IterateMemoryDescriptors.
    apply IterateFrom_stuck; [exact Hzero|exact Hmap|].
    unfold uefi_next_memory_descriptor. rewrite wrap64_small by lia. lia.
  - intros Htotal.
    destruct (Z.eq_dec (m_descriptor_size m) 0) as [Hzero|Hne]; [|lia].
    exfalso. destruct (Htotal 0 1) as [fuel Hdone]; try lia.
    unfold IterateMemoryDescriptors in Hdone.
    rewrite IterateFrom_stuck in Hdone; [discriminate|exact Hzero|simpl; lia|].
    reflexivity.
Qed.

Lemma iteration_terminates_iff_stride_positive_witness :
  is_done (IterateMemoryDescriptors 3 example_memory_map RecordDescriptor
             blank_machine) = true
  ∧ ∀ fuel,
      is_done (IterateMemoryDescriptors fuel (mkMemoryMap 0x8000 144 0)
                 RecordDescriptor blank_machine) = false.
Proof.
  split.
  - destruct (iteration_terminates_iff_stride_positive example_memory_map
                RecordDescriptor blank_machine) as [Hpos _]; [simpl; lia..|].
    destruct Hpos as [Hrun _]; [simpl; lia|vm_compute; reflexivity|].
    destruct (Hrun 3%nat) as [_ Hdone]; [vm_compute; lia|].
    apply Hdone. intros d st'. reflexivity.
  - intros fuel.
    destruct (iteration_terminates_iff_stride_positive (mkMemoryMap 0x8000 144 0)
                RecordDescriptor blank_machine) as [_ [Hzero _]]; [simpl; lia..|].
    apply Hzero; simpl; lia.
Defined.

(** C10, as stated, fails on a map inside the address space whose stride
    is positive: the strides of the map at 0xFFFFFFFFFFFFFF00 step past
    the end of the address space, the cursor wraps to address 0, and the
    loop never ends, whatever the fuel.  And a stride of zero does not
    keep the loop from ending when the map is empty: the loop is not
    entered. *)
Lemma wrapping_map_counterexample :
  (0 < m_descriptor_size wrapping_memory_map
   ∧ 0 <= m_map wrapping_memory_map
   ∧ m_map wrapping_memory_map + m_size wrapping_memory_map < 2 ^ 64
   ∧ (∀ fuel,
        is_done (IterateMemoryDescriptors fuel wrapping_memory_map RecordDescriptor
                   blank_machine) = false)
   ∧ IterateMemoryDescriptors 3 wrapping_memory_map RecordDescriptor blank_machine
     = OutOfFuel (emit [EvDescriptor 0xFFFFFFFFFFFFFF00;
                        EvDescriptor 0xFFFFFFFFFFFFFF80;
                        EvDescriptor 0] blank_machine))
  ∧ (m_descriptor_size empty_memory_map = 0
     ∧ IterateMemoryDescriptors 0 empty_memory_map RecordDescriptor blank_machine
       = Done tt blank_machine).
Proof.
  split.
  - split; [reflexivity|]. split; [vm_compute; discriminate|].
    split; [reflexivity|]. split.
    + intros fuel. unfold IterateMemoryDescriptors.
      apply IterateFrom_wraps.
      * reflexivity.
      * exists (2 ^ 57). reflexivity.
      * vm_compute. reflexivity.
      * vm_compute. split; [discriminate|reflexivity].
      * reflexivity.
    + vm_compute. reflexivity.
  - split; reflexivity.
Qed.

(** ** The memory-map pass of address-space construction *)

Section MemoryMapPass.
Context {MMgr : MemoryManager}.

(** C9 (amended): nothing checks the stride against the size of a
    descriptor; with a positive stride below that size the pass still
    runs the callback at every cursor [map + k * stride]. *)
Theorem narrow_stride_is_iterated fuel m st :
  0 <= m_map m → 0 <= m_size m →
  0 < m_descriptor_size m < sizeof_memory_descriptor →
  m_map m + m_size m < 2 ^ 64 →
  let n := strides_covering (m_size m) (m_descriptor_size m) in
  m_map m + Z.of_nat n * m_descriptor_size m < 2 ^ 64 →
  (n <= fuel)%nat →
  MapRuntimeRegions fuel m st
  = for_each MapRuntimeDescriptor
      (descriptor_cursors (m_map m) (m_descriptor_size m) n) st.
Proof.
  intros Hmap Hsize [Hstride _] Hfit n Hlast Hfuel.
  unfold MapRuntimeRegions.
  apply IterateMemoryDescriptors_unroll; assumption.
Qed.
End MemoryMapPass.

(** ** The state the memory-map pass leaves *)

Section GrantAll.
Context {MMgr : MemoryManager}.

Lemma grant_all_prefix ds :
  ∀ p t p' t' granted all,
    grant_all ds p t = (p', t', granted, all) →
    granted `prefix_of` ds ∧ (all = true → granted = ds).
Proof.
  induction ds as [|d ds IH]; intros p t p' t' granted all Hg; cbn [grant_all] in Hg.
  - injection Hg as <- <- <- <-. split; [reflexivity|auto].
  - destruct (mm_MapPages p t (virtual_start d) (physical_start d) (number_of_pages d))
      as [[p1 t1]|].
    + destruct (grant_all ds p1 t1) as [[[p2 t2] g] ok] eqn:Hrest.
      injection Hg as <- <- <- <-.
      destruct (IH _ _ _ _ _ _ Hrest) as [Hpre Hall]. split.
      * apply prefix_cons. exact Hpre.
      * intros Hok. f_equal. apply Hall. exact Hok.
    + injection Hg as <- <- <- <-. split; [apply prefix_nil|discriminate].
Qed.

Lemma grant_all_granted ds :
  (∀ p t va pa k, is_Some (mm_MapPages p t va pa k)) →
  ∀ p t p' t' granted all,
    grant_all ds p t = (p', t', granted, all) → all = true.
Proof.
  intros Hgrant.
  induction ds as [|d ds IH]; intros p t p' t' granted all Hg; cbn [grant_all] in Hg.
  - injection Hg as <- <- <- <-. reflexivity.
  - destruct (Hgrant p t (virtual_start d) (physical_start d) (number_of_pages d))
      as [[p1 t1] Hsome]. rewrite Hsome in Hg.
    destruct (grant_all ds p1 t1) as [[[p2 t2] g] ok] eqn:Hrest.
    injection Hg as <- <- <- <-. eapply IH. exact Hrest.
Qed.

(** The callback run over a list of cursors is the manager run over the
    runtime descriptors found there: the pass ends in the pool and tables
    the manager reached, with one event per request granted and memory
    untouched; it halts at the first request the manager turns down. *)
Lemma MapRuntimeDescriptor_grants cursors :
  ∀ st p t granted all,
    grant_all (runtime_descriptors (mem st) cursors) (pool st) (tables st)
    = (p, t, granted, all) →
    for_each MapRuntimeDescriptor cursors st
    = (if all then Done tt else Fatal)
        (mkMachine (mem st) t p (trace st ++ map runtime_mapping granted)).
Proof.
  induction cursors as [|desc cursors IH]; intros st p t granted all Hg.
  - cbn in Hg. injection Hg as <- <- <- <-. cbn. rewrite app_nil_r.
    destruct st; reflexivity.
  - unfold runtime_descriptors in Hg. cbn [map List.filter] in Hg.
    fold (runtime_descriptors (mem st) cursors) in Hg.
    cbn [for_each]. unfold bind, MapRuntimeDescriptor.
    destruct (has_runtime_attribute (read_memory_descriptor (mem st) desc)).
    + cbn [grant_all] in Hg. unfold MapPages.
      destruct (mm_MapPages (pool st) (tables st) _ _ _) as [[p1 t1]|].
      * destruct (grant_all (runtime_descriptors (mem st) cursors) p1 t1)
          as [[[p2 t2] g] ok] eqn:Hrest.
        injection Hg as <- <- <- <-.
        rewrite (IH _ p2 t2 g ok) by exact Hrest.
        cbn [mem trace map]. rewrite <- app_assoc. reflexivity.
      * injection Hg as <- <- <- <-. cbn. rewrite app_nil_r.
        destruct st; reflexivity.
    + apply IH. exact Hg.
Qed.
End GrantAll.

Section MemoryMapState.
Context {MMgr : MemoryManager}.

(** C5: over a map that lies inside the address space the memory-map
    pass is the memory manager run over the descriptors that carry the
    runtime attribute, in map order and whatever their type, each with
    the virtual start, physical start and page count it declares, every
    request on the pool and tables the request before handed back.  The
    pass ends in the pool and tables so reached, with one request per
    such descriptor and none for any other, and with memory untouched; it
    halts at the first request the manager turns down, and never for lack
    of fuel. *)
Theorem runtime_regions_are_mapped fuel m st :
  0 <= m_map m → 0 <= m_size m → 0 < m_descriptor_size m →
  m_map m + m_size m < 2 ^ 64 →
  let n := strides_covering (m_size m) (m_descriptor_size m) in
  let cursors := descriptor_cursors (m_map m) (m_descriptor_size m) n in
  let descs := map (read_memory_descriptor (mem st)) cursors in
  let wanted := runtime_descriptors (mem st) cursors in
  let r := MapRuntimeRegions fuel m st in
  m_map m + Z.of_nat n * m_descriptor_size m < 2 ^ 64 →
  (n <= fuel)%nat →
  ∃ p t granted all,
    grant_all wanted (pool st) (tables st) = (p, t, granted, all)
    ∧ r = (if all then Done tt else Fatal)
            (mkMachine (mem st) t p (trace st ++ map runtime_mapping granted))
    ∧ granted `prefix_of` wanted
    ∧ (all = true → granted = wanted)
    ∧ ((∀ p t va pa k, is_Some (mm_MapPages p t va pa k)) → all = true)
    ∧ (∀ d, d ∈ wanted ↔ d ∈ descs ∧ has_runtime_attribute d = true)
    ∧ (∀ st', r ≠ OutOfFuel st')
    ∧ (is_done r = true ↔ all = true)
    ∧ (∀ va pa k, EvMapPages va pa k ∈ map runtime_mapping granted →
         ∃ d, d ∈ descs ∧ has_runtime_attribute d = true
              ∧ va = virtual_start d ∧ pa = physical_start d
              ∧ k = number_of_pages d)
    ∧ (is_done r = true →
       ∀ d, d ∈ descs → has_runtime_attribute d = true →
            EvMapPages (virtual_start d) (physical_start d) (number_of_pages d)
              ∈ map runtime_mapping granted).
Proof.
  intros Hmap Hsize Hstride Hfit n cursors descs wanted r Hlast Hfuel.
  assert (r = for_each MapRuntimeDescriptor cursors st) as Hr.
  { subst r. unfold MapRuntimeRegions.
    apply IterateMemoryDescriptors_unroll; assumption. }
  destruct (grant_all wanted (pool st) (tables st)) as [[[p t] granted] all] eqn:Hg.
  pose proof (MapRuntimeDescriptor_grants cursors st p t granted all Hg) as Hrun.
  rewrite <- Hr in Hrun.
  destruct (grant_all_prefix _ _ _ _ _ _ _ Hg) as [Hpre Hall].
  assert (∀ d, d ∈ wanted ↔ d ∈ descs ∧ has_runtime_attribute d = true) as Hwanted.
  { intros d. unfold wanted, runtime_descriptors. fold descs.
    rewrite !list_elem_of_In. apply filter_In. }
  assert (is_done r = true ↔ all = true) as Hdone.
  { rewrite Hrun. destruct all; cbn; split; congruence. }
  exists p, t, granted, all.
  split; [reflexivity|]. split; [exact Hrun|]. split; [exact Hpre|].
  split; [exact Hall|]. split; [intros Hgrant; eapply grant_all_granted; eauto|].
  split; [exact Hwanted|]. split; [|split; [exact Hdone|split]].
  - intros st'. rewrite Hrun. destruct all; discriminate.
  - intros va pa k Hin. apply list_elem_of_fmap in Hin as (d & Heq & Hd).
    injection Heq as -> -> ->.
    assert (d ∈ wanted) as Hw by (destruct Hpre as [rest ->]; apply elem_of_app; auto).
    apply Hwanted in Hw as [Hdesc Hrt]. eauto 10.
  - intros Hd d Hin Hrt. apply Hdone in Hd. rewrite (Hall Hd).
    apply list_elem_of_fmap. exists d. split; [reflexivity|].
    apply Hwanted. auto.
Qed.
End MemoryMapState.

Lemma runtime_regions_are_mapped_witness :
  MapRuntimeRegions (MMgr := paging_manager) 3 example_memory_map rooted_machine
  = Done tt (mkMachine example_map_memory paged_tables paged_pool
               [EvMapPages 0x7F000000 0x7F000000 0x10;
                EvMapPages 0xFED00000 0xFED00000 1])
  ∧ GetPresentPte paged_pool paged_tables 0x7F00F123 = Some 0x13078
  ∧ pte_frame (entry_at paged_tables 0x13078) = 0x7F00F000
  ∧ GetPresentPte paged_pool paged_tables 0xFED00000 = Some 0x15800
  ∧ pte_frame (entry_at paged_tables 0x15800) = 0xFED00000
  ∧ GetPresentPte paged_pool paged_tables 0x100000 = None
  ∧ GetPresentPte paged_pool paged_tables 0x7F010000 = None.
Proof.
  split.
  - destruct (runtime_regions_are_mapped (MMgr := paging_manager) 3
                example_memory_map rooted_machine)
      as (p & t & granted & all & Hg & Hrun & _).
    + vm_compute. discriminate.
    + vm_compute. discriminate.
    + vm_compute. reflexivity.
    + vm_compute. reflexivity.
    + vm_compute. reflexivity.
    + vm_compute. lia.
    + change (paged_regions = (p, t, granted, all)) in Hg.
      assert (all = true) as ->
        by (change all with (snd (p, t, granted, all)); rewrite <- Hg;
            vm_compute; reflexivity).
      assert (granted
              = [mkDescriptor 5 0x7F000000 0x7F000000 0x10 0x800000000000000F;
                 mkDescriptor 11 0xFED00000 0xFED00000 1 0x8000000000000001]) as ->
        by (change granted with (snd (fst (p, t, granted, true))); rewrite <- Hg;
            vm_compute; reflexivity).
      assert (p = paged_pool) as -> by (unfold paged_pool; rewrite Hg; reflexivity).
      assert (t = paged_tables) as -> by (unfold paged_tables; rewrite Hg; reflexivity).
      exact Hrun.
  - split; [vm_compute; reflexivity|].
    split; [vm_compute; reflexivity|].
    split; [vm_compute; reflexivity|].
    split; [vm_compute; reflexivity|].
    split; vm_compute; reflexivity.
Defined.

Lemma narrow_stride_is_iterated_witness :
  MapRuntimeRegions (MMgr := accepting_manager) 2 narrow_memory_map map_machine
  = for_each (MapRuntimeDescriptor (MMgr := accepting_manager))
      [0x8000; 0x8008] map_machine.
Proof.
  apply (narrow_stride_is_iterated (MMgr := accepting_manager) 2
           narrow_memory_map map_machine).
  - vm_compute. discriminate.
  - vm_compute. discriminate.
  - split; vm_compute; reflexivity.
  - vm_compute. reflexivity.
  - vm_compute. reflexivity.
  - vm_compute. lia.
Defined.

(** C9, as stated, fails: handed a map whose stride (8) is smaller than a
    descriptor (40), the reader visits a descriptor every 8 bytes, and
    the bring-up sequence goes on all the way to idle. *)
Lemma narrow_stride_counterexample :
  m_descriptor_size narrow_memory_map < sizeof_memory_descriptor
  ∧ IterateMemoryDescriptors 4 narrow_memory_map RecordDescriptor blank_machine
    = Done tt (emit [EvDescriptor 0x8000; EvDescriptor 0x8008] blank_machine)
  ∧ is_done (OsInitialize (L := example_layout) (MMgr := accepting_manager) 4
               narrow_loader_block example_machine) = true
  ∧ In (EvWriteCr3 0x10000)
      (trace (final_state
                (OsInitialize (L := example_layout) (MMgr := accepting_manager) 4
                   narrow_loader_block example_machine)))
  ∧ In EvIdle
      (trace (final_state
                (OsInitialize (L := example_layout) (MMgr := accepting_manager) 4
                   narrow_loader_block example_machine))).
Proof.
  split; [vm_compute; reflexivity|].
  split; [vm_compute; reflexivity|].
  split; [vm_compute; reflexivity|].
  split; vm_compute; tauto.
Qed.

(** ** Relations kept by the loops *)

#[export] Instance Forall_compositional (P : event → Prop) : Compositional (Forall P).
Proof. split; [constructor|]. intros l1 l2 H1 H2. apply Forall_app. auto. Qed.

#[export] Instance extends_preorder Q `{!Compositional Q} : PreOrder (extends Q).
Proof.
  split.
  - intros st. exists []. rewrite app_nil_r. split; [reflexivity|apply comp_nil].
  - intros s1 s2 s3 (e1 & H1 & Q1) (e2 & H2 & Q2). exists (e1 ++ e2).
    rewrite H2, H1, app_assoc. split; [reflexivity|apply comp_app; assumption].
Qed.

Section Keeps.
Context (R : machine → machine → Prop) `{!PreOrder R}.

Lemma keeps_ret {A} (a : A) : keeps R (ret a).
Proof. intros st. simpl. reflexivity. Qed.

Lemma keeps_bind {A B} (m : M A) (k : A → M B) :
  keeps R m → (∀ a, keeps R (k a)) → keeps R (bind m k).
Proof.
  intros Hm Hk st. specialize (Hm st). unfold bind.
  destruct (m st) as [a st'| |]; simpl in *; try assumption.
  etransitivity; [exact Hm|apply Hk].
Qed.

Lemma keeps_IterateFrom m callback :
  (∀ d, keeps R (callback d)) →
  ∀ fuel desc, keeps R (IterateFrom fuel m callback desc).
Proof.
  intros Hcb. induction fuel as [|fuel IH]; intros desc st; cbn [IterateFrom];
    destruct (desc <? _); try (simpl; reflexivity).
  apply keeps_bind; auto.
Qed.

Lemma keeps_for_each {X} (f : X → M unit) l :
  (∀ x, keeps R (f x)) → keeps R (for_each f l).
Proof.
  intros Hf. induction l as [|x l IH]; cbn [for_each].
  - apply keeps_ret.
  - apply keeps_bind; auto.
Qed.

Context (steps : HardeningSteps R).

Lemma keeps_WriteProtectLoop stop :
  ∀ fuel page, keeps R (WriteProtectLoop fuel page stop).
Proof.
  induction fuel as [|fuel IH]; intros page st; cbn [WriteProtectLoop];
    destruct (page <? stop); try (simpl; reflexivity).
  apply keeps_bind; [apply steps|auto].
Qed.

Lemma keeps_HardenSection `{L : Layout} fuel s : keeps R (HardenSection fuel s).
Proof.
  unfold HardenSection. destruct (is_discardable s).
  - apply keeps_bind; [apply steps|]. intros _. apply steps.
  - destruct (negb (is_writable s)).
    + apply keeps_bind; [apply steps|]. intros _. apply keeps_WriteProtectLoop.
    + apply keeps_ret.
Qed.

Lemma keeps_SectionLoop `{L : Layout} fuel nt :
  ∀ k i section, keeps R (SectionLoop fuel k nt i section).
Proof.
  induction k as [|k IH]; intros i section st; cbn [SectionLoop];
    destruct (i <? _); try (simpl; reflexivity).
  apply keeps_bind; [apply keeps_HardenSection|auto].
Qed.

Lemma keeps_HardenImage `{L : Layout} fuel : keeps R (HardenImage fuel).
Proof. intros st. unfold HardenImage. apply keeps_SectionLoop. Qed.
End Keeps.

(** ** What a computation adds to the trace *)

Lemma extends_emit (Q : list event → Prop) evs st : Q evs → extends Q st (emit evs st).
Proof. intros HQ. exists evs. auto. Qed.

Lemma emits_ret {A} P (a : A) : emits P (ret a).
Proof. apply keeps_ret. apply _. Qed.

Lemma emits_log (P : event → Prop) e : P e → emits P (log e).
Proof. intros HP st. apply extends_emit. auto. Qed.

Lemma emits_bind {A B} P (m : M A) (k : A → M B) :
  emits P m → (∀ a, emits P (k a)) → emits P (bind m k).
Proof. apply keeps_bind. apply _. Qed.

Lemma emits_IterateFrom P m callback :
  (∀ d, emits P (callback d)) →
  ∀ fuel desc, emits P (IterateFrom fuel m callback desc).
Proof. apply keeps_IterateFrom. apply _. Qed.

Create HintDb emits discriminated.
#[export] Hint Resolve emits_ret emits_log emits_bind emits_IterateFrom : emits.

(** Every step of the hardening loop extends the trace by the events of
    that step. *)
Lemma hardening_steps_extend (Q : list event → Prop) :
  (∀ start size, Q [EvPrintZeroing start size]) →
  (∀ start stop, Q [EvPrintWriteProtecting start stop]) →
  (∀ start size, Q [EvMemzero start size]) →
  (∀ page, Q [EvGetPresentPte page]) →
  (∀ page pte,
     Q [EvGetPresentPte page; EvClearWritable page pte; EvTlbFlushAddress page]) →
  HardeningSteps (extends Q).
Proof.
  intros Hz Hp Hm Hmiss Hedit. split.
  - intros start size st. apply extends_emit, Hz.
  - intros start stop st. apply extends_emit, Hp.
  - intros start size st. simpl. eexists. split; [reflexivity|apply Hm].
  - intros page st. unfold ProtectPage.
    destruct (GetPresentPte (pool st) (tables st) page) as [pte|]; simpl.
    + eexists. split; [reflexivity|apply Hedit].
    + eexists. split; [reflexivity|apply Hmiss].
Qed.

Lemma emits_HardenImage `{L : Layout} fuel : emits hardening_event (HardenImage fuel).
Proof.
  apply keeps_HardenImage; [apply _|].
  apply hardening_steps_extend; intros; repeat constructor.
Qed.

(** ** The order of the bring-up sequence *)

Lemma bind_Done_inv {A B} (m : M A) (k : A → M B) st b st2 :
  bind m k st = Done b st2 → ∃ a st1, m st = Done a st1 ∧ k a st1 = Done b st2.
Proof.
  unfold bind. destruct (m st) as [a st1| |]; try discriminate. eauto.
Qed.

(** A list has at most one way of being split around an event of a kind
    that occurs nowhere else in it. *)
Lemma split_at_unique (P : event → bool) X Y x pre post x' :
  Forall (λ e, P e = false) X → Forall (λ e, P e = false) Y →
  P x' = true →
  X ++ x :: Y = pre ++ x' :: post → pre = X ∧ x' = x ∧ post = Y.
Proof.
  intros HX HY Hx'. revert pre. induction HX as [|e X He HX IH]; intros pre Heq.
  - destruct pre as [|e pre]; simpl in Heq.
    + injection Heq as -> ->. auto.
    + injection Heq as -> ->. apply Forall_app in HY as [_ HY].
      inversion HY; congruence.
  - destruct pre as [|e' pre]; simpl in Heq.
    + injection Heq as -> _. congruence.
    + injection Heq as -> Heq. destruct (IH pre Heq) as (-> & -> & ->). auto.
Qed.

Lemma no_split (P : event → bool) X pre post x' :
  Forall (λ e, P e = false) X → P x' = true → X ≠ pre ++ x' :: post.
Proof.
  intros HX Hx' ->. apply Forall_app in HX as [_ HX]. inversion HX; congruence.
Qed.

Section Bringup.
Context {L : Layout} {MMgr : MemoryManager}.

Lemma emits_AllocateRoot : emits construction_event AllocateRoot.
Proof.
  intros st. unfold AllocateRoot.
  destruct (mm_AllocatePhysical (pool st) (tables st)) as [[[p t] a]|]; simpl.
  - eexists. split; [reflexivity|]. repeat constructor.
  - exists []. rewrite app_nil_r. auto.
Qed.

Lemma emits_MapPages va pa n : emits construction_event (MapPages va pa n).
Proof.
  intros st. unfold MapPages.
  destruct (mm_MapPages (pool st) (tables st) va pa n) as [[p t]|]; simpl.
  - eexists. split; [reflexivity|]. repeat constructor.
  - exists []. rewrite app_nil_r. auto.
Qed.

Lemma emits_MapPagesInRegion region pa n :
  emits construction_event (MapPagesInRegion region pa n).
Proof.
  intros st. unfold MapPagesInRegion.
  destruct (mm_MapPagesInRegion (pool st) (tables st) region pa n)
    as [[[p t] a]|]; simpl.
  - eexists. split; [reflexivity|]. repeat constructor.
  - exists []. rewrite app_nil_r. auto.
Qed.

Lemma emits_MapRuntimeDescriptor desc :
  emits construction_event (MapRuntimeDescriptor desc).
Proof.
  intros st. unfold MapRuntimeDescriptor.
  destruct (has_runtime_attribute _).
  - apply emits_MapPages.
  - exists []. simpl. rewrite app_nil_r. auto.
Qed.

Lemma emits_set_pool P p : emits P (fun st => Done tt (set_pool p st)).
Proof. intros st. exists []. simpl. rewrite app_nil_r. auto. Qed.

#[local] Hint Resolve emits_set_pool emits_AllocateRoot emits_MapPages
  emits_MapPagesInRegion emits_MapRuntimeDescriptor : emits.

Lemma emits_BuildAddressSpace fuel lb :
  emits construction_event (BuildAddressSpace fuel lb).
Proof.
  unfold BuildAddressSpace, MapRuntimeRegions, IterateMemoryDescriptors.
  auto 20 with emits.
Qed.

Lemma MapPages_Done va pa n st a st' :
  MapPages va pa n st = Done a st' → trace st' = trace st ++ [EvMapPages va pa n].
Proof.
  unfold MapPages.
  destruct (mm_MapPages (pool st) (tables st) va pa n) as [[p t]|];
    [|discriminate].
  intros [= _ <-]. reflexivity.
Qed.

(** A completed construction has made the two requests that cover the
    kernel image and the page-table pool, in this order, after the
    allocation of the root. *)
Lemma BuildAddressSpace_Done fuel lb st a st' :
  BuildAddressSpace fuel lb st = Done a st' →
  ∃ page post,
    trace st'
    = trace st
      ++ EvAllocatePhysical page
      :: EvMapPages (base kva_kernel) (physical_base (kernel lb))
           (SizeToPages (size_ (kernel lb)))
      :: EvMapPages (base kva_kernel_pt) (page_tables_pool lb)
           (page_tables_pool_count lb)
      :: post.
Proof.
  unfold BuildAddressSpace. intros H.
  apply bind_Done_inv in H as ([] & s0 & H0 & H). injection H0 as <-.
  apply bind_Done_inv in H as ([] & s1 & H1 & H).
  apply bind_Done_inv in H as ([] & s2 & H2 & H).
  apply bind_Done_inv in H as ([] & s3 & H3 & H).
  apply MapPages_Done in H2, H3.
  assert (∃ page, trace s1 = trace st ++ [EvAllocatePhysical page]) as [page Hs1].
  { revert H1. unfold AllocateRoot. cbn [pool tables set_pool].
    destruct (mm_AllocatePhysical _ _) as [[[p t] pg]|]; [|discriminate].
    intros [= <-]. exists pg. reflexivity. }
  assert (∃ post, trace st' = trace s3 ++ post) as [post Hpost].
  { match type of H with ?c s3 = _ =>
      assert (emits construction_event c) as Hem end.
    { unfold MapRuntimeRegions, IterateMemoryDescriptors. auto 20 with emits. }
    destruct (Hem s3) as (evs & Hevs & _). rewrite H in Hevs. eauto. }
  exists page, post. rewrite Hpost, H3, H2, Hs1.
  rewrite <- !app_assoc. reflexivity.
Qed.
End Bringup.

Lemma construction_event_quiet e : construction_event e → quiet_event e.
Proof. destruct e; cbv; try discriminate; auto. Qed.

Lemma hardening_event_quiet e : hardening_event e → quiet_event e.
Proof. destruct e; cbv; try discriminate; auto. Qed.

Lemma quiet_not_activation l :
  Forall quiet_event l → Forall (λ e, is_activation e = false) l.
Proof. intros Hl. eapply Forall_impl; [exact Hl|]. intros e [H _]. exact H. Qed.

Lemma quiet_not_unmask l :
  Forall quiet_event l → Forall (λ e, is_unmask e = false) l.
Proof. intros Hl. eapply Forall_impl; [exact Hl|]. intros e [_ H]. exact H. Qed.

Lemma InitializeHardware_run lb fb hp st :
  InitializeHardware lb fb hp st
  = Done tt
      (emit [if i8042 lb then EvPs2Initialize else EvPrintNoPs2]
         (emit [EvTimerInitialize hp]
            (emit [EvX64Initialize]
               (emit [EvSetUsingApic false]
                  (emit [EvSetFrameBufferAddress fb] st))))).
Proof. unfold InitializeHardware, bind, log. destruct (i8042 lb); reflexivity. Qed.

(** ** The states of the bring-up sequence *)

Lemma emit_emit l1 l2 st : emit l2 (emit l1 st) = emit (l1 ++ l2) st.
Proof. unfold emit. cbn [mem tables pool trace]. rewrite <- app_assoc. reflexivity. Qed.

Section Chain.
Context {L : Layout} {MMgr : MemoryManager}.

Lemma built_from_trans p t p1 t1 p2 t2 :
  built_from p t p1 t1 → built_from p1 t1 p2 t2 → built_from p t p2 t2.
Proof.
  intros H1 H2. induction H2.
  - exact H1.
  - eapply built_map; eassumption.
  - eapply built_region; eassumption.
Qed.

#[export] Instance builds_preorder : PreOrder builds.
Proof.
  split.
  - intros st. apply built_here.
  - intros s1 s2 s3. apply built_from_trans.
Qed.

Lemma MapRuntimeDescriptor_builds desc : keeps builds (MapRuntimeDescriptor desc).
Proof.
  intros st. unfold MapRuntimeDescriptor, MapPages, builds.
  destruct (has_runtime_attribute _); [|apply built_here].
  destruct (mm_MapPages (pool st) (tables st) _ _ _) as [[p t]|] eqn:Hrun;
    cbn [final_state pool tables]; [|apply built_here].
  eapply built_map; [apply built_here|exact Hrun].
Qed.

Lemma MapRuntimeRegions_builds fuel m : keeps builds (MapRuntimeRegions fuel m).
Proof.
  unfold MapRuntimeRegions, IterateMemoryDescriptors.
  apply keeps_IterateFrom; [apply _|]. apply MapRuntimeDescriptor_builds.
Qed.

(** [OsInitialize] in three steps: construction, the hardening of the
    state construction left once the root is loaded and the hardware set
    up, and the two last calls. *)
Lemma OsInitialize_run fuel lb st :
  OsInitialize fuel lb st
  = match BuildAddressSpace fuel lb (emit (prologue lb) st) with
    | Done a sB =>
        match HardenImage fuel
                (emit (hardware_events lb (root (pool sB)) (fst a) (snd a)) sB) with
        | Done _ sH => Done tt (emit [EvUnmaskInterrupts; EvIdle] sH)
        | Fatal s => Fatal s
        | OutOfFuel s => OutOfFuel s
        end
    | Fatal s => Fatal s
    | OutOfFuel s => OutOfFuel s
    end.
Proof.
  cbv beta iota zeta delta [OsInitialize bind log WriteCr3].
  rewrite !emit_emit. change ([_] ++ [_] ++ [_]) with (prologue lb).
  destruct (BuildAddressSpace fuel lb (emit (prologue lb) st)) as [a sB| |];
    [|reflexivity..].
  rewrite InitializeHardware_run, !emit_emit. cbn [pool emit app].
  change (EvWriteCr3 _ :: _) with (hardware_events lb (root (pool sB)) (fst a) (snd a)).
  destruct (HardenImage fuel _) as [[] sH| |]; [|reflexivity..].
  rewrite emit_emit. reflexivity.
Qed.

(** Construction is the fixed requests put to the manager, then the
    memory-map pass on the pool and tables they leave. *)
Lemma BuildAddressSpace_run fuel lb st a sB :
  BuildAddressSpace fuel lb st = Done a sB →
  ∃ p6 t6 page,
    fixed_construction lb (tables st) = Some (p6, t6, page, fst a, snd a)
    ∧ MapRuntimeRegions fuel (memory_map lb)
        (mkMachine (mem st) t6 p6 (trace st ++ fixed_requests lb page))
      = Done tt sB.
Proof.
  unfold BuildAddressSpace, fixed_construction. intros H.
  apply bind_Done_inv in H as ([] & s0 & H0 & H). injection H0 as <-.
  apply bind_Done_inv in H as ([] & s1 & H1 & H).
  apply bind_Done_inv in H as ([] & s2 & H2 & H).
  apply bind_Done_inv in H as ([] & s3 & H3 & H).
  apply bind_Done_inv in H as (fb & s4 & H4 & H).
  apply bind_Done_inv in H as (hp & s5 & H5 & H).
  apply bind_Done_inv in H as (io & s6 & H6 & H).
  apply bind_Done_inv in H as (lo & s7 & H7 & H).
  apply bind_Done_inv in H as ([] & s8 & H8 & H).
  injection H as <- <-.
  revert H1. unfold AllocateRoot. cbn [pool tables set_pool mem trace].
  change (mkPagePool (base kva_kernel_pt) _ _ 0 0) with (fresh_pool lb).
  destruct (mm_AllocatePhysical (fresh_pool lb) (tables st)) as [[[p0 t0] page]|];
    [|discriminate].
  intros [= <-]. cbn [mbind option_bind].
  revert H2. unfold MapPages at 1. cbn [pool tables mem trace].
  destruct (mm_MapPages (with_root p0 page) t0 _ _ _) as [[p1 t1]|]; [|discriminate].
  intros [= <-]. cbn [mbind option_bind].
  revert H3. unfold MapPages at 1. cbn [pool tables mem trace].
  destruct (mm_MapPages p1 t1 _ _ _) as [[p2 t2]|]; [|discriminate].
  intros [= <-]. cbn [mbind option_bind].
  revert H4. unfold MapPagesInRegion at 1. cbn [pool tables mem trace].
  destruct (mm_MapPagesInRegion p2 t2 _ _ _) as [[[p3 t3] fb']|]; [|discriminate].
  intros [= <- <-]. cbn [mbind option_bind].
  revert H5. unfold MapPagesInRegion at 1. cbn [pool tables mem trace].
  destruct (mm_MapPagesInRegion p3 t3 _ _ _) as [[[p4 t4] hp']|]; [|discriminate].
  intros [= <- <-]. cbn [mbind option_bind].
  revert H6. unfold MapPagesInRegion at 1. cbn [pool tables mem trace].
  destruct (mm_MapPagesInRegion p4 t4 _ _ _) as [[[p5 t5] io']|]; [|discriminate].
  intros [= <- <-]. cbn [mbind option_bind].
  revert H7. unfold MapPagesInRegion at 1. cbn [pool tables mem trace].
  destruct (mm_MapPagesInRegion p5 t5 _ _ _) as [[[p6 t6] lo']|]; [|discriminate].
  intros [= <- <-]. cbn [mbind option_bind].
  exists p6, t6, page. split; [reflexivity|].
  rewrite <- H8. f_equal. f_equal. unfold fixed_requests.
  rewrite <- !app_assoc. reflexivity.
Qed.

(** The two first mappings of construction, and what the pool and
    tables it ends in owe to them. *)
Lemma fixed_construction_builds lb t p6 t6 page fb hp :
  fixed_construction lb t = Some (p6, t6, page, fb, hp) →
  ∃ p0 t0 p1 t1 p2 t2,
    mm_AllocatePhysical (fresh_pool lb) t = Some (p0, t0, page)
    ∧ mm_MapPages (with_root p0 page) t0 (base kva_kernel)
        (physical_base (kernel lb)) (SizeToPages (size_ (kernel lb))) = Some (p1, t1)
    ∧ mm_MapPages p1 t1 (base kva_kernel_pt) (page_tables_pool lb)
        (page_tables_pool_count lb) = Some (p2, t2)
    ∧ built_from p2 t2 p6 t6
    ∧ (∃ p t p' t',
         mm_MapPagesInRegion p t kva_frame_buffer (frame_buffer (display lb))
           (PageCount kva_frame_buffer) = Some (p', t', fb))
    ∧ (∃ p t p' t', mm_MapPagesInRegion p t kva_devices (hpet lb) 1 = Some (p', t', hp))
    ∧ (keeps_root → root p6 = page).
Proof.
  unfold fixed_construction. intros H.
  destruct (mm_AllocatePhysical (fresh_pool lb) t) as [[[p0 t0] page0]|];
    [|discriminate]. cbn [mbind option_bind] in H.
  destruct (mm_MapPages (with_root p0 page0) t0 _ _ _) as [[p1 t1]|] eqn:H1;
    [|discriminate]. cbn [mbind option_bind] in H.
  destruct (mm_MapPages p1 t1 _ _ _) as [[p2 t2]|] eqn:H2;
    [|discriminate]. cbn [mbind option_bind] in H.
  destruct (mm_MapPagesInRegion p2 t2 _ _ _) as [[[p3 t3] fb']|] eqn:H3;
    [|discriminate]. cbn [mbind option_bind] in H.
  destruct (mm_MapPagesInRegion p3 t3 _ _ _) as [[[p4 t4] hp']|] eqn:H4;
    [|discriminate]. cbn [mbind option_bind] in H.
  destruct (mm_MapPagesInRegion p4 t4 _ _ _) as [[[p5 t5] io]|] eqn:H5;
    [|discriminate]. cbn [mbind option_bind] in H.
  destruct (mm_MapPagesInRegion p5 t5 _ _ _) as [[[p6' t6'] lo]|] eqn:H6;
    [|discriminate]. cbn [mbind option_bind] in H.
  injection H as <- <- <- <- <-.
  exists p0, t0, p1, t1, p2, t2.
  split; [reflexivity|]. split; [exact H1|]. split; [exact H2|]. split; [|split; [|split]].
  - eapply built_region; [|exact H6]. eapply built_region; [|exact H5].
    eapply built_region; [|exact H4]. eapply built_region; [|exact H3].
    apply built_here.
  - eauto.
  - eauto.
  - intros [Hmap Hregion].
    rewrite (Hregion _ _ _ _ _ _ _ _ H6), (Hregion _ _ _ _ _ _ _ _ H5),
      (Hregion _ _ _ _ _ _ _ _ H4), (Hregion _ _ _ _ _ _ _ _ H3),
      (Hmap _ _ _ _ _ _ _ H2), (Hmap _ _ _ _ _ _ _ H1).
    reflexivity.
Qed.

Lemma prologue_quiet lb : Forall quiet_event (prologue lb).
Proof. repeat constructor. Qed.

Lemma hardware_events_quiet lb new_root fb hp :
  Forall quiet_event (tail (hardware_events lb new_root fb hp)).
Proof. cbn. destruct (i8042 lb); repeat constructor. Qed.

(** C1: in every run of [OsInitialize], when the root is loaded the
    memory manager has been asked, and has granted, the mapping of the
    kernel image and then, on the pool and tables that request handed
    back, the mapping of the page-table pool; the root loaded is the one
    of the pool that construction ended in, whose pool and tables were
    obtained from those two mappings by further requests to the manager
    and nothing else.  When interrupts are unmasked, the hardening pass
    has run to its end on the very state that construction, the load of
    the root and the hardware set-up left, and the run ends in the state
    the pass left, with the unmasking and the idle loop as its last two
    events.  A run that completes does load the root and unmask
    interrupts. *)
Theorem activation_and_unmask_order fuel lb st :
  let r := OsInitialize fuel lb st in
  ∃ evs,
    trace (final_state r) = trace st ++ evs
    ∧ (∀ pre post new_root,
         evs = pre ++ EvWriteCr3 new_root :: post →
         ∃ page p0 t0 p1 t1 p2 t2 a sB,
           mm_AllocatePhysical (fresh_pool lb) (tables st) = Some (p0, t0, page)
           ∧ mm_MapPages (with_root p0 page) t0 (base kva_kernel)
               (physical_base (kernel lb)) (SizeToPages (size_ (kernel lb)))
             = Some (p1, t1)
           ∧ mm_MapPages p1 t1 (base kva_kernel_pt) (page_tables_pool lb)
               (page_tables_pool_count lb) = Some (p2, t2)
           ∧ BuildAddressSpace fuel lb (emit (prologue lb) st) = Done a sB
           ∧ built_from p2 t2 (pool sB) (tables sB)
           ∧ trace sB = trace st ++ pre
           ∧ new_root = root (pool sB)
           ∧ EvMapPages (base kva_kernel) (physical_base (kernel lb))
               (SizeToPages (size_ (kernel lb))) ∈ pre
           ∧ EvMapPages (base kva_kernel_pt) (page_tables_pool lb)
               (page_tables_pool_count lb) ∈ pre)
    ∧ (∀ pre post,
         evs = pre ++ EvUnmaskInterrupts :: post →
         post = [EvIdle]
         ∧ ∃ a sB sH,
             BuildAddressSpace fuel lb (emit (prologue lb) st) = Done a sB
             ∧ HardenImage fuel
                 (emit (hardware_events lb (root (pool sB)) (fst a) (snd a)) sB)
               = Done tt sH
             ∧ trace sH = trace st ++ pre
             ∧ r = Done tt (emit [EvUnmaskInterrupts; EvIdle] sH)
             ∧ EvWriteCr3 (root (pool sB)) ∈ pre)
    ∧ (is_done r = true →
       EvUnmaskInterrupts ∈ evs ∧ ∃ new_root, EvWriteCr3 new_root ∈ evs).
Proof.
  intros r. subst r. rewrite OsInitialize_run.
  set (st3 := emit (prologue lb) st).
  destruct (emits_BuildAddressSpace fuel lb st3) as (evsB & HtrB & HB).
  assert (Forall quiet_event (prologue lb ++ evsB)) as HX.
  { apply Forall_app. split; [apply prologue_quiet|].
    eapply Forall_impl; [exact HB|apply construction_event_quiet]. }
  destruct (BuildAddressSpace fuel lb st3) as [a sB| |] eqn:HBuild.
  2,3: exists (prologue lb ++ evsB);
       (split; [cbn [final_state] in *; rewrite HtrB; subst st3; cbn [trace emit];
                rewrite <- app_assoc; reflexivity|]);
       (split; [intros pre post nr Heq; exfalso;
                eapply (no_split is_activation); [apply quiet_not_activation, HX| |exact Heq];
                reflexivity|]);
       (split; [intros pre post Heq; exfalso;
                eapply (no_split is_unmask); [apply quiet_not_unmask, HX| |exact Heq];
                reflexivity|discriminate]).
  cbn [final_state] in HtrB.
  assert (trace sB = trace st ++ prologue lb ++ evsB) as HsB.
  { rewrite HtrB. subst st3. cbn [trace emit]. rewrite <- app_assoc. reflexivity. }
  destruct (BuildAddressSpace_run _ _ _ _ _ HBuild) as (p6 & t6 & page & Hfixed & Hpass).
  destruct (fixed_construction_builds _ _ _ _ _ _ _ Hfixed)
    as (p0 & t0 & p1 & t1 & p2 & t2 & H0 & H1 & H2 & Hbuilt & _).
  assert (built_from p2 t2 (pool sB) (tables sB)) as HbuiltB.
  { eapply built_from_trans; [exact Hbuilt|].
    pose proof (MapRuntimeRegions_builds fuel (memory_map lb)
                  (mkMachine (mem st3) t6 p6 (trace st3 ++ fixed_requests lb page)))
      as Hk.
    rewrite Hpass in Hk. exact Hk. }
  destruct (BuildAddressSpace_Done _ _ _ _ _ HBuild) as (page' & rest & Hdone).
  rewrite HtrB in Hdone. apply app_inv_head in Hdone.
  assert (EvMapPages (base kva_kernel) (physical_base (kernel lb))
            (SizeToPages (size_ (kernel lb))) ∈ prologue lb ++ evsB
          ∧ EvMapPages (base kva_kernel_pt) (page_tables_pool lb)
              (page_tables_pool_count lb) ∈ prologue lb ++ evsB) as [He1 He2].
  { rewrite Hdone. split; apply elem_of_app; right; set_solver. }
  set (hw := hardware_events lb (root (pool sB)) (fst a) (snd a)).
  pose proof (hardware_events_quiet lb (root (pool sB)) (fst a) (snd a)) as Hhw.
  fold hw in Hhw.
  assert (hw = EvWriteCr3 (root (pool sB)) :: tail hw) as Hhead by reflexivity.
  set (sD := emit hw sB).
  destruct (emits_HardenImage fuel sD) as (evsH & HtrH & HH).
  assert (Forall quiet_event evsH) as HHq
    by (eapply Forall_impl; [exact HH|apply hardening_event_quiet]).
  assert (∀ tl, Forall (λ e, is_activation e = false) tl →
            ∀ pre post nr,
              (prologue lb ++ evsB) ++ EvWriteCr3 (root (pool sB)) :: (tail hw ++ evsH) ++ tl
              = pre ++ EvWriteCr3 nr :: post →
              pre = prologue lb ++ evsB ∧ nr = root (pool sB)) as Hactivation.
  { intros tl Htl pre post nr Heq.
    apply (split_at_unique is_activation) in Heq as (-> & [= ->] & _); auto.
    - apply quiet_not_activation, HX.
    - apply Forall_app. split; [|exact Htl].
      apply quiet_not_activation, Forall_app. auto. }
  assert (∀ pre nr,
            pre = prologue lb ++ evsB → nr = root (pool sB) →
            ∃ page p0 t0 p1 t1 p2 t2 a0 sB0,
              mm_AllocatePhysical (fresh_pool lb) (tables st) = Some (p0, t0, page)
              ∧ mm_MapPages (with_root p0 page) t0 (base kva_kernel)
                  (physical_base (kernel lb)) (SizeToPages (size_ (kernel lb)))
                = Some (p1, t1)
              ∧ mm_MapPages p1 t1 (base kva_kernel_pt) (page_tables_pool lb)
                  (page_tables_pool_count lb) = Some (p2, t2)
              ∧ Done a sB = Done a0 sB0
              ∧ built_from p2 t2 (pool sB0) (tables sB0)
              ∧ trace sB0 = trace st ++ pre
              ∧ nr = root (pool sB0)
              ∧ EvMapPages (base kva_kernel) (physical_base (kernel lb))
                  (SizeToPages (size_ (kernel lb))) ∈ pre
              ∧ EvMapPages (base kva_kernel_pt) (page_tables_pool lb)
                  (page_tables_pool_count lb) ∈ pre) as Hchain.
  { intros pre nr -> ->.
    exists page, p0, t0, p1, t1, p2, t2, a, sB. auto 10. }
  destruct (HardenImage fuel sD) as [[] sH|sH|sH] eqn:Hrun; cbn [final_state] in *.
  - exists ((prologue lb ++ evsB) ++ EvWriteCr3 (root (pool sB))
              :: (tail hw ++ evsH) ++ [EvUnmaskInterrupts; EvIdle]).
    split; [|split; [|split]].
    + cbn [trace emit]. rewrite HtrH. subst sD. cbn [trace emit].
      rewrite HsB, Hhead. cbn [tail]. rewrite <- !app_assoc. reflexivity.
    + intros pre post nr Heq.
      destruct (Hactivation [EvUnmaskInterrupts; EvIdle] ltac:(repeat constructor)
                  pre post nr Heq) as [Hpre Hnr].
      apply (Hchain pre nr Hpre Hnr).
    + intros pre post Heq.
      assert (((prologue lb ++ evsB) ++ EvWriteCr3 (root (pool sB)) :: tail hw ++ evsH)
              ++ EvUnmaskInterrupts :: [EvIdle]
              = pre ++ EvUnmaskInterrupts :: post) as Heq'.
      { rewrite <- Heq. rewrite <- !app_assoc. cbn [app]. rewrite <- !app_assoc.
        reflexivity. }
      apply (split_at_unique is_unmask) in Heq' as (-> & _ & ->);
        [| |repeat constructor|reflexivity].
      2:{ apply Forall_app. split; [apply quiet_not_unmask, HX|].
          constructor; [reflexivity|].
          apply quiet_not_unmask, Forall_app. auto. }
      split; [reflexivity|].
      exists a, sB, sH. split; [reflexivity|]. split; [exact Hrun|].
      split; [|split; [reflexivity|]].
      * rewrite HtrH. subst sD. cbn [trace emit]. rewrite HsB, Hhead. cbn [tail].
        rewrite <- !app_assoc. reflexivity.
      * apply elem_of_app. right. left.
    + intros _. split.
      * apply elem_of_app. right. right. apply elem_of_app. right. left.
      * exists (root (pool sB)). apply elem_of_app. right. left.
  - exists ((prologue lb ++ evsB) ++ EvWriteCr3 (root (pool sB))
              :: (tail hw ++ evsH) ++ []).
    split; [|split; [|split]].
    + rewrite HtrH. subst sD. cbn [trace emit].
      rewrite HsB, Hhead. cbn [tail]. rewrite app_nil_r, <- !app_assoc. reflexivity.
    + intros pre post nr Heq.
      destruct (Hactivation [] ltac:(constructor) pre post nr Heq) as [Hpre Hnr].
      apply (Hchain pre nr Hpre Hnr).
    + intros pre post Heq. exfalso.
      eapply (no_split is_unmask); [| |exact Heq]; [|reflexivity].
      apply Forall_app. split; [apply quiet_not_unmask, HX|].
      constructor; [reflexivity|]. rewrite app_nil_r.
      apply quiet_not_unmask, Forall_app. auto.
    + discriminate.
  - exists ((prologue lb ++ evsB) ++ EvWriteCr3 (root (pool sB))
              :: (tail hw ++ evsH) ++ []).
    split; [|split; [|split]].
    + rewrite HtrH. subst sD. cbn [trace emit].
      rewrite HsB, Hhead. cbn [tail]. rewrite app_nil_r, <- !app_assoc. reflexivity.
    + intros pre post nr Heq.
      destruct (Hactivation [] ltac:(constructor) pre post nr Heq) as [Hpre Hnr].
      apply (Hchain pre nr Hpre Hnr).
    + intros pre post Heq. exfalso.
      eapply (no_split is_unmask); [| |exact Heq]; [|reflexivity].
      apply Forall_app. split; [apply quiet_not_unmask, HX|].
      constructor; [reflexivity|]. rewrite app_nil_r.
      apply quiet_not_unmask, Forall_app. auto.
    + discriminate.
Qed.
End Chain.

(** ** Zero-filling and loads *)

Lemma memzero_lookup_out n : ∀ p m a,
  a ∉ span n p → memzero n p m !! a = m !! a.
Proof.
  induction n as [|n IH]; intros p m a Ha; cbn [memzero span] in *.
  - reflexivity.
  - apply not_elem_of_cons in Ha as [Hne Ha].
    rewrite IH by exact Ha. apply lookup_insert_ne. congruence.
Qed.

Lemma memzero_lookup_in n : ∀ p m a,
  a ∈ span n p → memzero n p m !! a = Some x00.
Proof.
  induction n as [|n IH]; intros p m a Ha; cbn [memzero span] in *.
  - inversion Ha.
  - destruct (decide (a ∈ span n (wrap64 (p + 1)))) as [Hin|Hout].
    + apply IH. exact Hin.
    + apply elem_of_cons in Ha as [->|Ha]; [|contradiction].
      rewrite memzero_lookup_out by exact Hout. apply lookup_insert_eq.
Qed.

Lemma memzero_lookup n p m a :
  memzero n p m !! a = m !! a ∨ memzero n p m !! a = Some x00.
Proof.
  destruct (decide (a ∈ span n p)).
  - right. apply memzero_lookup_in. assumption.
  - left. apply memzero_lookup_out. assumption.
Qed.


Lemma read_u8_zero m a : m !! a = Some x00 → read_u8 m a = 0.
Proof. unfold read_u8. intros ->. reflexivity. Qed.

(** A load only depends on the bytes it covers. *)
Lemma read_le_agree n : ∀ m m' p,
  (∀ a, a ∈ span n p → m !! a = m' !! a) → read_le n m p = read_le n m' p.
Proof.
  induction n as [|n IH]; intros m m' p Hag; cbn [read_le span] in *.
  - reflexivity.
  - unfold read_u8 at 1 2. rewrite (Hag p) by (apply elem_of_cons; auto).
    f_equal. f_equal. apply IH. intros a Ha. apply Hag.
    apply elem_of_cons. auto.
Qed.

(** ** Leaf entries and the walk *)

Lemma frame_mask_testbit i :
  0 <= i → Z.testbit frame_mask i = (12 <=? i) && (i <? 52).
Proof.
  intros Hi. unfold frame_mask. rewrite Z.shiftl_spec by lia.
  destruct (12 <=? i) eqn:H12.
  - apply Z.leb_le in H12. rewrite Z.testbit_ones by lia.
    replace (0 <=? i - 12) with true by (symmetry; apply Z.leb_le; lia).
    simpl. destruct (i <? 52) eqn:H52.
    + apply Z.ltb_lt in H52. apply Z.ltb_lt. lia.
    + apply Z.ltb_ge in H52. apply Z.ltb_ge. lia.
  - apply Z.leb_gt in H12. apply Z.testbit_neg_r. lia.
Qed.

Example frame_mask_value : frame_mask = 0x000FFFFFFFFFF000.
Proof. reflexivity. Qed.

Lemma pte_present_clear e : pte_present (Z.clearbit e 1) = pte_present e.
Proof. unfold pte_present. apply Z.clearbit_neq. lia. Qed.

Lemma pte_frame_clear e : pte_frame (Z.clearbit e 1) = pte_frame e.
Proof.
  unfold pte_frame. apply Z.bits_inj'. intros i Hi.
  rewrite !Z.land_spec, frame_mask_testbit by exact Hi.
  destruct (Z.eq_dec i 1) as [->|Hne].
  - simpl. rewrite !andb_false_r. reflexivity.
  - rewrite Z.clearbit_neq by congruence. reflexivity.
Qed.

Lemma pte_writable_clear e : pte_writable (Z.clearbit e 1) = false.
Proof. unfold pte_writable. apply Z.clearbit_eq. Qed.

Lemma clearbit_idem e : Z.clearbit (Z.clearbit e 1) 1 = Z.clearbit e 1.
Proof.
  apply Z.bits_inj'. intros i Hi. rewrite !Z.clearbit_eqb.
  destruct (Z.testbit e i), (1 =? i); reflexivity.
Qed.

Lemma clearbit_id e : Z.testbit e 1 = false → Z.clearbit e 1 = e.
Proof.
  intros He. apply Z.bits_inj'. intros i Hi. rewrite Z.clearbit_eqb.
  destruct (Z.eqb_spec 1 i) as [<-|Hne].
  - rewrite He. reflexivity.
  - apply andb_true_r.
Qed.

Lemma clearbit_other_bits e i : i ≠ 1 → Z.testbit (Z.clearbit e 1) i = Z.testbit e i.
Proof. intros Hi. apply Z.clearbit_neq. congruence. Qed.

Lemma walk_next_same t t' table va level :
  same_walk t t' → walk_next t' table va level = walk_next t table va level.
Proof.
  intros Hs. unfold walk_next.
  destruct (Hs (table + 8 * pt_index va level)) as [-> ->]. reflexivity.
Qed.

Lemma GetPresentPte_same pool t t' va :
  same_walk t t' → GetPresentPte pool t' va = GetPresentPte pool t va.
Proof.
  intros Hs. unfold GetPresentPte.
  rewrite (walk_next_same t t') by exact Hs.
  destruct (walk_next t (root pool) va 3) as [pdpt|]; [|reflexivity]. simpl.
  rewrite (walk_next_same t t') by exact Hs.
  destruct (walk_next t pdpt va 2) as [pd|]; [|reflexivity]. simpl.
  rewrite (walk_next_same t t') by exact Hs.
  destruct (walk_next t pd va 1) as [pt|]; [|reflexivity]. simpl.
  destruct (Hs (pt + 8 * pt_index va 0)) as [-> _]. reflexivity.
Qed.

Lemma GetPresentPte_present pool t va pte :
  GetPresentPte pool t va = Some pte → pte_present (entry_at t pte) = true.
Proof.
  unfold GetPresentPte.
  destruct (walk_next t (root pool) va 3) as [pdpt|]; [|discriminate]. simpl.
  destruct (walk_next t pdpt va 2) as [pd|]; [|discriminate]. simpl.
  destruct (walk_next t pd va 1) as [pt|]; [|discriminate]. simpl.
  destruct (pte_present (entry_at t (pt + 8 * pt_index va 0))) eqn:Hp;
    [|discriminate].
  intros [= <-]. exact Hp.
Qed.

(** A present entry is stored in the arena (absent entries read as 0). *)
Lemma present_is_stored t a :
  pte_present (entry_at t a) = true → t !! a = Some (entry_at t a).
Proof.
  unfold entry_at. destruct (t !! a) as [e|]; [reflexivity|].
  simpl. unfold pte_present. rewrite Z.testbit_0_l. discriminate.
Qed.

Lemma entry_at_clear_writable t pte a :
  entry_at (clear_writable t pte) a
  = if decide (pte = a) then Z.clearbit (entry_at t pte) 1 else entry_at t a.
Proof.
  unfold clear_writable, entry_at at 1. rewrite lookup_insert.
  destruct (decide (pte = a)); reflexivity.
Qed.

(** Addresses of one page share their leaf entry. *)
Lemma pt_index_same_page page a level :
  0 <= level → 0 <= page → page mod page_size = 0 → page <= a < page + page_size →
  pt_index a level = pt_index page level.
Proof.
  intros Hl Hp Hal Ha. unfold pt_index. f_equal.
  rewrite <- !Z.shiftr_shiftr by lia. f_equal.
  rewrite !Z.shiftr_div_pow2 by lia. change (2 ^ 12) with page_size.
  unfold page_size in *.
  pose proof (Z.div_mod page 4096 ltac:(lia)) as Hdm. rewrite Hal in Hdm.
  symmetry. apply Z.div_unique with (r := a - page); lia.
Qed.

Lemma GetPresentPte_same_page pool t page a :
  0 <= page → page mod page_size = 0 → page <= a < page + page_size →
  GetPresentPte pool t a = GetPresentPte pool t page.
Proof.
  intros Hp Hal Ha. unfold GetPresentPte, walk_next.
  rewrite !(pt_index_same_page page a) by (assumption || lia). reflexivity.
Qed.

(** ** The state changes of hardening *)

Lemma hardens_entry st st' a :
  hardens st st' →
  entry_at (tables st') a = entry_at (tables st) a
  ∨ (pte_present (entry_at (tables st) a) = true
     ∧ entry_at (tables st') a = Z.clearbit (entry_at (tables st) a) 1).
Proof.
  intros (_ & _ & Ht). destruct (Ht a) as [Heq|[Hp Heq]].
  - left. unfold entry_at. rewrite Heq. reflexivity.
  - right. split; [exact Hp|]. unfold entry_at at 1. rewrite Heq. reflexivity.
Qed.

#[export] Instance hardens_preorder : PreOrder hardens.
Proof.
  split.
  - intros st. repeat split; auto.
  - intros s1 s2 s3 H12 H23.
    pose proof (λ a, hardens_entry s1 s2 a H12) as He12.
    destruct H12 as (Hp12 & Hm12 & Ht12), H23 as (Hp23 & Hm23 & Ht23).
    split; [congruence|]. split.
    + intros a. destruct (Hm23 a) as [-> | ->]; auto.
    + intros a. destruct (Ht23 a) as [->|[Hpres ->]]; [apply Ht12|].
      right. destruct (He12 a) as [Heq | [Hpres1 Heq]]; rewrite Heq in *.
      * split; [exact Hpres|reflexivity].
      * rewrite clearbit_idem. split; [exact Hpres1|reflexivity].
Qed.

Lemma hardens_same_walk st st' : hardens st st' → same_walk (tables st) (tables st').
Proof.
  intros H a. destruct (hardens_entry _ _ a H) as [->|[_ ->]].
  - auto.
  - rewrite pte_present_clear, pte_frame_clear. auto.
Qed.

Lemma hardens_GetPresentPte st st' va :
  hardens st st' →
  GetPresentPte (pool st') (tables st') va = GetPresentPte (pool st) (tables st) va.
Proof.
  intros H. pose proof H as (Hp & _). rewrite Hp.
  apply GetPresentPte_same, hardens_same_walk.
  exact H.
Qed.

Lemma hardens_zero st st' a :
  hardens st st' → mem st !! a = Some x00 → mem st' !! a = Some x00.
Proof. intros (_ & Hm & _) Hz. destruct (Hm a) as [Heq | Heq]; congruence. Qed.

Lemma hardens_write_protected st st' pte :
  hardens st st' → write_protected (tables st) pte → write_protected (tables st') pte.
Proof.
  intros (_ & _ & Ht) (e & He & Hw). destruct (Ht pte) as [Heq | [_ Heq]].
  - exists e. rewrite Heq. auto.
  - eexists. split; [exact Heq|]. apply pte_writable_clear.
Qed.

Lemma hardened_section_mono `{L : Layout} p0 t0 s st st' :
  hardens st st' → hardened_section p0 t0 s st → hardened_section p0 t0 s st'.
Proof.
  intros H [Hz Hp]. split.
  - intros Hd a Ha. eapply hardens_zero; eauto.
  - intros Hpr page Hpage. destruct (Hp Hpr page Hpage) as (pte & Hg & Hw).
    exists pte. split; [exact Hg|]. eapply hardens_write_protected; eauto.
Qed.

Lemma hardens_emit evs st : hardens st (emit evs st).
Proof. repeat split; auto. Qed.

Lemma ProtectPage_run page st pte :
  GetPresentPte (pool st) (tables st) page = Some pte →
  ProtectPage page st
  = Done tt (emit [EvGetPresentPte page; EvClearWritable page pte;
                   EvTlbFlushAddress page]
               (set_tables (λ t, clear_writable t pte) st)).
Proof. unfold ProtectPage. intros ->. reflexivity. Qed.

Lemma hardens_clear_writable st pte evs :
  pte_present (entry_at (tables st) pte) = true →
  hardens st (emit evs (set_tables (λ t, clear_writable t pte) st)).
Proof.
  intros Hp. split; [reflexivity|]. split; [auto|].
  intros a. simpl. unfold clear_writable. rewrite lookup_insert.
  destruct (decide (pte = a)) as [<-|]; auto.
Qed.

Lemma hardening_steps_harden : HardeningSteps hardens.
Proof.
  split.
  - intros start size st. apply hardens_emit.
  - intros start stop st. apply hardens_emit.
  - intros start size st. simpl. split; [reflexivity|]. split; [|auto].
    intros a. simpl. apply memzero_lookup.
  - intros page st. unfold ProtectPage.
    destruct (GetPresentPte (pool st) (tables st) page) as [pte|] eqn:Hg; simpl.
    + apply hardens_clear_writable. eapply GetPresentPte_present. exact Hg.
    + apply hardens_emit.
Qed.

(** The write-protect loop unrolls into one turn per page step, as long
    as the last step stays inside the address space. *)
Lemma WriteProtectLoop_unroll stop n :
  ∀ fuel page st,
    0 <= page →
    page + Z.of_nat n * page_size < 2 ^ 64 →
    stop <= page + Z.of_nat n * page_size →
    (0 < Z.of_nat n → page + (Z.of_nat n - 1) * page_size < stop) →
    (n <= fuel)%nat →
    WriteProtectLoop fuel page stop st
    = for_each ProtectPage (descriptor_cursors page page_size n) st.
Proof.
  unfold page_size.
  induction n as [|n IH]; intros fuel page st Hp Hfit Hend Hlast Hfuel.
  - assert ((page <? stop) = false) as Hlt by (apply Z.ltb_ge; lia).
    destruct fuel; cbn [WriteProtectLoop]; rewrite Hlt; reflexivity.
  - destruct fuel as [|fuel]; [lia|].
    rewrite descriptor_cursors_succ. cbn [WriteProtectLoop for_each].
    assert ((page <? stop) = true) as Hlt by (apply Z.ltb_lt; lia).
    rewrite Hlt. unfold page_size.
    rewrite (wrap64_small (page + 4096)) by lia.
    unfold bind. destruct (ProtectPage page st) as [[] st'| |]; [|reflexivity..].
    apply IH; lia.
Qed.

Lemma strides_covering_nonpos size stride :
  size <= 0 → 0 < stride → strides_covering size stride = 0%nat.
Proof.
  intros Hs Hst. unfold strides_covering.
  assert ((size + stride - 1) / stride <= 0); [|lia].
  assert ((size + stride - 1) / stride < 1); [|lia].
  apply Z.div_lt_upper_bound; lia.
Qed.

Lemma WriteProtectLoop_steps fuel start stop st :
  0 <= start → start <= stop → stop + page_size <= 2 ^ 64 →
  Z.of_nat (length (page_steps start stop)) <= Z.of_nat fuel →
  WriteProtectLoop fuel start stop st
  = for_each ProtectPage (page_steps start stop) st.
Proof.
  intros Hs Hle Hfit Hfuel. unfold page_steps in *.
  rewrite descriptor_cursors_length in Hfuel.
  pose proof (strides_covering_spec (stop - start) page_size ltac:(lia)
                ltac:(unfold page_size; lia)) as [Hcover Htight].
  cbn zeta in *. unfold page_size in *.
  apply WriteProtectLoop_unroll; unfold page_size; lia.
Qed.

Lemma forallb_eq {X} (f g : X → bool) l :
  (∀ x, f x = g x) → forallb f l = forallb g l.
Proof.
  intros Hfg. induction l as [|x l IH]; [reflexivity|].
  cbn [forallb]. rewrite Hfg, IH. reflexivity.
Qed.

(** Protecting a list of mapped pages. *)
Lemma protect_pages_run pages :
  ∀ st,
    forallb (is_mapped (pool st) (tables st)) pages = true →
    ∃ st',
      for_each ProtectPage pages st = Done tt st'
      ∧ hardens st st'
      ∧ mem st' = mem st
      ∧ trace st' = trace st ++ flat_map (protect_events (pool st) (tables st)) pages
      ∧ ∀ page, page ∈ pages →
          ∃ pte, GetPresentPte (pool st) (tables st) page = Some pte
                 ∧ write_protected (tables st') pte.
Proof.
  induction pages as [|page pages IH]; intros st Hm.
  - exists st. split; [reflexivity|]. split; [reflexivity|].
    split; [reflexivity|]. split; [simpl; rewrite app_nil_r; reflexivity|].
    intros page Hin. inversion Hin.
  - cbn [forallb] in Hm. apply andb_true_iff in Hm as [Hpage Hrest].
    unfold is_mapped in Hpage.
    destruct (GetPresentPte (pool st) (tables st) page) as [pte|] eqn:Hg;
      [|discriminate].
    cbn [for_each]. unfold bind. rewrite (ProtectPage_run page st pte Hg).
    set (st1 := emit _ (set_tables _ st)).
    assert (hardens st st1) as H1.
    { apply hardens_clear_writable. eapply GetPresentPte_present. exact Hg. }
    assert (∀ va, GetPresentPte (pool st1) (tables st1) va
                  = GetPresentPte (pool st) (tables st) va) as Hsame
      by (intros va; apply hardens_GetPresentPte; exact H1).
    destruct (IH st1) as (st' & Hrun & H2 & Hmem & Htr & Hall).
    { rewrite (forallb_eq _ (is_mapped (pool st) (tables st))); [exact Hrest|].
      intros va. unfold is_mapped. rewrite Hsame. reflexivity. }
    exists st'. split; [exact Hrun|]. split; [etransitivity; eassumption|].
    split; [rewrite Hmem; reflexivity|]. split.
    + rewrite Htr. subst st1. cbn [flat_map trace emit set_tables].
      unfold protect_events at 2. rewrite Hg. rewrite <- app_assoc.
      f_equal. cbn [app]. f_equal. f_equal. f_equal.
      apply flat_map_ext. intros va. unfold protect_events.
      change (GetPresentPte (pool st) (clear_writable (tables st) pte) va)
        with (GetPresentPte (pool st1) (tables st1) va).
      rewrite Hsame. reflexivity.
    + intros va Hva. apply elem_of_cons in Hva as [->|Hva].
      * exists pte. split; [exact Hg|].
        apply (hardens_write_protected st1 st' pte H2).
        eexists. split; [apply lookup_insert_eq|]. apply pte_writable_clear.
      * destruct (Hall va Hva) as (pte' & Hg' & Hw').
        exists pte'. rewrite <- Hsame. auto.
Qed.

(** ** The loop body, section by section *)

Lemma WriteProtectLoop_mem stop :
  ∀ fuel page st, mem (final_state (WriteProtectLoop fuel page stop st)) = mem st.
Proof.
  induction fuel as [|fuel IH]; intros page st; cbn [WriteProtectLoop];
    destruct (page <? stop); try reflexivity.
  unfold bind, ProtectPage.
  destruct (GetPresentPte (pool st) (tables st) page); [|reflexivity].
  rewrite IH. reflexivity.
Qed.

Section LoopBody.
Context {L : Layout}.

(** A section that is writable and not discardable is skipped. *)
Lemma HardenSection_skip fuel s st :
  is_discardable s = false → is_writable s = true →
  HardenSection fuel s st = Done tt st.
Proof. intros Hd Hw. unfold HardenSection. rewrite Hd, Hw. reflexivity. Qed.

(** Outside the extent of a discardable section, memory is left alone,
    whatever the outcome. *)
Lemma HardenSection_mem_frame fuel s st a :
  (is_discardable s = true → a ∉ extent s) →
  mem (final_state (HardenSection fuel s st)) !! a = mem st !! a.
Proof.
  intros Ha. unfold HardenSection. destruct (is_discardable s).
  - simpl. apply memzero_lookup_out. apply Ha. reflexivity.
  - destruct (negb (is_writable s)); [|reflexivity].
    unfold bind, log. rewrite WriteProtectLoop_mem. reflexivity.
Qed.

Lemma section_bounds s :
  0 <= base kva_kernel → 0 <= VirtualAddress s → 0 <= VirtualSize s →
  base kva_kernel + VirtualAddress s + VirtualSize s + page_size <= 2 ^ 64 →
  section_start s = base kva_kernel + VirtualAddress s
  ∧ section_end s = base kva_kernel + VirtualAddress s + VirtualSize s.
Proof.
  intros Hb Hva Hvs Hfit. unfold section_end, section_start, page_size in *.
  rewrite (wrap64_small (base kva_kernel + VirtualAddress s)) by lia.
  rewrite wrap64_small by lia. auto.
Qed.

(** The loop body on a section that is ready. *)
Lemma HardenSection_run fuel s st :
  0 <= base kva_kernel → 0 <= VirtualAddress s → 0 <= VirtualSize s →
  section_ready fuel (pool st) (tables st) s = true →
  ∃ st',
    HardenSection fuel s st = Done tt st'
    ∧ hardens st st'
    ∧ hardened_section (pool st) (tables st) s st'
    ∧ trace st' = trace st ++ section_events (pool st) (tables st) s.
Proof.
  intros Hb Hva Hvs Hready. unfold HardenSection, section_events, hardened_section.
  unfold section_ready, is_protected in *.
  destruct (is_discardable s) eqn:Hd; [|destruct (is_writable s) eqn:Hw]; cbn [negb andb orb] in *.
  - eexists. split; [reflexivity|]. split; [|split].
    + etransitivity; [apply (hardens_emit [EvPrintZeroing (section_start s) (VirtualSize s)])|].
      apply (step_memzero _ hardening_steps_harden).
    + split; [|discriminate]. intros _ a Ha. simpl. apply memzero_lookup_in. exact Ha.
    + simpl. rewrite <- app_assoc. reflexivity.
  - exists st. split; [reflexivity|]. split; [reflexivity|].
    split; [split; discriminate|]. rewrite app_nil_r. reflexivity.
  - apply andb_true_iff in Hready as [Hready Hmapped].
    apply andb_true_iff in Hready as [Hfit Hfuel].
    apply Z.leb_le in Hfit, Hfuel.
    destruct (section_bounds s Hb Hva Hvs Hfit) as [Hstart Hend].
    unfold bind, log.
    set (st1 := emit [EvPrintWriteProtecting (section_start s) (section_end s)] st).
    rewrite WriteProtectLoop_steps; try (rewrite ?Hstart, ?Hend; lia); [|exact Hfuel].
    destruct (protect_pages_run (page_steps (section_start s) (section_end s)) st1)
      as (st' & Hrun & Hh & _ & Htr & Hall); [exact Hmapped|].
    exists st'. split; [exact Hrun|]. split; [|split].
    + etransitivity; [|exact Hh]. apply hardens_emit.
    + split; [discriminate|]. intros _. exact Hall.
    + rewrite Htr. subst st1. simpl. rewrite <- app_assoc. reflexivity.
Qed.

Lemma section_ready_hardens fuel st st' s :
  hardens st st' →
  section_ready fuel (pool st') (tables st') s = section_ready fuel (pool st) (tables st) s.
Proof.
  intros H. unfold section_ready. f_equal. f_equal.
  apply forallb_eq. intros page. unfold is_mapped.
  rewrite (hardens_GetPresentPte st st') by exact H. reflexivity.
Qed.

Lemma section_events_hardens st st' s :
  hardens st st' →
  section_events (pool st') (tables st') s = section_events (pool st) (tables st) s.
Proof.
  intros H. unfold section_events.
  destruct (is_discardable s); [reflexivity|].
  destruct (is_protected s); [|reflexivity].
  f_equal. apply flat_map_ext. intros page. unfold protect_events.
  rewrite (hardens_GetPresentPte st st') by exact H. reflexivity.
Qed.

Lemma hardened_section_hardens st st' s st'' :
  hardens st st' →
  hardened_section (pool st') (tables st') s st'' →
  hardened_section (pool st) (tables st) s st''.
Proof.
  intros H [Hz Hp]. split; [exact Hz|].
  intros Hpr page Hpage. destruct (Hp Hpr page Hpage) as (pte & Hg & Hw).
  exists pte. rewrite <- (hardens_GetPresentPte st st') by exact H. auto.
Qed.

(** The loop body run over a list of sections that are all ready. *)
Lemma harden_sections_run fuel secs :
  ∀ st,
    0 <= base kva_kernel →
    Forall (λ s, 0 <= VirtualAddress s ∧ 0 <= VirtualSize s) secs →
    forallb (section_ready fuel (pool st) (tables st)) secs = true →
    ∃ st',
      for_each (HardenSection fuel) secs st = Done tt st'
      ∧ hardens st st'
      ∧ (∀ s, s ∈ secs → hardened_section (pool st) (tables st) s st')
      ∧ (∀ a, (∀ s, s ∈ secs → is_discardable s = true → a ∉ extent s) →
              mem st' !! a = mem st !! a)
      ∧ trace st' = trace st ++ flat_map (section_events (pool st) (tables st)) secs.
Proof.
  induction secs as [|s secs IH]; intros st Hb Hpos Hready.
  - exists st. split; [reflexivity|]. split; [reflexivity|].
    split; [intros s Hs; inversion Hs|]. split; [reflexivity|].
    simpl. rewrite app_nil_r. reflexivity.
  - cbn [forallb] in Hready. apply andb_true_iff in Hready as [Hs Hrest].
    apply Forall_cons in Hpos as [[Hva Hvs] Hpos].
    destruct (HardenSection_run fuel s st Hb Hva Hvs Hs)
      as (st1 & Hrun1 & Hh1 & Heff1 & Htr1).
    destruct (IH st1 Hb Hpos) as (st' & Hrun & Hh & Heff & Hframe & Htr).
    { rewrite (forallb_eq _ (section_ready fuel (pool st) (tables st))); [exact Hrest|].
      intros s'. apply section_ready_hardens. exact Hh1. }
    exists st'. cbn [for_each]. unfold bind. rewrite Hrun1.
    split; [exact Hrun|]. split; [etransitivity; eassumption|]. split; [|split].
    + intros s' Hs'. apply elem_of_cons in Hs' as [->|Hs'].
      * eapply hardened_section_mono; eassumption.
      * eapply hardened_section_hardens; [exact Hh1|]. apply Heff. exact Hs'.
    + intros a Ha. rewrite Hframe.
      * pose proof (HardenSection_mem_frame fuel s st a) as Hf.
        rewrite Hrun1 in Hf. apply Hf. intros Hd. apply Ha; [left|exact Hd].
      * intros s' Hs' Hd. apply Ha; [right; exact Hs'|exact Hd].
    + rewrite Htr, Htr1, <- app_assoc. cbn [flat_map]. f_equal. f_equal.
      apply flat_map_ext. intros s'. apply section_events_hardens. exact Hh1.
Qed.
End LoopBody.

(** ** Reading the section table while memory is being zeroed *)

Lemma in_list_elem a l : in_list a l = true ↔ a ∈ l.
Proof.
  unfold in_list. rewrite existsb_exists. split.
  - intros (x & Hx & Heq). apply Z.eqb_eq in Heq as ->.
    apply list_elem_of_In. exact Hx.
  - intros Ha. exists a. split; [apply list_elem_of_In; exact Ha|apply Z.eqb_refl].
Qed.

Lemma read_section_header_agree m m' section :
  (∀ a, a ∈ section_fields section → m !! a = m' !! a) →
  read_section_header m section = read_section_header m' section.
Proof.
  intros Hag. unfold read_section_header, read_u32, section_fields in *.
  f_equal; apply read_le_agree; intros a Ha; apply Hag;
    rewrite !elem_of_app; auto.
Qed.

Lemma NumberOfSections_agree m m' nt :
  (∀ a, a ∈ span 2 (wrap64 (nt + 6)) → m !! a = m' !! a) →
  NumberOfSections m nt = NumberOfSections m' nt.
Proof. intros Hag. unfold NumberOfSections, read_u16. apply read_le_agree. exact Hag. Qed.

Section TableWalk.
Context {L : Layout}.

(** As long as the bytes in [F] keep the value they have in [m0], and no
    discardable section lies over them, the section loop is the loop
    body run over the headers found in [m0]. *)
Lemma SectionLoop_unroll fuel nt (m0 : gmap Z byte) (F : list Z) n :
  ∀ k i section st,
    (∀ a, a ∈ F → mem st !! a = m0 !! a) →
    (∀ a, a ∈ span 2 (wrap64 (nt + 6)) → a ∈ F) →
    (∀ p a, p ∈ section_ptrs n section → a ∈ section_fields p → a ∈ F) →
    (∀ p, p ∈ section_ptrs n section →
       is_discardable (read_section_header m0 p) = true →
       ∀ a, a ∈ extent (read_section_header m0 p) → a ∉ F) →
    i + Z.of_nat n = NumberOfSections m0 nt →
    (n <= k)%nat →
    SectionLoop fuel k nt i section st
    = for_each (HardenSection fuel)
        (map (read_section_header m0) (section_ptrs n section)) st.
Proof.
  induction n as [|n IH]; intros k i section st Hkeep Hcount Hfields Hclear Hi Hk.
  - assert (NumberOfSections (mem st) nt = NumberOfSections m0 nt) as HN
      by (apply NumberOfSections_agree; auto).
    assert ((i <? NumberOfSections (mem st) nt) = false) as Hlt
      by (apply Z.ltb_ge; lia).
    destruct k; cbn [SectionLoop]; rewrite Hlt; reflexivity.
  - destruct k as [|k]; [lia|].
    assert (NumberOfSections (mem st) nt = NumberOfSections m0 nt) as HN
      by (apply NumberOfSections_agree; auto).
    assert ((i <? NumberOfSections (mem st) nt) = true) as Hlt
      by (apply Z.ltb_lt; lia).
    cbn [SectionLoop section_ptrs map for_each]. rewrite Hlt.
    assert (read_section_header (mem st) section = read_section_header m0 section)
      as Hs.
    { apply read_section_header_agree. intros a Ha. apply Hkeep.
      apply (Hfields section); [left|exact Ha]. }
    rewrite Hs. unfold bind.
    pose proof (HardenSection_mem_frame fuel (read_section_header m0 section) st)
      as Hframe.
    destruct (HardenSection fuel (read_section_header m0 section) st)
      as [[] st1| |]; [|reflexivity..].
    apply IH.
    + intros a Ha. simpl in Hframe. rewrite Hframe; [apply Hkeep; exact Ha|].
      intros Hd Hin. eapply (Hclear section); [left|exact Hd|exact Hin|exact Ha].
    + exact Hcount.
    + intros p a Hp. apply Hfields. right. exact Hp.
    + intros p Hp. apply Hclear. right. exact Hp.
    + lia.
    + lia.
Qed.

Lemma headers_kept_spec m :
  headers_kept m = true →
  ∀ s, s ∈ section_table m → is_discardable s = true →
       ∀ a, a ∈ extent s → a ∉ header_footprint m.
Proof.
  unfold headers_kept. intros Hk s Hs Hd a Ha Hin.
  rewrite forallb_forall in Hk.
  specialize (Hk s ltac:(apply list_elem_of_In; exact Hs)).
  rewrite Hd in Hk. cbn [negb orb] in Hk.
  rewrite forallb_forall in Hk.
  specialize (Hk a ltac:(apply list_elem_of_In; exact Ha)).
  apply negb_true_iff in Hk.
  apply in_list_elem in Hin. congruence.
Qed.

(** C2, the order of the pass: over an image whose headers no discardable
    section overlaps, the pass is the loop body run over the section
    table, first section first. *)
Lemma HardenImage_unroll fuel st :
  headers_kept (mem st) = true →
  HardenImage fuel st
  = for_each (HardenSection fuel) (section_table (mem st)) st.
Proof.
  intros Hk. unfold HardenImage, section_table.
  set (nt := ImageNtHeaders (mem st) (base kva_kernel)).
  pose proof (read_u16_range (mem st) (wrap64 (nt + 6))) as HN.
  fold (NumberOfSections (mem st) nt) in HN.
  apply (SectionLoop_unroll fuel nt (mem st) (header_footprint (mem st))).
  - reflexivity.
  - intros a Ha. unfold header_footprint. fold nt.
    rewrite !elem_of_app. auto.
  - intros p a Hp Ha. unfold header_footprint. fold nt.
    rewrite !elem_of_app. do 5 right. apply list_elem_of_In, in_flat_map.
    exists p. split; apply list_elem_of_In; assumption.
  - intros p Hp Hd a Ha. eapply headers_kept_spec; [exact Hk| |exact Hd|exact Ha].
    unfold section_table. fold nt. apply list_elem_of_fmap. eauto.
  - rewrite Z2Nat.id by lia. reflexivity.
  - unfold u16_values. lia.
Qed.
End TableWalk.

(** ** Flushing the translation cache *)

Lemma flushed_after_edit_tail e l :
  flushed_after_edit (e :: l) = true → flushed_after_edit l = true.
Proof.
  destruct e; cbn [flushed_after_edit]; auto.
  destruct l as [|e' l]; [discriminate|].
  destruct e'; try discriminate. intros H. apply andb_true_iff in H as [_ H]. exact H.
Qed.

Lemma flushed_after_edit_app l1 l2 :
  flushed_after_edit l1 = true → flushed_after_edit l2 = true →
  flushed_after_edit (l1 ++ l2) = true.
Proof.
  intros H1 H2. induction l1 as [|e l1 IH]; [exact H2|].
  pose proof (flushed_after_edit_tail _ _ H1) as Ht. specialize (IH Ht).
  destruct e; cbn [app flushed_after_edit] in *; auto.
  destruct l1 as [|e' l1]; [discriminate|].
  destruct e'; try discriminate. cbn [app] in *.
  apply andb_true_iff in H1 as [Hp _]. rewrite Hp. exact IH.
Qed.


#[export] Instance flush_discipline_compositional : Compositional flush_discipline.
Proof.
  split.
  - split; reflexivity.
  - intros l1 l2 [F1 C1] [F2 C2]. split.
    + apply flushed_after_edit_app; assumption.
    + rewrite !List.filter_app, !length_app. lia.
Qed.


(** ** The edit of a leaf entry *)

(** C7: the pass, whatever its outcome, leaves every entry of the arena
    as it was or, for a present entry, with nothing but its writable bit
    cleared: the present bit, the frame and every bit other than bit 1
    are unchanged.  Over an image that is ready the pass completes, and
    the leaf entry of every page step of a section that is neither
    discardable nor writable is present, with its writable bit clear and
    its frame unchanged. *)
Theorem hardening_only_clears_writable `{L : Layout} fuel st :
  (∀ a,
     let e := entry_at (tables st) a in
     let e' := entry_at (tables (final_state (HardenImage fuel st))) a in
     (e' = e ∨ (pte_present e = true ∧ e' = Z.clearbit e 1))
     ∧ pte_present e' = pte_present e
     ∧ pte_frame e' = pte_frame e
     ∧ (∀ i, i ≠ 1 → Z.testbit e' i = Z.testbit e i))
  ∧ (image_ready fuel st = true →
     ∃ st',
       HardenImage fuel st = Done tt st'
       ∧ ∀ s page,
           s ∈ section_table (mem st) →
           is_discardable s = false → is_writable s = false →
           page ∈ page_steps (section_start s) (section_end s) →
           ∃ pte,
             GetPresentPte (pool st) (tables st) page = Some pte
             ∧ entry_at (tables st') pte = Z.clearbit (entry_at (tables st) pte) 1
             ∧ pte_present (entry_at (tables st') pte) = true
             ∧ pte_writable (entry_at (tables st') pte) = false
             ∧ pte_frame (entry_at (tables st') pte)
               = pte_frame (entry_at (tables st) pte)).
Proof.
  assert (hardens st (final_state (HardenImage fuel st))) as Hh
    by (apply keeps_HardenImage; [apply _|apply hardening_steps_harden]).
  split.
  - intros a e e'. subst e e'.
    destruct (hardens_entry _ _ a Hh) as [Heq|[Hp Heq]]; rewrite Heq.
    + repeat split; auto.
    + split; [auto|]. split; [apply pte_present_clear|].
      split; [apply pte_frame_clear|]. intros i Hi. apply clearbit_other_bits, Hi.
  - intros Hready. unfold image_ready in Hready.
    apply andb_true_iff in Hready as [Hready Hsecs].
    apply andb_true_iff in Hready as [Hb Hkept]. apply Z.leb_le in Hb.
    rewrite (HardenImage_unroll fuel st Hkept) in *.
    destruct (harden_sections_run fuel (section_table (mem st)) st Hb)
      as (st' & Hrun & _ & Heff & _ & _); [|exact Hsecs|].
    { unfold section_table. apply Forall_fmap, Forall_forall. intros p _. simpl.
      split; apply read_u32_range. }
    exists st'. split; [exact Hrun|].
    intros s page Hs Hd Hw Hpage. rewrite Hrun in Hh. simpl in Hh.
    destruct (Heff s Hs) as [_ Hprot].
    destruct (Hprot ltac:(unfold is_protected; rewrite Hd, Hw; reflexivity) page Hpage)
      as (pte & Hg & e1 & He1 & Hw1).
    exists pte. split; [exact Hg|].
    pose proof (GetPresentPte_present _ _ _ _ Hg) as Hpres.
    assert (entry_at (tables st') pte = e1) as He by (unfold entry_at; rewrite He1; reflexivity).
    destruct (hardens_entry _ _ pte Hh) as [Heq|[_ Heq]].
    + rewrite Heq. rewrite <- Heq, He. rewrite clearbit_id; [|exact Hw1].
      rewrite <- He, Heq. repeat split; auto.
      rewrite <- Heq, He. exact Hw1.
    + rewrite Heq. split; [reflexivity|]. split; [rewrite pte_present_clear; exact Hpres|].
      split; [apply pte_writable_clear|apply pte_frame_clear].
Qed.

(** ** The pass over the whole image *)

(** The page steps leave no gap: every address of the extent lies within
    a page of one of them, and they are page-aligned when the start is. *)
Lemma page_steps_cover start stop a :
  0 <= start → start <= a < stop →
  ∃ page,
    page ∈ page_steps start stop
    ∧ page <= a < page + page_size
    ∧ (start mod page_size = 0 → page mod page_size = 0).
Proof.
  intros Hs Ha. unfold page_steps, page_size in *.
  pose proof (strides_covering_spec (stop - start) 4096 ltac:(lia) ltac:(lia))
    as [Hcover _]. cbn zeta in Hcover.
  pose proof (Z.div_mod (a - start) 4096 ltac:(lia)) as Hdm.
  pose proof (Z.mod_pos_bound (a - start) 4096 ltac:(lia)) as Hr.
  assert (0 <= (a - start) / 4096) as Hk by (apply Z.div_pos; lia).
  exists (start + (a - start) / 4096 * 4096). split; [|split].
  - apply descriptor_cursors_elem. exists ((a - start) / 4096). split; [lia|reflexivity].
  - lia.
  - intros Hal. rewrite Z.mod_add by lia. exact Hal.
Qed.

(** ** Running the pass a second time *)




Section SecondRun.
Context {L : Layout}.





End SecondRun.

(** ** The pass on the example image *)

Lemma span_first n a : (0 < n)%nat → a ∈ span n a.
Proof. destruct n; [lia|]. intros _. left. Qed.

Lemma hardening_only_clears_writable_witness :
  ∃ st',
    HardenImage (L := example_layout) 4 example_machine = Done tt st'
    ∧ entry_at (tables example_machine) 0x13018 = 0x203023
    ∧ entry_at (tables st') 0x13018 = 0x203021.
Proof.
  destruct (hardening_only_clears_writable (L := example_layout) 4 example_machine)
    as [_ Hpass].
  destruct Hpass as (st' & Hrun & Hpages); [vm_compute; reflexivity|].
  exists st'. split; [exact Hrun|]. split; [reflexivity|].
  destruct (Hpages (mkSection 0x1000 0x3000 0x60000020) (example_kernel_base + 0x3000))
    as (pte & Hg & Hedit & _); try reflexivity.
  - apply list_elem_of_In. vm_compute. right. left. reflexivity.
  - apply list_elem_of_In. vm_compute. left. reflexivity.
  - vm_compute in Hg. injection Hg as <-. rewrite Hedit. reflexivity.
Defined.


(** The trace of the pass on the example image: the discardable section
    is zeroed, the code page is protected and flushed, the data section
    is passed over. *)
Example example_hardening_trace :
  trace (final_state (HardenImage (L := example_layout) 4 example_machine))
  = [EvPrintZeroing 0xFFFFFFFF80001000 0x40;
     EvMemzero 0xFFFFFFFF80001000 0x40;
     EvPrintWriteProtecting 0xFFFFFFFF80003000 0xFFFFFFFF80004000;
     EvGetPresentPte 0xFFFFFFFF80003000;
     EvClearWritable 0xFFFFFFFF80003000 0x13018;
     EvTlbFlushAddress 0xFFFFFFFF80003000].
Proof. vm_compute. reflexivity. Qed.

(** ** The check of the image headers *)

Lemma ImageNtHeaders_rejects m image_base :
  read_u16 m image_base ≠ IMAGE_DOS_SIGNATURE
  ∨ read_u32 m (wrap64 (image_base + read_i32 m (wrap64 (image_base + 60))))
    ≠ IMAGE_NT_SIGNATURE →
  ImageNtHeaders m image_base = 0.
Proof.
  intros Hbad. unfold ImageNtHeaders. cbn zeta.
  destruct (image_base =? 0); [reflexivity|]. cbn [orb].
  destruct (Z.eqb_spec (read_u16 m image_base) IMAGE_DOS_SIGNATURE) as [Hdos|Hdos];
    [|reflexivity].
  cbn [negb].
  destruct (_ =? 0); [reflexivity|]. cbn [orb].
  destruct (Z.eqb_spec
              (read_u32 m (wrap64 (image_base + read_i32 m (wrap64 (image_base + 60)))))
              IMAGE_NT_SIGNATURE) as [Hnt|Hnt]; [|reflexivity].
  destruct Hbad; contradiction.
Qed.

Lemma ImageNtHeaders_accepts m image_base :
  image_base ≠ 0 →
  read_u16 m image_base = IMAGE_DOS_SIGNATURE →
  let nt := wrap64 (image_base + read_i32 m (wrap64 (image_base + 60))) in
  nt ≠ 0 → read_u32 m nt = IMAGE_NT_SIGNATURE →
  ImageNtHeaders m image_base = nt.
Proof.
  intros Hbase Hdos nt Hnt Hsig. unfold ImageNtHeaders. cbn zeta. fold nt.
  rewrite Hdos, Hsig, !Z.eqb_refl.
  destruct (Z.eqb_spec image_base 0); [contradiction|].
  destruct (Z.eqb_spec nt 0); [contradiction|]. reflexivity.
Qed.

(** The caller does not look at the pointer it gets back: after a
    rejection the section loop runs on the headers found at address 0. *)
Lemma HardenImage_after_rejection `{L : Layout} fuel st :
  ImageNtHeaders (mem st) (base kva_kernel) = 0 →
  HardenImage fuel st
  = SectionLoop fuel u16_values 0 0 (IMAGE_FIRST_SECTION (mem st) 0) st.
Proof. intros Hnull. unfold HardenImage. rewrite Hnull. reflexivity. Qed.

(** On the example image with a wrong signature and zeroes in low
    memory, the section count read through the null pointer is 0. *)
Lemma HardenImage_skips_unsigned :
  HardenImage (L := example_layout) 4 unsigned_machine = Done tt unsigned_machine.
Proof.
  rewrite HardenImage_after_rejection by (vm_compute; reflexivity).
  unfold u16_values.
  replace (Z.to_nat 65535) with (S (Z.to_nat 65534)) by lia.
  cbn [SectionLoop].
  replace (0 <? NumberOfSections (mem unsigned_machine) 0) with false
    by (vm_compute; reflexivity).
  reflexivity.
Qed.

(** C4 fails on the code: with a wrong DOS signature [ImageNtHeaders]
    returns the null pointer, yet nothing is aborted.  Where low memory
    reads as zero the pass ends normally without a word and interrupts
    are unmasked; where it holds other bytes the pass takes them for the
    headers and zeroes the section they describe. *)
Lemma corrupt_image_is_still_walked :
  read_u16 unsigned_mem example_kernel_base ≠ IMAGE_DOS_SIGNATURE
  ∧ ImageNtHeaders unsigned_mem example_kernel_base = 0
  ∧ HardenImage (L := example_layout) 4 unsigned_machine = Done tt unsigned_machine
  ∧ is_done (OsInitialize (L := example_layout) (MMgr := accepting_manager) 4
               example_loader_block unsigned_machine) = true
  ∧ In EvUnmaskInterrupts
      (trace (final_state
                (OsInitialize (L := example_layout) (MMgr := accepting_manager) 4
                   example_loader_block unsigned_machine)))
  ∧ ImageNtHeaders corrupt_mem example_kernel_base = 0
  ∧ is_done (HardenImage (L := example_layout) 4 corrupt_machine) = true
  ∧ trace (final_state (HardenImage (L := example_layout) 4 corrupt_machine))
    = [EvPrintZeroing 0xFFFFFFFF80001000 16; EvMemzero 0xFFFFFFFF80001000 16]
  ∧ read_u8 (mem corrupt_machine) 0xFFFFFFFF80001000 = 255
  ∧ read_u8 (mem (final_state (HardenImage (L := example_layout) 4 corrupt_machine)))
      0xFFFFFFFF80001000 = 0.
Proof.
  split; [vm_compute; discriminate|].
  split; [vm_compute; reflexivity|].
  split; [apply HardenImage_skips_unsigned|].
  split; [vm_compute; reflexivity|].
  split; [vm_compute; tauto|].
  split; [vm_compute; reflexivity|].
  split; [vm_compute; reflexivity|].
  split; [vm_compute; reflexivity|].
  split; vm_compute; reflexivity.
Qed.

(** * Further properties *)

(** ** The reader as a loop combinator *)

Lemma for_each_app {X} (f : X → M unit) l1 l2 st :
  for_each f (l1 ++ l2) st = (for_each f l1 ;; for_each f l2) st.
Proof.
  revert st. induction l1 as [|x l1 IH]; intros st; cbn [app for_each].
  - reflexivity.
  - unfold bind in *. destruct (f x st) as [[] st1| |]; [|reflexivity..].
    apply IH.
Qed.

Lemma descriptor_cursors_app start stride n1 n2 :
  descriptor_cursors start stride (n1 + n2)
  = descriptor_cursors start stride n1
    ++ descriptor_cursors (start + Z.of_nat n1 * stride) stride n2.
Proof.
  revert start. induction n1 as [|n1 IH]; intros start.
  - cbn [Nat.add]. unfold descriptor_cursors at 2. cbn [seq map app].
    f_equal. lia.
  - cbn [Nat.add]. rewrite !descriptor_cursors_succ, IH. cbn [app].
    do 3 f_equal. lia.
Qed.

Lemma strides_covering_add k r stride :
  0 <= k → 0 <= r → 0 < stride →
  strides_covering (k * stride + r) stride
  = (Z.to_nat k + strides_covering r stride)%nat.
Proof.
  intros Hk Hr Hs. unfold strides_covering.
  replace (k * stride + r + stride - 1) with (k * stride + (r + stride - 1)) by lia.
  rewrite Z.div_add_l by lia.
  rewrite Z2Nat.inj_add; [reflexivity|lia|].
  apply Z.div_pos; lia.
Qed.

Lemma strides_covering_whole k stride :
  0 <= k → 0 < stride → strides_covering (k * stride) stride = Z.to_nat k.
Proof.
  intros Hk Hs.
  replace (k * stride) with (k * stride + 0) by lia.
  rewrite strides_covering_add by lia.
  rewrite strides_covering_nonpos by lia. lia.
Qed.

(** X1: an invariant of the machine state that every call of the callback
    preserves, whatever the outcome of the call, holds of the state in
    which the iteration ends, halts or runs out of fuel: the reader has
    no effect of its own. *)
Theorem reader_keeps_invariants (Inv : machine → Prop) fuel m callback st :
  (∀ d st0, Inv st0 → Inv (final_state (callback d st0))) →
  Inv st →
  Inv (final_state (IterateMemoryDescriptors fuel m callback st)).
Proof.
  intros Hcb. unfold IterateMemoryDescriptors. generalize (m_map m) as desc.
  revert st. induction fuel as [|fuel IH]; intros st desc Hst;
    cbn [IterateFrom]; destruct (desc <? _); try exact Hst.
  unfold bind. pose proof (Hcb desc st Hst) as Hnext.
  destruct (callback desc st) as [[] st1| |]; simpl in *; try exact Hnext.
  apply IH. exact Hnext.
Qed.

Lemma reader_keeps_invariants_witness :
  mem (final_state (IterateMemoryDescriptors 2 example_memory_map RecordDescriptor
                      map_machine))
  = example_map_memory.
Proof.
  apply (reader_keeps_invariants (λ st, mem st = example_map_memory) 2
           example_memory_map RecordDescriptor map_machine).
  - intros d st0 Hst0. exact Hst0.
  - reflexivity.
Defined.

(** X2: iterating a map is iterating its first [k] descriptors and then
    the map that starts at descriptor [k]. *)
Theorem iteration_splits_at_a_descriptor fuel m callback k st :
  0 <= m_map m → 0 < m_descriptor_size m → 0 <= k →
  k * m_descriptor_size m <= m_size m →
  m_map m + m_size m + m_descriptor_size m <= 2 ^ 64 →
  (strides_covering (m_size m) (m_descriptor_size m) <= fuel)%nat →
  let first :=
    mkMemoryMap (m_map m) (k * m_descriptor_size m) (m_descriptor_size m) in
  let rest :=
    mkMemoryMap (m_map m + k * m_descriptor_size m)
      (m_size m - k * m_descriptor_size m) (m_descriptor_size m) in
  IterateMemoryDescriptors fuel m callback st
  = (IterateMemoryDescriptors fuel first callback ;;
     IterateMemoryDescriptors fuel rest callback) st.
Proof.
  intros Hmap Hstride Hk Hle Hfit Hfuel first rest.
  set (stride := m_descriptor_size m) in *.
  set (r := m_size m - k * stride).
  assert (0 <= r) as Hr by (subst r; lia).
  assert (0 <= k * stride) as Hks by nia.
  assert (strides_covering (m_size m) stride
          = (Z.to_nat k + strides_covering r stride)%nat) as Hn.
  { replace (m_size m) with (k * stride + r) by (subst r; lia).
    apply strides_covering_add; lia. }
  pose proof (strides_covering_spec r stride Hr Hstride) as [_ Htight].
  cbn zeta in Htight.
  assert (Z.of_nat (strides_covering r stride) * stride < r + stride) as Hlast.
  { destruct (strides_covering r stride) as [|n] eqn:Hcount; [lia|].
    rewrite Nat2Z.inj_succ in *. lia. }
  assert (IterateMemoryDescriptors fuel m callback st
          = for_each callback
              (descriptor_cursors (m_map m) stride
                 (Z.to_nat k + strides_covering r stride)) st) as ->.
  { rewrite <- Hn. apply IterateMemoryDescriptors_unroll; fold stride; lia. }
  assert (∀ st0, IterateMemoryDescriptors fuel first callback st0
                 = for_each callback
                     (descriptor_cursors (m_map m) stride (Z.to_nat k)) st0) as Hfirst.
  { intros st0. rewrite <- (strides_covering_whole k stride) by lia.
    apply (IterateMemoryDescriptors_unroll first); subst first;
      cbn [m_map m_size m_descriptor_size]; fold stride;
      rewrite ?strides_covering_whole by lia; rewrite ?Z2Nat.id by lia; lia. }
  assert (∀ st0, IterateMemoryDescriptors fuel rest callback st0
                 = for_each callback
                     (descriptor_cursors (m_map m + k * stride) stride
                        (strides_covering r stride)) st0) as Hrest.
  { intros st0.
    apply (IterateMemoryDescriptors_unroll rest); subst rest;
      cbn [m_map m_size m_descriptor_size]; fold stride; fold r; subst r; lia. }
  rewrite descriptor_cursors_app, for_each_app, Z2Nat.id by lia.
  unfold bind. rewrite Hfirst.
  destruct (for_each callback (descriptor_cursors (m_map m) stride (Z.to_nat k)) st)
    as [[] st1| |]; [|reflexivity..].
  rewrite Hrest. reflexivity.
Qed.

Lemma iteration_splits_at_a_descriptor_witness :
  IterateMemoryDescriptors 3 example_memory_map RecordDescriptor blank_machine
  = (IterateMemoryDescriptors 3 example_map_head RecordDescriptor ;;
     IterateMemoryDescriptors 3 example_map_tail RecordDescriptor) blank_machine.
Proof.
  apply (iteration_splits_at_a_descriptor 3 example_memory_map RecordDescriptor 2
           blank_machine); simpl; try lia.
  vm_compute. lia.
Defined.

(** X3: a map of size zero is not iterated: the callback is not called,
    whatever the stride (zero included) and with no fuel at all. *)
Theorem empty_map_is_not_iterated fuel m callback st :
  0 <= m_map m < 2 ^ 64 → m_size m = 0 →
  IterateMemoryDescriptors fuel m callback st = Done tt st.
Proof.
  intros Hmap Hsize. unfold IterateMemoryDescriptors.
  assert ((m_map m <? uefi_next_memory_descriptor (m_map m) (m_size m)) = false)
    as Hlt.
  { unfold uefi_next_memory_descriptor. rewrite Hsize, Z.add_0_r.
    rewrite wrap64_small by exact Hmap. apply Z.ltb_irrefl. }
  destruct fuel; cbn [IterateFrom]; rewrite Hlt; reflexivity.
Qed.

Lemma empty_map_is_not_iterated_witness :
  IterateMemoryDescriptors 0 empty_memory_map RecordDescriptor blank_machine
  = Done tt blank_machine.
Proof.
  apply (empty_map_is_not_iterated 0 empty_memory_map RecordDescriptor blank_machine).
  - simpl. lia.
  - reflexivity.
Defined.

(** ** The descriptor listing *)


(** At a callback that acts on the machine and returns, the two
    instances of the template are the same loop. *)
Lemma IterateFromWith_machine m (f : Z → machine → machine) :
  ∀ fuel desc st st',
    IterateFromWith fuel m f desc st = Some st'
    ↔ IterateFrom fuel m (λ d st0, Done tt (f d st0)) desc st = Done tt st'.
Proof.
  induction fuel as [|fuel IH]; intros desc st st';
    cbn [IterateFromWith IterateFrom]; destruct (desc <? _).
  - split; discriminate.
  - split; intros [= ->]; reflexivity.
  - unfold bind. apply IH.
  - split; intros [= ->]; reflexivity.
Qed.




(** ** What the header check looks at *)

(** X5: [ImageNtHeaders] returns a non-null pointer exactly when the
    image base is not null, the DOS magic is found there, and the address
    [e_lfanew] bytes further on (a signed offset, modulo the address
    space) is not null and holds the NT signature; the pointer returned
    is then that address.  In every other case it returns null. *)
Theorem ImageNtHeaders_checks_both_signatures m image_base :
  let nt := wrap64 (image_base + read_i32 m (wrap64 (image_base + 60))) in
  let r := ImageNtHeaders m image_base in
  (r ≠ 0 ↔
   image_base ≠ 0 ∧ read_u16 m image_base = IMAGE_DOS_SIGNATURE
   ∧ nt ≠ 0 ∧ read_u32 m nt = IMAGE_NT_SIGNATURE)
  ∧ (r = 0 ∨ (r = nt ∧ read_u32 m r = IMAGE_NT_SIGNATURE ∧ 0 < r < 2 ^ 64))
  ∧ (image_base = 0 → r = 0).
Proof.
  intros nt r. subst r. unfold ImageNtHeaders. cbn zeta. fold nt.
  pose proof (wrap64_range (image_base + read_i32 m (wrap64 (image_base + 60))))
    as Hrange. fold nt in Hrange.
  destruct (Z.eqb_spec image_base 0) as [Hbase|Hbase]; cbn [orb].
  { split; [|auto]. split; [congruence|]. intros (H & _). contradiction. }
  destruct (Z.eqb_spec (read_u16 m image_base) IMAGE_DOS_SIGNATURE) as [Hdos|Hdos];
    cbn [negb].
  2:{ split; [|split; [auto|contradiction]].
      split; [congruence|]. intros (_ & H & _). contradiction. }
  destruct (Z.eqb_spec nt 0) as [Hnt|Hnt]; cbn [orb].
  { split; [|split; [auto|contradiction]].
    split; [congruence|]. intros (_ & _ & H & _). contradiction. }
  destruct (Z.eqb_spec (read_u32 m nt) IMAGE_NT_SIGNATURE) as [Hsig|Hsig];
    cbn [negb].
  2:{ split; [|split; [auto|contradiction]].
      split; [congruence|]. intros (_ & _ & _ & H). contradiction. }
  split; [|split; [|contradiction]].
  - split; auto.
  - right. split; [reflexivity|]. split; [exact Hsig|lia].
Qed.

(** X6: the result of [ImageNtHeaders] depends on ten bytes of memory
    only: the DOS magic, [e_lfanew] and the NT signature.  Nothing else
    of the headers (machine type, section count, sizes, checksums) is
    looked at. *)
Theorem ImageNtHeaders_reads_the_signatures_only m m' image_base :
  (∀ a, a ∈ signature_footprint m image_base → m' !! a = m !! a) →
  ImageNtHeaders m' image_base = ImageNtHeaders m image_base.
Proof.
  intros Hag. unfold signature_footprint in Hag.
  assert (read_u16 m' image_base = read_u16 m image_base) as Hmagic.
  { apply read_le_agree. intros a Ha. apply Hag. rewrite !elem_of_app. auto. }
  assert (read_i32 m' (wrap64 (image_base + 60))
          = read_i32 m (wrap64 (image_base + 60))) as Hlfanew.
  { unfold read_i32, read_u32.
    rewrite (read_le_agree 4 m' m); [reflexivity|].
    intros a Ha. apply Hag. rewrite !elem_of_app. auto. }
  assert (read_u32 m' (wrap64 (image_base + read_i32 m (wrap64 (image_base + 60))))
          = read_u32 m (wrap64 (image_base + read_i32 m (wrap64 (image_base + 60)))))
    as Hsig.
  { apply read_le_agree. intros a Ha. apply Hag. rewrite !elem_of_app. auto. }
  unfold ImageNtHeaders. cbn zeta. rewrite Hmagic, Hlfanew, Hsig. reflexivity.
Qed.

Lemma ImageNtHeaders_reads_the_signatures_only_witness :
  rewritten_mem ≠ example_mem
  ∧ ImageNtHeaders rewritten_mem example_kernel_base
    = ImageNtHeaders example_mem example_kernel_base.
Proof.
  split.
  - intros Heq.
    assert (read_u16 rewritten_mem (example_kernel_base + 0x86)
            = read_u16 example_mem (example_kernel_base + 0x86)) as Hn
      by (rewrite Heq; reflexivity).
    vm_compute in Hn. discriminate.
  - apply (ImageNtHeaders_reads_the_signatures_only example_mem rewritten_mem
             example_kernel_base).
    intros a Ha. apply list_elem_of_In in Ha. vm_compute in Ha.
    repeat (destruct Ha as [<-|Ha]; [vm_compute; reflexivity|]).
    contradiction.
Defined.

(** ** The flags the loop body consults *)

Lemma land_bit_eqb x k :
  0 <= k → (Z.land x (2 ^ k) =? 0) = negb (Z.testbit x k).
Proof.
  intros Hk.
  assert (Z.land x (2 ^ k) = if Z.testbit x k then 2 ^ k else 0) as ->.
  { apply Z.bits_inj'. intros i Hi. rewrite Z.land_spec, Z.pow2_bits_eqb by lia.
    destruct (Z.eqb_spec k i) as [<-|Hne].
    - destruct (Z.testbit x k) eqn:Hb.
      + rewrite Z.pow2_bits_true by lia. reflexivity.
      + rewrite Z.bits_0. reflexivity.
    - rewrite andb_false_r. destruct (Z.testbit x k).
      + rewrite Z.pow2_bits_false by lia. reflexivity.
      + rewrite Z.bits_0. reflexivity. }
  destruct (Z.testbit x k); [|reflexivity].
  apply Z.eqb_neq. pose proof (Z.pow_pos_nonneg 2 k). lia.
Qed.

Lemma is_discardable_bit s : is_discardable s = Z.testbit (Characteristics s) 25.
Proof.
  unfold is_discardable. change IMAGE_SCN_MEM_DISCARDABLE with (2 ^ 25).
  rewrite land_bit_eqb by lia. apply negb_involutive.
Qed.

Lemma is_writable_bit s : is_writable s = Z.testbit (Characteristics s) 31.
Proof.
  unfold is_writable. change IMAGE_SCN_MEM_WRITE with (2 ^ 31).
  rewrite land_bit_eqb by lia. apply negb_involutive.
Qed.

(** X7: of the characteristics of a section the loop body consults two
    bits, discardable (25) and writable (31): two headers with the same
    address and size that agree on these bits are treated alike, whatever
    their other flags (code, initialised data, executable, readable,
    shared, alignment). *)
Theorem hardening_consults_two_flags `{L : Layout} fuel s s' :
  VirtualAddress s' = VirtualAddress s →
  VirtualSize s' = VirtualSize s →
  Z.testbit (Characteristics s') 25 = Z.testbit (Characteristics s) 25 →
  Z.testbit (Characteristics s') 31 = Z.testbit (Characteristics s) 31 →
  HardenSection fuel s' = HardenSection fuel s.
Proof.
  intros Hva Hsize Hd Hw. unfold HardenSection, section_end, section_start.
  rewrite !is_discardable_bit, !is_writable_bit, Hva, Hsize, Hd, Hw.
  reflexivity.
Qed.

Lemma hardening_consults_two_flags_witness :
  Characteristics flagged_section ≠ 0x60000020
  ∧ HardenSection (L := example_layout) 4 flagged_section
    = HardenSection (L := example_layout) 4 (mkSection 0x1000 0x3000 0x60000020).
Proof.
  split; [vm_compute; discriminate|].
  apply (hardening_consults_two_flags (L := example_layout) 4
           (mkSection 0x1000 0x3000 0x60000020) flagged_section);
    reflexivity.
Defined.

(** ** A discardable section over the headers *)

Lemma read_u16_zeroed m a :
  (∀ b, b ∈ span 2 a → m !! b = Some x00) → read_u16 m a = 0.
Proof.
  intros Hz. unfold read_u16. cbn [read_le].
  rewrite !read_u8_zero; [reflexivity| |]; apply Hz; cbn [span].
  - right. left.
  - left.
Qed.

(** X8: the loop reads the section count from the image at every turn.
    When the first section is discardable and its extent covers the count,
    zeroing it ends the loop: whatever the number of sections the header
    declared, the pass is the loop body on the first section alone. *)
Theorem zeroed_section_count_ends_the_pass `{L : Layout} fuel st :
  let nt := ImageNtHeaders (mem st) (base kva_kernel) in
  let s := read_section_header (mem st) (IMAGE_FIRST_SECTION (mem st) nt) in
  0 < NumberOfSections (mem st) nt →
  is_discardable s = true →
  (∀ a, a ∈ span 2 (wrap64 (nt + 6)) → a ∈ extent s) →
  HardenImage fuel st = HardenSection fuel s st
  ∧ is_done (HardenImage fuel st) = true
  ∧ NumberOfSections (mem (final_state (HardenImage fuel st))) nt = 0.
Proof.
  intros nt s Hcount Hd Hover.
  assert (∃ st1, HardenSection fuel s st = Done tt st1
                 ∧ NumberOfSections (mem st1) nt = 0) as (st1 & Hrun & Hzero).
  { unfold HardenSection. rewrite Hd. eexists. split; [reflexivity|].
    cbn [mem emit set_mem]. unfold NumberOfSections. apply read_u16_zeroed.
    intros b Hb. apply memzero_lookup_in. apply Hover. exact Hb. }
  assert (HardenImage fuel st = Done tt st1) as Hpass.
  { unfold HardenImage. cbn zeta. fold nt.
    unfold u16_values.
    replace (Z.to_nat 65535) with (S (S (Z.to_nat 65533))) by lia.
    cbn [SectionLoop].
    replace (0 <? NumberOfSections (mem st) nt) with true
      by (symmetry; apply Z.ltb_lt; exact Hcount).
    fold s. unfold bind. rewrite Hrun. cbn [SectionLoop].
    rewrite Hzero. reflexivity. }
  rewrite Hpass, Hrun. cbn [is_done final_state]. auto.
Qed.

Lemma zeroed_section_count_ends_the_pass_witness :
  NumberOfSections overlapping_mem (example_kernel_base + 0x80) = 3
  ∧ HardenImage (L := example_layout) 4 overlapping_machine
    = HardenSection (L := example_layout) 4 (mkSection 0x40 0x80 0x42000040)
        overlapping_machine.
Proof.
  split; [vm_compute; reflexivity|].
  destruct (zeroed_section_count_ends_the_pass (L := example_layout) 4
              overlapping_machine) as (Hrun & _).
  - vm_compute. reflexivity.
  - vm_compute. reflexivity.
  - intros a Ha. apply list_elem_of_In. apply list_elem_of_In in Ha.
    vm_compute in Ha. destruct Ha as [<-|[<-|[]]]; vm_compute; tauto.
  - rewrite Hrun. f_equal.
Defined.

(** ** What the loop body leaves alone *)

Section Precedence.
Context {L : Layout}.

(** X9: the discardable flag is tested first.  A discardable section is
    zero-filled and nothing else, whether or not it is writable: the run
    completes with any fuel, no leaf entry is looked up or edited, every
    byte of the extent reads zero and every other byte is as before. *)
Theorem discardable_section_is_only_zeroed fuel s st :
  is_discardable s = true →
  ∃ st',
    HardenSection fuel s st = Done tt st'
    ∧ tables st' = tables st ∧ pool st' = pool st
    ∧ trace st'
      = trace st ++ [EvPrintZeroing (section_start s) (VirtualSize s);
                     EvMemzero (section_start s) (VirtualSize s)]
    ∧ (∀ a, a ∈ extent s → mem st' !! a = Some x00)
    ∧ (∀ a, a ∉ extent s → mem st' !! a = mem st !! a).
Proof.
  intros Hd. unfold HardenSection. rewrite Hd.
  eexists. split; [reflexivity|]. cbn [tables pool trace mem emit set_mem].
  split; [reflexivity|]. split; [reflexivity|].
  split; [rewrite <- app_assoc; reflexivity|]. split.
  - intros a Ha. apply memzero_lookup_in. exact Ha.
  - intros a Ha. apply memzero_lookup_out. exact Ha.
Qed.

(** X10: a section of size zero is passed over, with any fuel: nothing is
    zeroed, no leaf entry is looked up, and memory, tables and pool are
    left as they were. *)
Theorem empty_section_is_passed_over fuel s st :
  VirtualSize s = 0 →
  ∃ st' evs,
    HardenSection fuel s st = Done tt st'
    ∧ mem st' = mem st ∧ tables st' = tables st ∧ pool st' = pool st
    ∧ trace st' = trace st ++ evs
    ∧ ∀ page, EvGetPresentPte page ∉ evs.
Proof.
  intros Hsize. unfold HardenSection.
  destruct (is_discardable s); [|destruct (is_writable s)]; cbn [negb].
  - eexists. exists [EvPrintZeroing (section_start s) 0; EvMemzero (section_start s) 0].
    split; [reflexivity|]. rewrite Hsize.
    cbn [tables pool trace mem emit set_mem Z.to_nat memzero].
    repeat split. { rewrite <- app_assoc. reflexivity. }
    intros page Hin.
    apply elem_of_cons in Hin as [Hin|Hin]; [discriminate|].
    apply elem_of_cons in Hin as [Hin|Hin]; [discriminate|inversion Hin].
  - exists st, []. rewrite app_nil_r. repeat split. intros page Hin. inversion Hin.
  - assert (section_end s = section_start s) as Hend.
    { unfold section_end. rewrite Hsize, Z.add_0_r.
      unfold section_start at 1, wrap64. rewrite Z.mod_mod by lia. reflexivity. }
    rewrite Hend. unfold bind, log.
    exists (emit [EvPrintWriteProtecting (section_start s) (section_start s)] st).
    exists [EvPrintWriteProtecting (section_start s) (section_start s)].
    split.
    + destruct fuel; cbn [WriteProtectLoop]; rewrite Z.ltb_irrefl; reflexivity.
    + repeat split. intros page Hin.
      apply elem_of_cons in Hin as [Hin|Hin]; [discriminate|inversion Hin].
Qed.
End Precedence.

Lemma discardable_section_is_only_zeroed_witness :
  is_writable scratch_section = false
  ∧ ∃ st',
      HardenSection (L := example_layout) 0 scratch_section example_machine
      = Done tt st'
      ∧ tables st' = example_tables
      ∧ read_u8 (mem example_machine) (example_kernel_base + 0x1000) = 255
      ∧ mem st' !! (example_kernel_base + 0x1000) = Some x00.
Proof.
  split; [reflexivity|].
  destruct (discardable_section_is_only_zeroed (L := example_layout) 0
              scratch_section example_machine)
    as (st' & Hrun & Ht & _ & _ & Hzero & _); [reflexivity|].
  exists st'. split; [exact Hrun|]. split; [exact Ht|].
  split; [vm_compute; reflexivity|].
  apply Hzero. apply span_first. cbn [VirtualSize scratch_section]. lia.
Defined.

Lemma empty_section_is_passed_over_witness :
  ∃ st',
    HardenSection (L := example_layout) 0 hollow_section example_machine = Done tt st'
    ∧ tables st' = example_tables.
Proof.
  destruct (empty_section_is_passed_over (L := example_layout) 0 hollow_section
              example_machine) as (st' & evs & Hrun & _ & Ht & _); [reflexivity|].
  exists st'. auto.
Defined.

(** ** What the pass as a whole leaves alone *)

(** X11: whatever the image and whatever the outcome, the pass maps and
    unmaps nothing: the pool is left alone, the walk to the leaf entry of
    every address gives the same result after the pass as before, the
    frame a leaf entry points to is unchanged, and every byte of memory
    is as before or zero. *)
Theorem hardening_keeps_every_translation `{L : Layout} fuel st :
  let st' := final_state (HardenImage fuel st) in
  pool st' = pool st
  ∧ (∀ va,
       GetPresentPte (pool st') (tables st') va
       = GetPresentPte (pool st) (tables st) va)
  ∧ (∀ va pte,
       GetPresentPte (pool st) (tables st) va = Some pte →
       pte_present (entry_at (tables st') pte) = true
       ∧ pte_frame (entry_at (tables st') pte) = pte_frame (entry_at (tables st) pte))
  ∧ (∀ a, mem st' !! a = mem st !! a ∨ mem st' !! a = Some x00).
Proof.
  intros st'.
  assert (hardens st st') as Hh
    by (apply keeps_HardenImage; [apply _|apply hardening_steps_harden]).
  split; [apply Hh|]. split; [|split].
  - intros va. apply hardens_GetPresentPte. exact Hh.
  - intros va pte Hg.
    destruct (hardens_same_walk _ _ Hh pte) as [Hp Hf].
    rewrite Hp, Hf. split; [|reflexivity].
    eapply GetPresentPte_present. exact Hg.
  - apply Hh.
Qed.

(** Protecting a list of pages, whatever the outcome, leaves alone every
    entry that is not the leaf entry of one of them. *)
Lemma protect_pages_frame pages :
  ∀ st a,
    (∀ page, page ∈ pages → GetPresentPte (pool st) (tables st) page ≠ Some a) →
    tables (final_state (for_each ProtectPage pages st)) !! a = tables st !! a.
Proof.
  induction pages as [|page pages IH]; intros st a Ha; [reflexivity|].
  cbn [for_each]. unfold bind.
  destruct (GetPresentPte (pool st) (tables st) page) as [pte|] eqn:Hg.
  - rewrite (ProtectPage_run page st pte Hg).
    set (st1 := emit _ (set_tables _ st)).
    assert (hardens st st1) as H1.
    { apply hardens_clear_writable. eapply GetPresentPte_present. exact Hg. }
    rewrite IH.
    + subst st1. cbn [tables emit set_tables]. unfold clear_writable.
      apply lookup_insert_ne. intros ->. apply (Ha page); [left|exact Hg].
    + intros page' Hin. rewrite (hardens_GetPresentPte st st1) by exact H1.
      apply Ha. right. exact Hin.
  - unfold ProtectPage. rewrite Hg. reflexivity.
Qed.

(** The lookups of a run over a list of pages are lookups of pages of
    the list. *)
Lemma protect_pages_lookups pages :
  ∀ st,
    ∃ evs,
      trace (final_state (for_each ProtectPage pages st)) = trace st ++ evs
      ∧ ∀ page, EvGetPresentPte page ∈ evs → page ∈ pages.
Proof.
  induction pages as [|page pages IH]; intros st.
  - exists []. simpl. rewrite app_nil_r. split; [reflexivity|].
    intros page Hin. inversion Hin.
  - cbn [for_each]. unfold bind.
    destruct (GetPresentPte (pool st) (tables st) page) as [pte|] eqn:Hg.
    + rewrite (ProtectPage_run page st pte Hg).
      set (st1 := emit _ (set_tables _ st)).
      destruct (IH st1) as (evs & Htr & Hin).
      exists ([EvGetPresentPte page; EvClearWritable page pte; EvTlbFlushAddress page]
              ++ evs).
      split.
      * rewrite Htr. subst st1. cbn [trace emit set_tables].
        rewrite <- app_assoc. reflexivity.
      * intros page' Hp. apply elem_of_app in Hp as [Hp|Hp].
        -- apply elem_of_cons in Hp as [Hp|Hp]; [injection Hp as ->; left|].
           apply elem_of_cons in Hp as [Hp|Hp]; [discriminate|].
           apply elem_of_cons in Hp as [Hp|Hp]; [discriminate|]. inversion Hp.
        -- right. apply Hin. exact Hp.
    + unfold ProtectPage. rewrite Hg.
      exists [EvGetPresentPte page]. split; [reflexivity|].
      intros page' Hp.
      apply elem_of_cons in Hp as [Hp|Hp]; [injection Hp as ->; left|inversion Hp].
Qed.

Section Frame.
Context {L : Layout}.

Lemma HardenSection_tables_frame fuel s st a :
  0 <= base kva_kernel → 0 <= VirtualAddress s → 0 <= VirtualSize s →
  section_ready fuel (pool st) (tables st) s = true →
  (is_protected s = true →
   ∀ page, page ∈ page_steps (section_start s) (section_end s) →
     GetPresentPte (pool st) (tables st) page ≠ Some a) →
  tables (final_state (HardenSection fuel s st)) !! a = tables st !! a.
Proof.
  intros Hb Hva Hvs Hready Ha. unfold HardenSection.
  unfold section_ready, is_protected in *.
  destruct (is_discardable s); [reflexivity|].
  destruct (is_writable s); [reflexivity|]. cbn [negb andb orb] in *.
  apply andb_true_iff in Hready as [Hready _].
  apply andb_true_iff in Hready as [Hfit Hfuel].
  apply Z.leb_le in Hfit, Hfuel.
  destruct (section_bounds s Hb Hva Hvs Hfit) as [Hstart Hend].
  unfold bind, log.
  rewrite WriteProtectLoop_steps; try (rewrite ?Hstart, ?Hend; lia); [|exact Hfuel].
  rewrite protect_pages_frame; [reflexivity|].
  intros page Hpage. apply Ha; [reflexivity|exact Hpage].
Qed.

Lemma harden_sections_tables_frame fuel secs :
  ∀ st a,
    0 <= base kva_kernel →
    Forall (λ s, 0 <= VirtualAddress s ∧ 0 <= VirtualSize s) secs →
    forallb (section_ready fuel (pool st) (tables st)) secs = true →
    (∀ page, page ∈ stepped_pages secs →
       GetPresentPte (pool st) (tables st) page ≠ Some a) →
    tables (final_state (for_each (HardenSection fuel) secs st)) !! a
    = tables st !! a.
Proof.
  induction secs as [|s secs IH]; intros st a Hb Hpos Hready Ha; [reflexivity|].
  cbn [forallb] in Hready. apply andb_true_iff in Hready as [Hs Hrest].
  apply Forall_cons in Hpos as [[Hva Hvs] Hpos].
  assert (∀ page, page ∈ stepped_pages [s] ∨ page ∈ stepped_pages secs →
            GetPresentPte (pool st) (tables st) page ≠ Some a) as Ha'.
  { intros page Hin. apply Ha. unfold stepped_pages in *. cbn [flat_map] in *.
    rewrite app_nil_r in Hin. apply elem_of_app. exact Hin. }
  pose proof (HardenSection_tables_frame fuel s st a Hb Hva Hvs Hs) as Hframe.
  destruct (HardenSection_run fuel s st Hb Hva Hvs Hs) as (st1 & Hrun1 & Hh1 & _).
  cbn [for_each]. unfold bind. rewrite Hrun1 in *. cbn [final_state] in Hframe.
  rewrite IH; try assumption.
  - apply Hframe. intros Hp page Hpage. apply Ha'. left.
    unfold stepped_pages. cbn [flat_map]. rewrite Hp, app_nil_r. exact Hpage.
  - rewrite (forallb_eq _ (section_ready fuel (pool st) (tables st))); [exact Hrest|].
    intros s'. apply section_ready_hardens. exact Hh1.
  - intros page Hpage. rewrite (hardens_GetPresentPte st st1) by exact Hh1.
    apply Ha'. right. exact Hpage.
Qed.

(** X12: over an image that is ready, the pass edits no entry of the
    arena other than the leaf entries of the pages its write-protect loop
    steps on.  A page whose leaf entry is not among them (the pages of
    the writable sections and of the discardable ones) is mapped as
    before, through an entry that has not changed: it keeps its writable
    bit. *)
Theorem hardening_edits_stepped_leaves_only fuel st :
  image_ready fuel st = true →
  ∃ st',
    HardenImage fuel st = Done tt st'
    ∧ (∀ a,
         a ∉ stepped_leaves (pool st) (tables st) (section_table (mem st)) →
         tables st' !! a = tables st !! a)
    ∧ (∀ va pte,
         GetPresentPte (pool st) (tables st) va = Some pte →
         pte ∉ stepped_leaves (pool st) (tables st) (section_table (mem st)) →
         GetPresentPte (pool st') (tables st') va = Some pte
         ∧ entry_at (tables st') pte = entry_at (tables st) pte
         ∧ pte_writable (entry_at (tables st') pte)
           = pte_writable (entry_at (tables st) pte)).
Proof.
  intros Hready. unfold image_ready in Hready.
  apply andb_true_iff in Hready as [Hready Hsecs].
  apply andb_true_iff in Hready as [Hb Hkept]. apply Z.leb_le in Hb.
  assert (Forall (λ s, 0 <= VirtualAddress s ∧ 0 <= VirtualSize s)
            (section_table (mem st))) as Hpos.
  { unfold section_table. apply Forall_fmap, Forall_forall. intros p _. simpl.
    split; apply read_u32_range. }
  destruct (harden_sections_run fuel (section_table (mem st)) st Hb Hpos Hsecs)
    as (st' & Hrun & Hh & _).
  assert (∀ a,
            a ∉ stepped_leaves (pool st) (tables st) (section_table (mem st)) →
            tables st' !! a = tables st !! a) as Hframe.
  { intros a Ha.
    pose proof (harden_sections_tables_frame fuel (section_table (mem st)) st a
                  Hb Hpos Hsecs) as Hf.
    rewrite Hrun in Hf. apply Hf. intros page Hpage Hg. apply Ha.
    unfold stepped_leaves. apply list_elem_of_omap. eauto. }
  exists st'. split; [rewrite (HardenImage_unroll fuel st Hkept); exact Hrun|].
  split; [exact Hframe|].
  intros va pte Hg Hout.
  assert (entry_at (tables st') pte = entry_at (tables st) pte) as He
    by (unfold entry_at; rewrite (Hframe pte Hout); reflexivity).
  split; [|split].
  - rewrite (hardens_GetPresentPte st st' va Hh). exact Hg.
  - exact He.
  - rewrite He. reflexivity.
Qed.
End Frame.

Lemma hardening_edits_stepped_leaves_only_witness :
  ∃ st',
    HardenImage (L := example_layout) 4 example_machine = Done tt st'
    ∧ GetPresentPte (pool st') (tables st') (example_kernel_base + 0x4000)
      = Some 0x13020
    ∧ entry_at (tables st') 0x13020 = 0x8000000000204003
    ∧ pte_writable (entry_at (tables st') 0x13020) = true.
Proof.
  destruct (hardening_edits_stepped_leaves_only (L := example_layout) 4
              example_machine) as (st' & Hrun & _ & Hkeep); [vm_compute; reflexivity|].
  exists st'. split; [exact Hrun|].
  destruct (Hkeep (example_kernel_base + 0x4000) 0x13020) as (Hg & He & Hw).
  - vm_compute. reflexivity.
  - intros Hin. apply list_elem_of_In in Hin. vm_compute in Hin.
    destruct Hin as [Hin|[]]. discriminate.
  - split; [exact Hg|]. split; [rewrite He; reflexivity|].
    rewrite Hw. reflexivity.
Defined.

(** ** The sections of the image, one by one *)

(** C2, as stated, fails on an image whose code section starts in the
    middle of a page that it shares with writable data, although the
    image is ready and the pass completes.  The loop makes one lookup,
    at the start of the code section: the page that holds the second half
    of the code is never looked up and stays writable, and the page of
    the writable section ends read-only.  It fails, too, on the image
    whose discardable section lies over the NT headers: zeroing it zeroes
    the section count, and the code section that comes next in the table
    is not processed and stays writable.  And it fails on a section,
    neither discardable nor writable, that reaches the end of the address
    space: its end wraps to 0 and the loop makes no lookup. *)
Lemma straddling_section_counterexample :
  (section_table (L := example_layout) (mem straddling_machine)
   = [straddling_code; straddling_data]
   ∧ is_discardable straddling_code = false ∧ is_writable straddling_code = false
   ∧ is_discardable straddling_data = false ∧ is_writable straddling_data = true
   ∧ image_ready (L := example_layout) 1 straddling_machine = true
   ∧ HardenImage (L := example_layout) 1 straddling_machine
     = Done tt
         (mkMachine straddling_mem (clear_writable example_tables 0x13018) example_pool
            [EvPrintWriteProtecting 0xFFFFFFFF80003800 0xFFFFFFFF80004800;
             EvGetPresentPte 0xFFFFFFFF80003800;
             EvClearWritable 0xFFFFFFFF80003800 0x13018;
             EvTlbFlushAddress 0xFFFFFFFF80003800])
   ∧ (section_start (L := example_layout) straddling_code <= 0xFFFFFFFF80004000
      < section_end (L := example_layout) straddling_code)
   ∧ GetPresentPte example_pool (clear_writable example_tables 0x13018)
       0xFFFFFFFF80004000 = Some 0x13020
   ∧ pte_writable (entry_at (clear_writable example_tables 0x13018) 0x13020) = true
   ∧ (section_start (L := example_layout) straddling_data <= 0xFFFFFFFF80003000
      < section_end (L := example_layout) straddling_data)
   ∧ GetPresentPte example_pool example_tables 0xFFFFFFFF80003000 = Some 0x13018
   ∧ pte_writable (entry_at example_tables 0x13018) = true
   ∧ GetPresentPte example_pool (clear_writable example_tables 0x13018)
       0xFFFFFFFF80003000 = Some 0x13018
   ∧ pte_writable (entry_at (clear_writable example_tables 0x13018) 0x13018) = false)
  ∧ (nth_error (section_table (L := example_layout) (mem overlapping_machine)) 1
     = Some (mkSection 0x1000 0x3000 0x60000020)
     ∧ is_done (HardenImage (L := example_layout) 4 overlapping_machine) = true
     ∧ tables (final_state (HardenImage (L := example_layout) 4 overlapping_machine))
       = example_tables
     ∧ GetPresentPte example_pool example_tables 0xFFFFFFFF80003000 = Some 0x13018
     ∧ pte_writable (entry_at example_tables 0x13018) = true)
  ∧ (is_discardable top_section = false ∧ is_writable top_section = false
     ∧ section_start (L := top_layout) top_section = 0xFFFFFFFFFFFFF000
     ∧ VirtualSize top_section = 0x1000
     ∧ HardenSection (L := top_layout) 4 top_section example_machine
       = Done tt (emit [EvPrintWriteProtecting 0xFFFFFFFFFFFFF000 0] example_machine)).
Proof.
  split; [|split].
  - split; [vm_compute; reflexivity|].
    do 4 (split; [reflexivity|]).
    split; [vm_compute; reflexivity|].
    split; [vm_compute; reflexivity|].
    split; [vm_compute; split; [discriminate|reflexivity]|].
    split; [vm_compute; reflexivity|].
    split; [vm_compute; reflexivity|].
    split; [vm_compute; split; [discriminate|reflexivity]|].
    split; [vm_compute; reflexivity|].
    split; [vm_compute; reflexivity|].
    split; vm_compute; reflexivity.
  - split; [vm_compute; reflexivity|].
    split; [vm_compute; reflexivity|].
    split; [vm_compute; reflexivity|].
    split; vm_compute; reflexivity.
  - do 4 (split; [reflexivity|]). reflexivity.
Qed.

(** C2 (amended): over an image that is ready, the pass completes and is
    the loop body run over the section table in table order.  Every byte
    of the extent of a discardable section then reads zero; for a section
    that is neither discardable nor writable, the leaf entry of every page
    step of its extent (its start and every whole page further, below its
    end) was looked up, was present, and has its writable bit clear, and
    so has the leaf entry of every address of the extent when the section
    starts on a page boundary; the turn of a section that is writable and
    not discardable gives rise to no event and to no change of state.
    What the pass leaves alone: the pool; every byte of memory outside
    the extents of the discardable sections; every entry of the arena
    that is not the leaf entry of a page step of a section neither
    discardable nor writable, so that a page whose leaf entry is not
    among those is mapped as before and is as writable as before. *)
Theorem hardening_treats_every_section `{L : Layout} fuel st :
  image_ready fuel st = true →
  ∃ st',
    HardenImage fuel st = Done tt st'
    ∧ HardenImage fuel st
      = for_each (HardenSection fuel) (section_table (mem st)) st
    ∧ trace st'
      = trace st
        ++ flat_map (section_events (pool st) (tables st)) (section_table (mem st))
    ∧ (∀ a, (∀ s, s ∈ section_table (mem st) → is_discardable s = true →
                  a ∉ extent s) →
            mem st' !! a = mem st !! a)
    ∧ (∀ s, s ∈ section_table (mem st) →
        (is_discardable s = true →
         ∀ a, a ∈ extent s → read_u8 (mem st') a = 0)
        ∧ (is_discardable s = false → is_writable s = false →
           (∀ page, page ∈ page_steps (section_start s) (section_end s) →
              In (EvGetPresentPte page) (section_events (pool st) (tables st) s)
              ∧ ∃ pte,
                  GetPresentPte (pool st) (tables st) page = Some pte
                  ∧ pte_present (entry_at (tables st) pte) = true
                  ∧ pte_writable (entry_at (tables st') pte) = false)
           ∧ (section_start s mod page_size = 0 →
              ∀ a, section_start s <= a < section_end s →
                ∃ pte,
                  GetPresentPte (pool st') (tables st') a = Some pte
                  ∧ pte_writable (entry_at (tables st') pte) = false))
        ∧ (is_discardable s = false → is_writable s = true →
           section_events (pool st) (tables st) s = []
           ∧ ∀ st0, HardenSection fuel s st0 = Done tt st0))
    ∧ pool st' = pool st
    ∧ (∀ a,
         a ∉ stepped_leaves (pool st) (tables st) (section_table (mem st)) →
         tables st' !! a = tables st !! a)
    ∧ (∀ va pte,
         GetPresentPte (pool st) (tables st) va = Some pte →
         pte ∉ stepped_leaves (pool st) (tables st) (section_table (mem st)) →
         GetPresentPte (pool st') (tables st') va = Some pte
         ∧ entry_at (tables st') pte = entry_at (tables st) pte).
Proof.
  intros Hready. unfold image_ready in Hready.
  apply andb_true_iff in Hready as [Hready Hsecs].
  apply andb_true_iff in Hready as [Hb Hkept]. apply Z.leb_le in Hb.
  pose proof (HardenImage_unroll fuel st Hkept) as Hunroll.
  assert (Forall (λ s, 0 <= VirtualAddress s ∧ 0 <= VirtualSize s)
            (section_table (mem st))) as Hpos.
  { unfold section_table. apply Forall_fmap, Forall_forall. intros p _. simpl.
    split; apply read_u32_range. }
  destruct (harden_sections_run fuel (section_table (mem st)) st Hb Hpos Hsecs)
    as (st' & Hrun & Hh & Heff & Hframe & Htr).
  assert (∀ a,
            a ∉ stepped_leaves (pool st) (tables st) (section_table (mem st)) →
            tables st' !! a = tables st !! a) as Htables.
  { intros a Ha.
    pose proof (harden_sections_tables_frame fuel (section_table (mem st)) st a
                  Hb Hpos Hsecs) as Hf.
    rewrite Hrun in Hf. apply Hf. intros page Hpage Hg. apply Ha.
    unfold stepped_leaves. apply list_elem_of_omap. eauto. }
  exists st'. split; [rewrite Hunroll; exact Hrun|]. split; [exact Hunroll|].
  split; [exact Htr|]. split; [exact Hframe|].
  split; [|split; [apply Hh|split; [exact Htables|]]].
  - intros s Hs. destruct (Heff s Hs) as [Hzero Hprot]. split; [|split].
    + intros Hd a Ha. apply read_u8_zero. apply Hzero; assumption.
    + intros Hd Hw.
      assert (is_protected s = true) as Hp
        by (unfold is_protected; rewrite Hd, Hw; reflexivity).
      assert (∀ page, page ∈ page_steps (section_start s) (section_end s) →
                ∃ pte, GetPresentPte (pool st) (tables st) page = Some pte
                       ∧ pte_present (entry_at (tables st) pte) = true
                       ∧ pte_writable (entry_at (tables st') pte) = false) as Hpages.
      { intros page Hpage. destruct (Hprot Hp page Hpage) as (pte & Hg & e & He & Hwe).
        exists pte. split; [exact Hg|]. split; [eapply GetPresentPte_present; exact Hg|].
        unfold entry_at. rewrite He. exact Hwe. }
      split.
      * intros page Hpage. split; [|apply Hpages; exact Hpage].
        unfold section_events. rewrite Hd, Hp. right.
        apply in_flat_map. exists page. split; [apply list_elem_of_In; exact Hpage|].
        unfold protect_events. destruct (GetPresentPte _ _ page); left; reflexivity.
      * intros Hal a Ha.
        rewrite forallb_forall in Hsecs.
        specialize (Hsecs s ltac:(apply list_elem_of_In; exact Hs)).
        unfold section_ready in Hsecs. rewrite Hp in Hsecs. cbn [negb orb] in Hsecs.
        apply andb_true_iff in Hsecs as [Hfit _].
        apply andb_true_iff in Hfit as [Hfit _]. apply Z.leb_le in Hfit.
        assert (0 <= VirtualAddress s ∧ 0 <= VirtualSize s) as [Hva Hvs].
        { unfold section_table in Hs. apply list_elem_of_fmap in Hs as (p & -> & _).
          simpl. split; apply read_u32_range. }
        destruct (section_bounds s Hb Hva Hvs Hfit) as [Hstart _].
        destruct (page_steps_cover (section_start s) (section_end s) a) as
          (page & Hpage & Hin & Hpal); [lia|exact Ha|].
        destruct (Hpages page Hpage) as (pte & Hg & _ & Hwe).
        exists pte. split; [|exact Hwe].
        rewrite (hardens_GetPresentPte st st' a Hh).
        rewrite (GetPresentPte_same_page _ _ page a); [exact Hg| |auto|exact Hin].
        apply descriptor_cursors_elem in Hpage as (k & Hk & ->). unfold page_size. lia.
    + intros Hd Hw. split.
      * unfold section_events, is_protected. rewrite Hd, Hw. reflexivity.
      * intros st0. apply HardenSection_skip; assumption.
  - intros va pte Hg Hout. split.
    + rewrite (hardens_GetPresentPte st st' va Hh). exact Hg.
    + unfold entry_at. rewrite (Htables pte Hout). reflexivity.
Qed.

Lemma hardening_treats_every_section_witness :
  ∃ st',
    HardenImage (L := example_layout) 4 example_machine = Done tt st'
    ∧ read_u8 (mem example_machine) (example_kernel_base + 0x1000) = 255
    ∧ read_u8 (mem st') (example_kernel_base + 0x1000) = 0
    ∧ pte_writable (entry_at (tables example_machine) 0x13018) = true
    ∧ pte_writable (entry_at (tables st') 0x13018) = false
    ∧ GetPresentPte (pool st') (tables st') (example_kernel_base + 0x4000)
      = Some 0x13020
    ∧ entry_at (tables st') 0x13020 = 0x8000000000204003.
Proof.
  destruct (hardening_treats_every_section (L := example_layout) 4 example_machine)
    as (st' & Hrun & _ & _ & _ & Hsecs & _ & _ & Hkeep); [vm_compute; reflexivity|].
  exists st'. split; [exact Hrun|].
  split; [vm_compute; reflexivity|].
  split.
  { destruct (Hsecs (mkSection 0x40 0x1000 0x42000040)) as (Hzero & _).
    { apply list_elem_of_In. vm_compute. left. reflexivity. }
    apply Hzero; [reflexivity|].
    apply span_first. cbn [VirtualSize]. lia. }
  split; [vm_compute; reflexivity|].
  split.
  { destruct (Hsecs (mkSection 0x1000 0x3000 0x60000020)) as (_ & Hprot & _).
    { apply list_elem_of_In. vm_compute. right. left. reflexivity. }
    destruct Hprot as [Hpages _]; [reflexivity..|].
    destruct (Hpages (example_kernel_base + 0x3000)) as (_ & pte & Hg & _ & Hw).
    { apply list_elem_of_In. vm_compute. left. reflexivity. }
    vm_compute in Hg. injection Hg as <-. exact Hw. }
  destruct (Hkeep (example_kernel_base + 0x4000) 0x13020) as (Hg & He).
  - vm_compute. reflexivity.
  - intros Hin. apply list_elem_of_In in Hin. vm_compute in Hin.
    destruct Hin as [Hin|[]]. discriminate.
  - split; [exact Hg|]. rewrite He. reflexivity.
Defined.

(** ** A section that starts off a page boundary *)

(** X13: the write-protect loop steps from [start] by whole pages, so it
    makes one lookup per page of size, wherever [start] lies in its
    page.  When the extent, for its offset in the page, spills onto one
    page more than its size fills, no lookup lands on the page that holds
    its last byte. *)
Theorem unaligned_section_misses_its_last_page fuel start stop st :
  0 <= start → start < stop → stop + page_size <= 2 ^ 64 →
  Z.of_nat (length (page_steps start stop)) <= Z.of_nat fuel →
  page_size <= start mod page_size + (stop - 1 - start) mod page_size →
  ∃ evs,
    trace (final_state (WriteProtectLoop fuel start stop st)) = trace st ++ evs
    ∧ ∀ page,
        EvGetPresentPte page ∈ evs →
        start <= page < stop ∧ page / page_size < (stop - 1) / page_size.
Proof.
  intros Hs Hlt Hfit Hfuel Hspill.
  rewrite WriteProtectLoop_steps by (assumption || lia).
  destruct (protect_pages_lookups (page_steps start stop) st) as (evs & Htr & Hin).
  exists evs. split; [exact Htr|].
  intros page Hpage. specialize (Hin page Hpage).
  unfold page_steps in Hin. apply descriptor_cursors_elem in Hin as (j & Hj & ->).
  unfold page_size in *.
  pose proof (strides_covering_spec (stop - start) 4096 ltac:(lia) ltac:(lia))
    as [_ Htight]. cbn zeta in Htight.
  pose proof (Z.div_mod start 4096 ltac:(lia)) as Hstart.
  pose proof (Z.mod_pos_bound start 4096 ltac:(lia)) as Ho.
  pose proof (Z.div_mod (stop - 1 - start) 4096 ltac:(lia)) as Hsize.
  pose proof (Z.mod_pos_bound (stop - 1 - start) 4096 ltac:(lia)) as Hr.
  set (o := start mod 4096) in *. set (r := (stop - 1 - start) mod 4096) in *.
  set (q := (stop - 1 - start) / 4096) in *. set (b := start / 4096) in *.
  assert (j <= q) as Hjq by nia.
  split; [nia|].
  assert ((start + j * 4096) / 4096 = b + j) as ->.
  { symmetry. apply Z.div_unique with (r := o); lia. }
  assert ((stop - 1) / 4096 = b + q + 1) as ->.
  { symmetry. apply Z.div_unique with (r := o + r - 4096); lia. }
  lia.
Qed.

Lemma unaligned_section_misses_its_last_page_witness :
  ∃ evs,
    trace (final_state
             (WriteProtectLoop 1 (example_kernel_base + 0x3800)
                (example_kernel_base + 0x4800) example_machine))
    = [] ++ evs
    ∧ ∀ page,
        EvGetPresentPte page ∈ evs →
        example_kernel_base + 0x3800 <= page < example_kernel_base + 0x4800
        ∧ page / page_size < (example_kernel_base + 0x4800 - 1) / page_size.
Proof.
  apply (unaligned_section_misses_its_last_page 1 (example_kernel_base + 0x3800)
           (example_kernel_base + 0x4800) example_machine).
  - vm_compute. discriminate.
  - vm_compute. reflexivity.
  - vm_compute. discriminate.
  - vm_compute. discriminate.
  - vm_compute. discriminate.
Defined.

(** ** A section that reaches the end of the address space *)

(** X14: the end of a section is computed in 64-bit arithmetic.  For a
    section, neither discardable nor writable, whose extent reaches or
    crosses the end of the address space, the end wraps below the start:
    the write-protect loop is not entered, and the section is passed over
    with its message only, with any fuel, its pages as writable as
    before. *)
Theorem section_reaching_the_top_is_not_protected `{L : Layout} fuel s st :
  is_discardable s = false → is_writable s = false →
  0 <= base kva_kernel + VirtualAddress s < 2 ^ 64 →
  0 <= VirtualSize s < 2 ^ 32 →
  2 ^ 64 <= base kva_kernel + VirtualAddress s + VirtualSize s →
  section_end s < section_start s
  ∧ HardenSection fuel s st
    = Done tt (emit [EvPrintWriteProtecting (section_start s) (section_end s)] st)
  ∧ tables (final_state (HardenSection fuel s st)) = tables st.
Proof.
  intros Hd Hw Hstart Hsize Htop.
  assert (section_start s = base kva_kernel + VirtualAddress s) as Hs
    by (apply wrap64_small; exact Hstart).
  assert (section_end s = base kva_kernel + VirtualAddress s + VirtualSize s - 2 ^ 64)
    as He.
  { unfold section_end. rewrite Hs. unfold wrap64.
    symmetry. apply Z.mod_unique with (q := 1); lia. }
  assert (section_end s < section_start s) as Hlt by lia.
  assert (HardenSection fuel s st
          = Done tt (emit [EvPrintWriteProtecting (section_start s) (section_end s)] st))
    as Hrun.
  { unfold HardenSection. rewrite Hd, Hw. cbn [negb]. unfold bind, log.
    destruct fuel; cbn [WriteProtectLoop];
      replace (section_start s <? section_end s) with false
        by (symmetry; apply Z.ltb_ge; lia);
      reflexivity. }
  split; [exact Hlt|]. split; [exact Hrun|]. rewrite Hrun. reflexivity.
Qed.

Lemma section_reaching_the_top_is_not_protected_witness :
  section_start (L := top_layout) top_section = 0xFFFFFFFFFFFFF000
  ∧ section_end (L := top_layout) top_section = 0
  ∧ HardenSection (L := top_layout) 1 top_section example_machine
    = Done tt (emit [EvPrintWriteProtecting 0xFFFFFFFFFFFFF000 0] example_machine).
Proof.
  split; [reflexivity|]. split; [reflexivity|].
  destruct (section_reaching_the_top_is_not_protected (L := top_layout) 1 top_section
              example_machine) as (_ & Hrun & _).
  - reflexivity.
  - reflexivity.
  - vm_compute. split; [discriminate|reflexivity].
  - vm_compute. split; [discriminate|reflexivity].
  - vm_compute. discriminate.
  - exact Hrun.
Defined.

(** ** The bring-up sequence from end to end *)

#[export] Instance same_root_preorder : PreOrder same_root.
Proof.
  split.
  - intros st. reflexivity.
  - intros s1 s2 s3 H12 H23. unfold same_root in *. congruence.
Qed.

Section Sequence.
Context {L : Layout} {MMgr : MemoryManager}.

Lemma MapPages_root va pa n st :
  keeps_root → same_root st (final_state (MapPages va pa n st)).
Proof.
  intros [Hmap _]. unfold MapPages, same_root.
  destruct (mm_MapPages (pool st) (tables st) va pa n) as [[p t]|] eqn:Hrun;
    [|reflexivity].
  simpl. eapply Hmap. exact Hrun.
Qed.

Lemma MapRuntimeDescriptor_requests desc :
  emits map_request (MapRuntimeDescriptor desc).
Proof.
  intros st. unfold MapRuntimeDescriptor, MapPages.
  destruct (has_runtime_attribute _).
  - destruct (mm_MapPages _ _ _ _ _) as [[p t]|]; simpl.
    + eexists. split; [reflexivity|]. repeat constructor.
    + exists []. rewrite app_nil_r. auto.
  - exists []. simpl. rewrite app_nil_r. auto.
Qed.

Lemma MapRuntimeDescriptor_root desc :
  keeps_root → keeps same_root (MapRuntimeDescriptor desc).
Proof.
  intros Hk st. unfold MapRuntimeDescriptor.
  destruct (has_runtime_attribute _); [|reflexivity].
  apply MapPages_root. exact Hk.
Qed.

Lemma MapRuntimeRegions_requests fuel m : emits map_request (MapRuntimeRegions fuel m).
Proof.
  unfold MapRuntimeRegions, IterateMemoryDescriptors.
  apply emits_IterateFrom. apply MapRuntimeDescriptor_requests.
Qed.

Lemma MapRuntimeRegions_root fuel m :
  keeps_root → keeps same_root (MapRuntimeRegions fuel m).
Proof.
  intros Hk. unfold MapRuntimeRegions, IterateMemoryDescriptors.
  apply keeps_IterateFrom; [apply _|].
  intros d. apply MapRuntimeDescriptor_root. exact Hk.
Qed.

(** X15: a complete run of [OsInitialize] is made of these steps, each
    starting from the state the one before left.  After graphics, serial
    port and interrupt-topology set-up, the memory manager is asked for
    the root and for the seven mappings that do not depend on the memory
    map (kernel image, page-table pool, frame-buffer window, timer and
    the two interrupt-controller pages), each request on the pool and
    tables the one before handed back, and grants them all.  The
    memory-map pass runs to its end from the pool and tables these
    requests left, on the memory the run started with, and adds mapping
    requests only.  The root of the pool it leaves is loaded, the frame
    buffer and the timer are registered at the addresses the manager
    handed back for their windows, CPU and timer are set up, and the
    keyboard controller, or a message that there is none.  The hardening
    pass runs to its end from that very state, and adds hardening events
    only.  The run ends in the state hardening left, with the unmasking
    of interrupts and idling as its last two events.  With a memory
    manager that leaves the root alone the root loaded is the page
    allocated first. *)
Theorem bring_up_runs_in_order fuel lb st :
  let r := OsInitialize fuel lb st in
  is_done r = true →
  ∃ p6 t6 root_page fb hp sB sH runtime hardening,
    fixed_construction lb (tables st) = Some (p6, t6, root_page, fb, hp)
    ∧ MapRuntimeRegions fuel (memory_map lb)
        (mkMachine (mem st) t6 p6
           (trace st ++ prologue lb ++ fixed_requests lb root_page))
      = Done tt sB
    ∧ trace sB = trace st ++ prologue lb ++ fixed_requests lb root_page ++ runtime
    ∧ HardenImage fuel (emit (hardware_events lb (root (pool sB)) fb hp) sB)
      = Done tt sH
    ∧ trace sH
      = trace sB ++ hardware_events lb (root (pool sB)) fb hp ++ hardening
    ∧ r = Done tt (emit [EvUnmaskInterrupts; EvIdle] sH)
    ∧ trace (final_state r)
      = trace st ++ prologue lb ++ fixed_requests lb root_page ++ runtime
        ++ hardware_events lb (root (pool sB)) fb hp
        ++ hardening ++ [EvUnmaskInterrupts; EvIdle]
    ∧ Forall map_request runtime
    ∧ Forall hardening_event hardening
    ∧ (keeps_root → root (pool sB) = root_page).
Proof.
  intros r. subst r. rewrite OsInitialize_run.
  destruct (BuildAddressSpace fuel lb (emit (prologue lb) st)) as [a sB| |] eqn:HBuild;
    [|discriminate..].
  destruct (BuildAddressSpace_run _ _ _ _ _ HBuild) as (p6 & t6 & page & Hfixed & Hpass).
  cbn [mem tables trace emit] in Hfixed, Hpass. rewrite <- app_assoc in Hpass.
  set (hw := hardware_events lb (root (pool sB)) (fst a) (snd a)).
  destruct (emits_HardenImage fuel (emit hw sB)) as (hardening & HtrH & Hhardening).
  destruct (HardenImage fuel (emit hw sB)) as [[] sH| |] eqn:Hrun; [|discriminate..].
  intros _. cbn [final_state trace emit] in HtrH. rewrite <- app_assoc in HtrH.
  destruct (MapRuntimeRegions_requests fuel (memory_map lb)
              (mkMachine (mem st) t6 p6
                 (trace st ++ prologue lb ++ fixed_requests lb page)))
    as (runtime & HtrB & Hruntime).
  rewrite Hpass in HtrB. cbn [final_state trace] in HtrB.
  rewrite <- !app_assoc in HtrB.
  exists p6, t6, page, (fst a), (snd a), sB, sH, runtime, hardening.
  split; [exact Hfixed|]. split; [exact Hpass|]. split; [exact HtrB|].
  split; [exact Hrun|]. split; [exact HtrH|]. split; [reflexivity|].
  split; [|split; [exact Hruntime|split; [exact Hhardening|]]].
  - cbn [final_state trace emit]. rewrite HtrH, HtrB, <- !app_assoc. reflexivity.
  - intros Hk.
    destruct (fixed_construction_builds _ _ _ _ _ _ _ Hfixed)
      as (p0 & t0 & p1 & t1 & p2 & t2 & _ & _ & _ & _ & _ & _ & Hroot).
    pose proof (MapRuntimeRegions_root fuel (memory_map lb) Hk
                  (mkMachine (mem st) t6 p6
                     (trace st ++ prologue lb ++ fixed_requests lb page))) as Hsame.
    rewrite Hpass in Hsame. unfold same_root in Hsame. cbn [final_state pool] in Hsame.
    rewrite Hsame. apply Hroot, Hk.
Qed.
End Sequence.

Lemma bring_up_runs_in_order_witness :
  ∃ sB sH runtime hardening,
    OsInitialize (L := example_layout) (MMgr := window_manager) 4
      example_loader_block example_machine
    = Done tt (emit [EvUnmaskInterrupts; EvIdle] sH)
    ∧ trace sB
      = [EvGfxInitialize 0xC0000000 0x300000; EvSerialInitialize;
         EvParseMadt 0x7FE0000]
        ++ fixed_requests (L := example_layout) example_loader_block 0x10000
        ++ runtime
    ∧ trace sH
      = trace sB
        ++ [EvWriteCr3 0x10000; EvSetFrameBufferAddress 0xFFFFFFFE00000000;
            EvSetUsingApic false; EvX64Initialize;
            EvTimerInitialize 0xFFFFFFFD00000000; EvPs2Initialize]
        ++ hardening.
Proof.
  destruct (bring_up_runs_in_order (L := example_layout) (MMgr := window_manager) 4
              example_loader_block example_machine)
    as (p6 & t6 & root_page & fb & hp & sB & sH & runtime & hardening
        & Hfixed & _ & HtrB & _ & HtrH & Hrun & _ & _ & _ & Hroot);
    [vm_compute; reflexivity|].
  injection Hfixed as _ _ <- <- <-.
  rewrite Hroot in HtrH.
  2:{ split.
      - intros p t va pa n p' t' [= <- _]. reflexivity.
      - intros p t region pa n p' t' a [= <- _ _]. reflexivity. }
  exists sB, sH, runtime, hardening.
  split; [exact Hrun|]. split; [exact HtrB|exact HtrH].
Defined.

(** ** The keyboard controller *)

Lemma shift_emit pre evs st : emit evs (shift pre st) = shift pre (emit evs st).
Proof. unfold emit, shift. cbn [mem tables pool trace]. rewrite app_assoc. reflexivity. Qed.

Lemma blind_ret {A} (a : A) : blind (ret a).
Proof. intros pre st. reflexivity. Qed.

Lemma blind_bind {A B} (m : M A) (k : A → M B) :
  blind m → (∀ a, blind (k a)) → blind (bind m k).
Proof.
  intros Hm Hk pre st. unfold bind. rewrite Hm.
  destruct (m st) as [a st1| |]; cbn [map_state]; [apply Hk|reflexivity..].
Qed.

Lemma blind_log e : blind (log e).
Proof. intros pre st. unfold log. rewrite shift_emit. reflexivity. Qed.

Lemma blind_memzero_at start size : blind (memzero_at start size).
Proof.
  intros pre st. unfold memzero_at. cbn [map_state].
  rewrite <- shift_emit. reflexivity.
Qed.

Lemma blind_ProtectPage page : blind (ProtectPage page).
Proof.
  intros pre st. unfold ProtectPage. cbn [pool tables shift].
  destruct (GetPresentPte (pool st) (tables st) page) as [pte|]; cbn [map_state];
    rewrite <- shift_emit; reflexivity.
Qed.

Lemma blind_WriteProtectLoop stop : ∀ fuel page, blind (WriteProtectLoop fuel page stop).
Proof.
  induction fuel as [|fuel IH]; intros page pre st; cbn [WriteProtectLoop];
    destruct (page <? stop); try reflexivity.
  apply blind_bind; [apply blind_ProtectPage|]. intros _. apply IH.
Qed.

Lemma blind_HardenSection `{L : Layout} fuel s : blind (HardenSection fuel s).
Proof.
  unfold HardenSection. destruct (is_discardable s).
  - apply blind_bind; [apply blind_log|]. intros _. apply blind_memzero_at.
  - destruct (negb (is_writable s)).
    + apply blind_bind; [apply blind_log|]. intros _. apply blind_WriteProtectLoop.
    + apply blind_ret.
Qed.

Lemma blind_SectionLoop `{L : Layout} fuel nt :
  ∀ k i section, blind (SectionLoop fuel k nt i section).
Proof.
  induction k as [|k IH]; intros i section pre st; cbn [SectionLoop mem shift];
    destruct (i <? _); try reflexivity.
  apply (blind_bind (HardenSection fuel (read_section_header (mem st) section)));
    [apply blind_HardenSection|]. intros _. apply IH.
Qed.

Lemma blind_HardenImage `{L : Layout} fuel : blind (HardenImage fuel).
Proof. intros pre st. unfold HardenImage. cbn [mem shift]. apply blind_SectionLoop. Qed.

(** X16: the presence of the legacy keyboard controller changes one
    event and nothing else.  Two runs of [OsInitialize] that differ in
    the [i8042] flag only have the same outcome and end with the same
    memory, tables and pool; either both halt before the flag is tested,
    with the same trace, or their traces are the same around one event:
    the set-up of the controller in one, the message that there is none
    in the other. *)
Theorem missing_keyboard_changes_one_event `{L : Layout} `{MMgr : MemoryManager}
    fuel lb st :
  let r := OsInitialize fuel (with_i8042 lb true) st in
  let r' := OsInitialize fuel (with_i8042 lb false) st in
  is_done r' = is_done r
  ∧ mem (final_state r') = mem (final_state r)
  ∧ tables (final_state r') = tables (final_state r)
  ∧ pool (final_state r') = pool (final_state r)
  ∧ ((is_done r = false ∧ trace (final_state r') = trace (final_state r))
     ∨ ∃ pre post,
         trace (final_state r) = pre ++ EvPs2Initialize :: post
         ∧ trace (final_state r') = pre ++ EvPrintNoPs2 :: post).
Proof.
  cbv beta iota zeta delta [OsInitialize bind log WriteCr3].
  change (BuildAddressSpace fuel (with_i8042 lb false))
    with (BuildAddressSpace fuel (with_i8042 lb true)).
  cbn [display madt_header with_i8042].
  set (st3 := emit _ (emit _ (emit _ st))).
  destruct (BuildAddressSpace fuel (with_i8042 lb true) st3) as [a sB| |];
    [|cbn [final_state is_done]; auto 10..].
  rewrite !InitializeHardware_run. cbn [i8042 with_i8042].
  set (sW := emit [EvTimerInitialize (snd a)] _).
  set (s0 := mkMachine (mem sW) (tables sW) (pool sW) []).
  assert (∀ e, emit [e] sW = shift (trace sW ++ [e]) s0) as Hshift.
  { intros e. unfold emit, shift, s0. cbn. rewrite app_nil_r. reflexivity. }
  rewrite !Hshift, !blind_HardenImage.
  destruct (HardenImage fuel s0) as [[] sH|sH|sH];
    cbn [map_state final_state is_done mem tables pool trace emit shift];
    (do 4 (split; [reflexivity|])); right.
  - exists (trace sW), (trace sH ++ [EvUnmaskInterrupts; EvIdle]).
    rewrite <- !app_assoc. split; reflexivity.
  - exists (trace sW), (trace sH). rewrite <- !app_assoc. split; reflexivity.
  - exists (trace sW), (trace sH). rewrite <- !app_assoc. split; reflexivity.
Qed.
